(** * XZip: license server and client gate

    A shallow embedding of the authorization server (key registry,
    [validateKey], [statsHandler]) and of the client (certificate check,
    [validateAuth], [main], [extractFromZip]), with the properties of the
    specification stated over it. *)

From Stdlib Require Import ZArith Lia Ascii.
From stdpp Require Import base numbers list strings pretty gmap fin_maps relations.

Local Open Scope Z_scope.

(** ** Go's [int] on a 64-bit platform *)

Module GoInt.

Definition min_int : Z := - 2 ^ 63.
Definition max_int : Z := 2 ^ 63 - 1.

(** A mathematical integer that is the value of some [int]. *)
Definition in_range (z : Z) : Prop := min_int <= z <= max_int.

(** Two's complement wrap-around of an arithmetic result. *)
Definition wrap (z : Z) : Z := (z + 2 ^ 63) mod 2 ^ 64 - 2 ^ 63.

Definition add (a b : Z) : Z := wrap (a + b).
Definition incr (a : Z) : Z := add a 1.

End GoInt.

(** ** The authorization server *)

Module Server.

(** [time.Time] as an instant on the time line, in nanoseconds. *)
Definition Time := Z.

(** [t.After(u)] and [t.Before(u)]. *)
Definition After (t u : Time) : bool := u <? t.
Definition Before (t u : Time) : bool := t <? u.

(** [t.Add(d)], [d] a [time.Duration] in nanoseconds. *)
Definition Add (t : Time) (d : Z) : Time := t + d.
Definition Hour : Z := 3600 * 10 ^ 9.

Record KeyInfo := mkKeyInfo {
  Valid : bool;
  CreatedAt : Time;
  ExpiresAt : Time;
  UsageCount : Z;
  MaxUsage : Z
}.

(** The two [int] fields hold values of the machine type. *)
Definition wf_KeyInfo (r : KeyInfo) : Prop :=
  GoInt.in_range (UsageCount r) /\ GoInt.in_range (MaxUsage r).

(** [keyInfo.UsageCount++] through the pointer stored in the map. *)
Definition bump (r : KeyInfo) : KeyInfo :=
  mkKeyInfo (Valid r) (CreatedAt r) (ExpiresAt r)
            (GoInt.incr (UsageCount r)) (MaxUsage r).

(** The record [r] with its counter set to [n]. *)
Definition with_usage (r : KeyInfo) (n : Z) : KeyInfo :=
  mkKeyInfo (Valid r) (CreatedAt r) (ExpiresAt r) n (MaxUsage r).

(** [keyDatabase]: every insertion allocates its own [KeyInfo], so no two
    keys share a record and the map of pointers is a map to records. *)
Abbreviation Registry := (gmap string KeyInfo).

Definition ACCEPT : Z := 1.
Definition REJECT : Z := -1.

(** [validateKey], run to completion with the lock held.  [now] is the
    reading [time.Now()] gives at the expiry test.  The result is the
    returned status and the registry after the call. *)
Definition validateKey (db : Registry) (now : Time) (key : string)
  : Z * Registry :=
  match db !! key with
  | None => (-1, db)
  | Some keyInfo =>
      if negb (Valid keyInfo) then (-1, db)
      else if After now (ExpiresAt keyInfo) then (-1, db)
      else if UsageCount keyInfo >=? MaxUsage keyInfo then (-1, db)
      else (1, <[key := bump keyInfo]> db)
  end.

(** A sequence of validation calls, each with its key and the time it
    reads; the statuses are returned in call order. *)
Fixpoint validateAll (db : Registry) (calls : list (string * Time))
  : list Z * Registry :=
  match calls with
  | [] => ([], db)
  | (key, now) :: rest =>
      let '(st, db1) := validateKey db now key in
      let '(sts, db2) := validateAll db1 rest in
      (st :: sts, db2)
  end.

(** The calls of one client: the same key, at the listed times. *)
Definition calls_on (k : string) (times : list Time) : list (string * Time) :=
  (fun now => (k, now)) <$> times.

(** The record [addKeyHandler] (and the first half of [initTestKeys])
    inserts; [t1] and [t2] are its two readings of the clock. *)
Definition issued (t1 t2 : Time) : KeyInfo :=
  mkKeyInfo true t1 (Add t2 (365 * 24 * Hour)) 0 1000.

(** The disabled, already expired record of [initTestKeys]. *)
Definition issued_invalid (t1 t2 : Time) : KeyInfo :=
  mkKeyInfo false t1 (Add t2 (-24 * Hour)) 0 100.

Definition addKey (db : Registry) (newKey : string) (t1 t2 : Time) : Registry :=
  <[newKey := issued t1 t2]> db.

Definition initTestKeys (db : Registry) (testKey invalidKey : string)
    (t1 t2 t3 t4 : Time) : Registry :=
  <[invalidKey := issued_invalid t3 t4]> (<[testKey := issued t1 t2]> db).

(** Registries the server can hold: built from the empty map by key
    insertions and validation calls. *)
Inductive Reachable : Registry -> Prop :=
| reach_empty : Reachable ∅
| reach_addKey db k t1 t2 :
    Reachable db -> Reachable (addKey db k t1 t2)
| reach_initTestKeys db k1 k2 t1 t2 t3 t4 :
    Reachable db -> Reachable (initTestKeys db k1 k2 t1 t2 t3 t4)
| reach_validateKey db now k :
    Reachable db -> Reachable (validateKey db now k).2.

(** *** Statistics *)

Record Stats := mkStats {
  total_keys : Z;
  valid_keys : Z;
  total_usage : Z;
  server_time : Time
}.

(** One iteration of the [range keyDatabase] loop.  The handler reads the
    clock anew wherever [time.Now()] stands: [clock n] is its [n]-th
    reading, and [&&] reads it only for an enabled record. *)
Definition statsStep (clock : nat -> Time) (acc : Z * Z * nat)
    (keyInfo : KeyInfo) : Z * Z * nat :=
  let '(validKeys, totalUsage, tick) := acc in
  let '(validKeys1, tick1) :=
    if Valid keyInfo then
      (if Before (clock tick) (ExpiresAt keyInfo)
       then GoInt.incr validKeys else validKeys, S tick)
    else (validKeys, tick) in
  (validKeys1, GoInt.add totalUsage (UsageCount keyInfo), tick1).

(** [statsHandler]: [order] is the order in which [range] happens to
    visit the entries of the map. *)
Definition statsHandler (db : Registry) (order : list (string * KeyInfo))
    (clock : nat -> Time) : Stats :=
  let totalKeys := Z.of_nat (size db) in
  let '(validKeys, totalUsage, tick) :=
    foldl (statsStep clock) (0, 0, 0%nat) order.*2 in
  mkStats totalKeys validKeys totalUsage (clock tick).

(** What the specification counts: enabled records not yet expired at
    [now], and the arithmetic sum of the usage counts. *)
Definition live_at (now : Time) (r : KeyInfo) : bool :=
  Valid r && (now <? ExpiresAt r).

Definition count_live (now : Time) (db : Registry) : Z :=
  Z.of_nat (length (filter (fun kv => Is_true (live_at now kv.2)) (map_to_list db))).

Definition sum_usage (db : Registry) : Z :=
  foldr Z.add 0 (UsageCount <$> (map_to_list db).*2).

(** The clock may tick during the call, as long as no record passes its
    expiry time meanwhile: every reading agrees with [now] on which
    records have expired. *)
Definition steady (clock : nat -> Time) (now : Time)
    (order : list (string * KeyInfo)) : Prop :=
  Forall (fun kv => forall n,
            Before (clock n) (ExpiresAt kv.2) = (now <? ExpiresAt kv.2)) order.

End Server.

(** ** Concurrent validation calls

    Each request runs [validateKey] in a goroutine of its own.  A thread
    is a program counter over the statements of [validateKey]; threads
    interleave statement by statement, and [dbMutex.Lock()] can only be
    taken while the mutex is free. *)

Module Concurrent.
Import Server.

Inductive pc :=
| AtLock              (* dbMutex.Lock() *)
| AtLookup            (* keyInfo, exists := keyDatabase[key] *)
| AtValid             (* if !keyInfo.Valid *)
| AtExpiry            (* if time.Now().After(keyInfo.ExpiresAt) *)
| AtUsage             (* if keyInfo.UsageCount >= keyInfo.MaxUsage *)
| AtIncr              (* keyInfo.UsageCount++ *)
| AtUnlock (ret : Z)  (* return ret, then the deferred dbMutex.Unlock() *)
| Done (ret : Z).

Record thread := mkThread {
  t_key : string;   (* the argument of the call *)
  t_now : Time;     (* what time.Now() reads when this thread asks *)
  t_pc : pc
}.

Record state := mkState {
  db : Registry;
  locked : bool;
  threads : list thread
}.

Definition set_pc (t : thread) (p : pc) : thread :=
  mkThread (t_key t) (t_now t) p.

(** One statement of thread [t] on the shared registry and mutex; [None]
    when the thread cannot move (blocked on the mutex, or finished). *)
Definition thread_step (d : Registry) (l : bool) (t : thread)
  : option (Registry * bool * pc) :=
  match t_pc t with
  | AtLock => if l then None else Some (d, true, AtLookup)
  | AtLookup =>
      match d !! t_key t with
      | None => Some (d, l, AtUnlock (-1))
      | Some _ => Some (d, l, AtValid)
      end
  | AtValid =>
      keyInfo ← d !! t_key t;
      Some (d, l, if negb (Valid keyInfo) then AtUnlock (-1) else AtExpiry)
  | AtExpiry =>
      keyInfo ← d !! t_key t;
      Some (d, l, if After (t_now t) (ExpiresAt keyInfo)
                  then AtUnlock (-1) else AtUsage)
  | AtUsage =>
      keyInfo ← d !! t_key t;
      Some (d, l, if UsageCount keyInfo >=? MaxUsage keyInfo
                  then AtUnlock (-1) else AtIncr)
  | AtIncr =>
      keyInfo ← d !! t_key t;
      Some (<[t_key t := bump keyInfo]> d, l, AtUnlock 1)
  | AtUnlock ret => Some (d, false, Done ret)
  | Done _ => None
  end.

(** The scheduler picks any thread that can move. *)
Inductive step : state -> state -> Prop :=
| step_thread s i t d l p :
    threads s !! i = Some t ->
    thread_step (db s) (locked s) t = Some (d, l, p) ->
    step s (mkState d l (<[i := set_pc t p]> (threads s))).

(** All calls about to start, the mutex free. *)
Definition spawn (calls : list (string * Time)) : list thread :=
  (fun c => mkThread c.1 c.2 AtLock) <$> calls.

Definition initial (d : Registry) (calls : list (string * Time)) : state :=
  mkState d false (spawn calls).

Definition finished (s : state) : Prop :=
  forall t, t ∈ threads s -> exists ret, t_pc t = Done ret.

(** A schedule run as a function: the thread at each listed index makes
    one move. *)
Fixpoint run (sched : list nat) (s : state) : option state :=
  match sched with
  | [] => Some s
  | i :: rest =>
      t ← threads s !! i;
      '(d, l, p) ← thread_step (db s) (locked s) t;
      run rest (mkState d l (<[i := set_pc t p]> (threads s)))
  end.

(** The same schedule run as if [Lock()] never blocked: what the calls
    would do without the mutex. *)
Fixpoint runUnlocked (sched : list nat) (s : state) : option state :=
  match sched with
  | [] => Some s
  | i :: rest =>
      t ← threads s !! i;
      '(d, l, p) ← thread_step (db s) false t;
      runUnlocked rest (mkState d l (<[i := set_pc t p]> (threads s)))
  end.

(** Holding the mutex: between [Lock()] and the deferred [Unlock()]. *)
Definition in_cs (p : pc) : bool :=
  match p with
  | AtLock | Done _ => false
  | _ => true
  end.

(** The call has chosen its status. *)
Definition decided (p : pc) : bool :=
  match p with
  | AtUnlock _ | Done _ => true
  | _ => false
  end.

(** The call has chosen ACCEPT. *)
Definition accepted (p : pc) : bool :=
  match p with
  | AtUnlock ret | Done ret => ret =? 1
  | _ => false
  end.

(** Every counter of the registry is a machine integer at or below its
    ceiling. *)
Definition bounded (d : Registry) : Prop :=
  forall k r, d !! k = Some r -> wf_KeyInfo r /\ UsageCount r <= MaxUsage r.

(** What the mutex buys: at most one thread is past [Lock()], none when
    the mutex is free, and the thread about to increment still sees the
    counter below the ceiling it tested. *)
Record mutex_inv (s : state) : Prop := mkMutexInv {
  inv_free : locked s = false ->
    forall j tj, threads s !! j = Some tj -> in_cs (t_pc tj) = false;
  inv_excl : forall i j ti tj,
    threads s !! i = Some ti -> threads s !! j = Some tj ->
    in_cs (t_pc ti) = true -> in_cs (t_pc tj) = true -> i = j;
  inv_bounded : bounded (db s);
  inv_incr : forall j tj,
    threads s !! j = Some tj -> t_pc tj = AtIncr ->
    exists r, db s !! t_key tj = Some r /\ UsageCount r < MaxUsage r
}.

(** All threads call with key [k] and read the clock before [exp]; the
    record of [k] is enabled, expires at [exp] and may be used once. *)
Record once_inv (k : string) (exp : Time) (s : state) : Prop := mkOnceInv {
  once_calls : forall j tj, threads s !! j = Some tj ->
    t_key tj = k /\ t_now tj < exp;
  once_record : exists r, db s !! k = Some r /\ Valid r = true /\
    ExpiresAt r = exp /\ MaxUsage r = 1 /\ 0 <= UsageCount r <= 1;
  once_unused : (exists r, db s !! k = Some r /\ UsageCount r = 0) ->
    forall j tj, threads s !! j = Some tj -> decided (t_pc tj) = false;
  once_codes : forall j tj ret, threads s !! j = Some tj ->
    (t_pc tj = AtUnlock ret \/ t_pc tj = Done ret) -> ret = 1 \/ ret = -1;
  once_unique : forall i j ti tj,
    threads s !! i = Some ti -> threads s !! j = Some tj ->
    accepted (t_pc ti) = true -> accepted (t_pc tj) = true -> i = j;
  once_used : (exists r, db s !! k = Some r /\ UsageCount r = 1) ->
    exists j tj, threads s !! j = Some tj /\ accepted (t_pc tj) = true
}.

(** The statements that read through the pointer [keyInfo]. *)
Definition needs_record (p : pc) : bool :=
  match p with
  | AtValid | AtExpiry | AtUsage | AtIncr => true
  | _ => false
  end.

(** What keeps the threads moving: a held mutex has a holder, and the
    pointer a thread reads through points to a record. *)
Record live_inv (s : state) : Prop := mkLiveInv {
  live_held : locked s = true ->
    exists j tj, threads s !! j = Some tj /\ in_cs (t_pc tj) = true;
  live_ptr : forall j tj, threads s !! j = Some tj ->
    needs_record (t_pc tj) = true -> is_Some (db s !! t_key tj)
}.

(** The statements a thread has still to run, at most. *)
Definition remaining (p : pc) : nat :=
  match p with
  | AtLock => 7
  | AtLookup => 6
  | AtValid => 5
  | AtExpiry => 4
  | AtUsage => 3
  | AtIncr => 2
  | AtUnlock _ => 1
  | Done _ => 0
  end.

Definition work (ths : list thread) : nat :=
  foldr (fun t n => (remaining (t_pc t) + n)%nat) 0%nat ths.

End Concurrent.

(** ** Path names: Go's [path/filepath] on a Unix system *)

Module Filepath.
Local Open Scope nat_scope.

Definition isSep (c : ascii) : bool := Ascii.eqb c "/".
Definition isDot (c : ascii) : bool := Ascii.eqb c ".".

(** The [..] case of [Clean] when it can backtrack: [out.w--], then
    [out.w--] again while [out.w > dotdot] and the byte at [out.w] is no
    separator.  The buffer is kept last byte first. *)
Fixpoint backtrack (rbuf : list ascii) (dotdot : nat) : list ascii :=
  match rbuf with
  | [] => []
  | c :: rest =>
      if (dotdot <? length rest) && negb (isSep c)
      then backtrack rest dotdot else rest
  end.

(** The bytes of a path element, up to the next separator, and what
    follows it. *)
Fixpoint element (p : list ascii) : list ascii * list ascii :=
  match p with
  | [] => ([], [])
  | c :: rest =>
      if isSep c then ([], p)
      else let '(e, q) := element rest in (c :: e, q)
  end.

(** The loop [for r < n] of [Clean] over the unread bytes [p]; every
    turn reads at least one byte, so [length p] turns suffice. *)
Fixpoint cleanLoop (fuel : nat) (rooted : bool) (p rbuf : list ascii)
    (dotdot : nat) : list ascii :=
  match fuel with
  | O => rbuf
  | S fuel' =>
      match p with
      | [] => rbuf
      | c :: p1 =>
          if isSep c then
            (* empty path element *)
            cleanLoop fuel' rooted p1 rbuf dotdot
          else if isDot c && match p1 with [] => true | c1 :: _ => isSep c1 end then
            (* . element *)
            cleanLoop fuel' rooted p1 rbuf dotdot
          else if isDot c &&
                  match p1 with
                  | c1 :: p2 =>
                      isDot c1 && match p2 with [] => true | c2 :: _ => isSep c2 end
                  | [] => false
                  end then
            (* .. element: remove to last separator *)
            let p2 := tail p1 in
            if dotdot <? length rbuf then
              cleanLoop fuel' rooted p2 (backtrack rbuf dotdot) dotdot
            else if negb rooted then
              let rbuf1 := if 0 <? length rbuf then "/"%char :: rbuf else rbuf in
              let rbuf2 := "."%char :: "."%char :: rbuf1 in
              cleanLoop fuel' rooted p2 rbuf2 (length rbuf2)
            else cleanLoop fuel' rooted p2 rbuf dotdot
          else
            (* real path element: add slash if needed, copy element *)
            let rbuf1 :=
              if (rooted && negb (length rbuf =? 1)) ||
                 (negb rooted && negb (length rbuf =? 0))
              then "/"%char :: rbuf else rbuf in
            let '(e, q) := element p in
            cleanLoop fuel' rooted q (rev e ++ rbuf1) dotdot
      end
  end.

(** [filepath.Clean]. *)
Definition Clean (path : string) : string :=
  match String.list_ascii_of_string path with
  | [] => "."
  | (c :: _) as p =>
      let rooted := isSep c in
      let out :=
        if rooted then cleanLoop (length p) true (tail p) ["/"%char] 1
        else cleanLoop (length p) false p [] 0 in
      match out with
      | [] => "."
      | _ => String.string_of_list_ascii (rev out)
      end
  end.

(** [strings.Join(elem, "/")]. *)
Fixpoint joinSep (elem : list string) : string :=
  match elem with
  | [] => ""
  | [e] => e
  | e :: rest => e +:+ "/" +:+ joinSep rest
  end.

(** [filepath.Join]: empty leading elements are skipped, the rest is
    joined with separators and cleaned. *)
Fixpoint Join (elem : list string) : string :=
  match elem with
  | [] => ""
  | e :: rest => if String.eqb e "" then Join rest else Clean (joinSep elem)
  end.

(** The path up to and including its last separator. *)
Fixpoint dropElement (rp : list ascii) : list ascii :=
  match rp with
  | [] => []
  | c :: rest => if isSep c then rp else dropElement rest
  end.

(** [filepath.Dir]. *)
Definition Dir (path : string) : string :=
  Clean (String.string_of_list_ascii
           (rev (dropElement (rev (String.list_ascii_of_string path))))).

(** The elements of a path, separators apart. *)
Fixpoint elementsOf (fuel : nat) (p : list ascii) : list string :=
  match fuel with
  | O => []
  | S fuel' =>
      match p with
      | [] => []
      | c :: rest =>
          if isSep c then elementsOf fuel' rest
          else let '(e, q) := element p in
               String.string_of_list_ascii e :: elementsOf fuel' q
      end
  end.

Definition elements (path : string) : list string :=
  let p := String.list_ascii_of_string path in elementsOf (length p) p.

(** [path], taken lexically, names [dir] itself or something below it:
    after cleaning, the elements of [dir] begin those of [path], both are
    rooted or both are not, and [path] does not climb out through a
    leading [..]. *)
Definition isPrefixOf (l1 l2 : list string) : bool :=
  bool_decide (l1 = take (length l1) l2).

Definition rootedPath (path : string) : bool :=
  match String.list_ascii_of_string path with
  | c :: _ => isSep c
  | [] => false
  end.

Definition within (dir path : string) : bool :=
  let d := Clean dir in
  let p := Clean path in
  let de := if String.eqb d "." then [] else elements d in
  let pe := if String.eqb p "." then [] else elements p in
  Bool.eqb (rootedPath d) (rootedPath p) &&
  isPrefixOf de pe &&
  negb (bool_decide (nth (length de) pe "" = "..")).

#[global] Arguments Clean : simpl never.
#[global] Arguments Join : simpl never.
#[global] Arguments Dir : simpl never.

End Filepath.

(** ** The client *)

Module Client.
Import Filepath.

(** A fallible call returns its value or the message of its [error]. *)
Inductive result (A : Type) :=
| Ok (a : A)
| Err (msg : string).
Arguments Ok {A} a.
Arguments Err {A} msg.

(** A Go [error] value: [None] is [nil], otherwise its message. *)
Abbreviation error := (option string).

Definition nl : string := String (ascii_of_nat 10) EmptyString.

(** What the process does to the outside world, in order. *)
Inductive Event :=
| EvPrint (text : string)
| EvMkdirAll (path : string) (perm : Z)
| EvCreate (path : string)
| EvOpenReader (source : string)
| EvOpenFile (path : string) (perm : Z)
| EvCopy (path : string) (data : string)
| EvPost (insecureSkipVerify : bool) (url contentType body : string)
| EvReadLine
| EvReadPassword
| EvCompress (source target password : string).

Definition Println (s : string) : Event := EvPrint (s +:+ nl).

Definition AuthURL : string := "https://xzip.com/authorize".
Definition KeyFile : string := ".xzip/key".

(** *** The server's certificates *)

Record Certificate := mkCertificate {
  DNSNames : list string;
  CommonName : string          (* cert.Subject.CommonName *)
}.

Record ConnectionState := mkConnectionState {
  PeerCertificates : list Certificate
}.

Record Response := mkResponse {
  TLS : option ConnectionState;   (* nil over plain HTTP *)
  Body : result string            (* what ioutil.ReadAll(resp.Body) gives *)
}.

(** The inner loop over [cert.DNSNames]. *)
Fixpoint scanDNSNames (names : list string) : bool :=
  match names with
  | [] => false
  | dnsName :: rest =>
      if String.eqb dnsName "xzip.com" then true else scanDNSNames rest
  end.

(** The outer loop over [resp.TLS.PeerCertificates]; [true] when it
    leaves through one of the two [return nil]. *)
Fixpoint scanCertificates (certs : list Certificate) : bool :=
  match certs with
  | [] => false
  | cert :: rest =>
      if scanDNSNames (DNSNames cert) then true
      else if String.eqb (CommonName cert) "xzip.com" then true
      else scanCertificates rest
  end.

Definition verifyServerCertificate (resp : Response) : error :=
  match TLS resp with
  | None => Some "连接不是HTTPS"
  | Some tls =>
      if scanCertificates (PeerCertificates tls) then None
      else Some "服务器证书域名验证失败，请确保连接到正确的xzip.com服务器"
  end.

(** *** Archive entries and extraction *)

Record File := mkFile {
  Name : string;
  IsDir : bool;                              (* file.FileInfo().IsDir() *)
  Mode : Z;                                  (* file.FileInfo().Mode() *)
  IsEncrypted : bool;
  Open : result string;                      (* file.Open(), read to the end *)
  OpenWithPassword : string -> result string
}.

(** The results of the calls the program makes on its surroundings. *)
Record Env := mkEnv {
  UserHomeDir : string;
  MkdirAllKeyDir : error;                    (* os.MkdirAll(keyDir, 0700) *)
  StatNotExist : bool;                       (* os.IsNotExist of os.Stat(keyPath) *)
  CreateKeyFile : error;                     (* os.Create(keyPath) *)
  ReadKeyFile : result string;               (* ioutil.ReadFile(keyPath) *)
  TrimSpace : string -> string;              (* strings.TrimSpace *)
  Marshal : string -> result string;         (* json.Marshal(AuthRequest{Key}) *)
  Post : string -> string -> string -> result Response;
  Unmarshal : string -> result Z;            (* Status after json.Unmarshal *)
  Args : list string;                        (* os.Args *)
  StdinLine : string;                        (* scanner.Scan(); scanner.Text() *)
  ReadPassword : result string;              (* term.ReadPassword *)
  OpenReader : string -> result (list File); (* zip.OpenReader *)
  OpenFile : string -> error;                (* os.OpenFile for writing *)
  Copy : string -> error;                    (* io.Copy into the file at a path *)
  compressToZip : string -> string -> string -> error
}.

(** The entry's reader in the password-capable client, or the error
    [extractFromZip] returns in its place. *)
Definition openEntry (password : string) (file : File) : result string :=
  if IsEncrypted file then
    if String.eqb password "" then
      Err ("文件 " +:+ Name file +:+ " 需要密码，但未提供密码")
    else
      match OpenWithPassword file password with
      | Err e => Err ("打开文件 " +:+ Name file +:+ " 失败: " +:+ e)
      | Ok data => Ok data
      end
  else
    match Open file with
    | Err e => Err ("打开文件 " +:+ Name file +:+ " 失败: " +:+ e)
    | Ok data => Ok data
    end.

(** The loop [for _, file := range reader.File] of [extractFromZip];
    [opener] is how an entry is opened.  The errors of [os.MkdirAll] are
    dropped, as the code drops them. *)
Fixpoint extractLoop (env : Env) (opener : File -> result string)
    (target : string) (files : list File) : list Event * error :=
  match files with
  | [] => ([], None)
  | file :: rest =>
      let path := Join [target; Name file] in
      if IsDir file then
        let '(evs, err) := extractLoop env opener target rest in
        (EvMkdirAll path (Mode file) :: evs, err)
      else
        match opener file with
        | Err e => ([], Some e)
        | Ok data =>
            let mk := EvMkdirAll (Dir path) 493 in
            let op := EvOpenFile path (Mode file) in
            match OpenFile env path with
            | Some e => ([mk; op], Some e)
            | None =>
                match Copy env path with
                | Some e => ([mk; op; EvCopy path data], Some e)
                | None =>
                    let '(evs, err) := extractLoop env opener target rest in
                    (mk :: op :: EvCopy path data :: evs, err)
                end
            end
        end
  end.

Definition extractWith (env : Env) (opener : File -> result string)
    (source target : string) : list Event * error :=
  let banner := EvPrint ("正在解压缩 " +:+ source +:+ " 到 " +:+ target +:+ nl) in
  match OpenReader env source with
  | Err e => ([banner; EvOpenReader source], Some e)
  | Ok files =>
      let '(evs, err) := extractLoop env opener target files in
      (banner :: EvOpenReader source :: EvMkdirAll target 493 :: evs, err)
  end.

(** [extractFromZip(source, target, password)] of the password-capable
    client. *)
Definition extractFromZip (env : Env) (source target password : string)
  : list Event * error :=
  extractWith env (openEntry password) source target.

(** [extractFromZip(source, target)] of the client without passwords:
    every entry is opened with [file.Open()] and its error returned as it
    is. *)
Definition extractFromZipPlain (env : Env) (source target : string)
  : list Event * error :=
  extractWith env Open source target.

(** *** The key file and the authorization gate *)

Definition getKeyFilePath (env : Env) : string :=
  Join [UserHomeDir env; KeyFile].

Definition readAuthKey (env : Env) : result string :=
  let keyPath := getKeyFilePath env in
  match ReadKeyFile env with
  | Err e => Err ("无法读取key文件 " +:+ keyPath +:+ ": " +:+ e)
  | Ok data => Ok (TrimSpace env data)
  end.

Definition validateAuth (env : Env) : list Event * error :=
  match readAuthKey env with
  | Err e => ([], Some ("授权验证失败: " +:+ e))
  | Ok key =>
      match Marshal env key with
      | Err e => ([], Some ("序列化请求失败: " +:+ e))
      | Ok jsonData =>
          let post := EvPost true AuthURL "application/json" jsonData in
          match Post env AuthURL "application/json" jsonData with
          | Err e => ([post], Some ("网络请求失败: " +:+ e))
          | Ok resp =>
              match verifyServerCertificate resp with
              | Some e => ([post], Some e)
              | None =>
                  match Body resp with
                  | Err e => ([post], Some ("读取响应失败: " +:+ e))
                  | Ok body =>
                      match Unmarshal env body with
                      | Err e => ([post], Some ("解析响应失败: " +:+ e))
                      | Ok status =>
                          if status =? -1 then
                            ([post], Some "授权失败: 请到 https://xzip.com 购买正版key来正常使用软件")
                          else if negb (status =? 1) then
                            ([post], Some ("授权状态异常: 状态码 " +:+ pretty status))
                          else ([post; Println "✅ 授权验证成功"], None)
                      end
                  end
              end
          end
      end
  end.

Definition initKeyFile (env : Env) : list Event * error :=
  let keyPath := getKeyFilePath env in
  let keyDir := Dir keyPath in
  match MkdirAllKeyDir env with
  | Some e => ([EvMkdirAll keyDir 448], Some ("创建目录失败: " +:+ e))
  | None =>
      if StatNotExist env then
        match CreateKeyFile env with
        | Some e =>
            ([EvMkdirAll keyDir 448; EvCreate keyPath],
             Some ("创建key文件失败: " +:+ e))
        | None =>
            ([EvMkdirAll keyDir 448; EvCreate keyPath;
              EvPrint ("已创建key文件: " +:+ keyPath +:+ nl);
              Println "请将您的授权key写入此文件"],
             Some "key文件为空，请先配置授权key")
        end
      else ([EvMkdirAll keyDir 448], None)
  end.

(** *** The command line *)

Definition getPassword (env : Env) (prompt : string)
  : list Event * result string :=
  match ReadPassword env with
  | Err e => ([EvPrint prompt; EvReadPassword], Err e)
  | Ok bytePassword =>
      ([EvPrint prompt; EvReadPassword; Println ""], Ok bytePassword)
  end.

(** [strings.ToLower(scanner.Text()) == "y"]: only [y] and [Y] lower to
    [y]. *)
Definition answersYes (line : string) : bool :=
  String.eqb line "y" || String.eqb line "Y".

(** The block both commands of [main] open with: the question, the
    answer read from standard input and, on [y], the password.  [None]
    when reading the password failed and [main] returns. *)
Definition askPassword (env : Env) (question : string)
  : list Event * option string :=
  let asked := [EvPrint question; EvReadLine] in
  if answersYes (StdinLine env) then
    let '(evs, r) := getPassword env "请输入密码: " in
    match r with
    | Err e => (asked ++ evs ++ [EvPrint ("❌ 密码输入失败: " +:+ e +:+ nl)], None)
    | Ok password => (asked ++ evs, Some password)
    end
  else (asked, Some "").

Definition usage : list Event :=
  [Println "使用方法:";
   Println "  压缩: xzip compress <源文件/文件夹> <目标.zip文件>";
   Println "  解压: xzip extract <源.zip文件> <目标文件夹>"].

(** [main] from [len(os.Args) < 2] on, once the gate has let it pass. *)
Definition runCommand (env : Env) : list Event :=
  match Args env with
  | _ :: command :: rest =>
      if String.eqb command "compress" then
        match rest with
        | source :: target :: _ =>
            let '(evs, pw) := askPassword env "是否需要密码保护? (y/n): " in
            match pw with
            | None => evs
            | Some password =>
                evs ++ EvCompress source target password ::
                match compressToZip env source target password with
                | Some e => [EvPrint ("❌ 压缩失败: " +:+ e +:+ nl)]
                | None => [EvPrint ("✅ 压缩完成: " +:+ target +:+ nl)]
                end
            end
        | _ => [Println "❌ 参数不足: xzip compress <源文件/文件夹> <目标.zip文件>"]
        end
      else if String.eqb command "extract" then
        match rest with
        | source :: target :: _ =>
            let '(evs, pw) := askPassword env "该压缩包是否有密码? (y/n): " in
            match pw with
            | None => evs
            | Some password =>
                let '(ops, err) := extractFromZip env source target password in
                evs ++ ops ++
                match err with
                | Some e => [EvPrint ("❌ 解压缩失败: " +:+ e +:+ nl)]
                | None => [EvPrint ("✅ 解压缩完成: " +:+ target +:+ nl)]
                end
            end
        | _ => [Println "❌ 参数不足: xzip extract <源.zip文件> <目标文件夹>"]
        end
      else
        [EvPrint ("❌ 未知命令: " +:+ command +:+ nl);
         Println "支持的命令: compress, extract"]
  | _ => usage
  end.

(** The same part of [main] in the client without passwords. *)
Definition runCommandPlain (env : Env) : list Event :=
  match Args env with
  | _ :: command :: rest =>
      if String.eqb command "compress" then
        match rest with
        | source :: target :: _ =>
            EvCompress source target "" ::
            match compressToZip env source target "" with
            | Some e => [EvPrint ("❌ 压缩失败: " +:+ e +:+ nl)]
            | None => [EvPrint ("✅ 压缩完成: " +:+ target +:+ nl)]
            end
        | _ => [Println "❌ 参数不足: xzip compress <源文件/文件夹> <目标.zip文件>"]
        end
      else if String.eqb command "extract" then
        match rest with
        | source :: target :: _ =>
            let '(ops, err) := extractFromZipPlain env source target in
            ops ++
            match err with
            | Some e => [EvPrint ("❌ 解压缩失败: " +:+ e +:+ nl)]
            | None => [EvPrint ("✅ 解压缩完成: " +:+ target +:+ nl)]
            end
        | _ => [Println "❌ 参数不足: xzip extract <源.zip文件> <目标文件夹>"]
        end
      else
        [EvPrint ("❌ 未知命令: " +:+ command +:+ nl);
         Println "支持的命令: compress, extract"]
  | _ => usage
  end.

(** [main], with the banner and the command part of either client. *)
Definition mainWith (banner : list Event) (run : Env -> list Event)
    (env : Env) : list Event :=
  let '(evs1, err1) := initKeyFile env in
  match err1 with
  | Some e => banner ++ evs1 ++ [EvPrint ("❌ 初始化失败: " +:+ e +:+ nl)]
  | None =>
      let '(evs2, err2) := validateAuth env in
      match err2 with
      | Some e => banner ++ evs1 ++ evs2 ++ [EvPrint ("❌ " +:+ e +:+ nl)]
      | None => banner ++ evs1 ++ evs2 ++ run env
      end
  end.

Definition main : Env -> list Event :=
  mainWith [Println "XZip 商业压缩软件 v1.0";
            Println "================================="]
           runCommand.

Definition mainPlain : Env -> list Event :=
  mainWith [Println "XZip 商业压缩软件 v1.0 (无密码版本)";
            Println "================================="]
           runCommandPlain.

(** The events that read or write an archive or a file of one. *)
Definition archiveWork (ev : Event) : bool :=
  match ev with
  | EvCompress _ _ _ | EvOpenReader _ | EvOpenFile _ _ | EvCopy _ _ => true
  | _ => false
  end.

Definition isPost (ev : Event) : bool :=
  match ev with
  | EvPost _ _ _ _ => true
  | _ => false
  end.

End Client.

(** ** Sample data *)

Module Samples.
Import Server.

(** An enabled key that expires at instant 100, used 0 times of 2. *)
Definition demo_record : KeyInfo := mkKeyInfo true 0 100 0 2.
Definition demo_db : Registry := {[ "k1" := demo_record ]}.

(** The same key with its quota used up. *)
Definition full_record : KeyInfo := mkKeyInfo true 0 100 2 2.
Definition full_db : Registry := {[ "k1" := full_record ]}.

(** A key that may be used once. *)
Definition single_record : KeyInfo := mkKeyInfo true 0 100 0 1.
Definition single_db : Registry := {[ "k1" := single_record ]}.

(** Three records: one live, one disabled, one past its expiry at
    instant 50. *)
Definition three_db : Registry :=
  {[ "k1" := mkKeyInfo true 0 100 3 10;
     "k2" := mkKeyInfo false 0 100 4 10;
     "k3" := mkKeyInfo true 0 20 5 10 ]}.

End Samples.

Module ClientSamples.
Import Filepath Client.

Definition dq : string := String (ascii_of_nat 34) EmptyString.

(** The JSON text of [AuthRequest{Key: key}] for a key of plain
    characters, and of an [AuthResponse]. *)
Definition jsonRequest (key : string) : string :=
  "{" +:+ dq +:+ "key" +:+ dq +:+ ":" +:+ dq +:+ key +:+ dq +:+ "}".

Definition jsonResponse (status : Z) : string :=
  "{" +:+ dq +:+ "status" +:+ dq +:+ ":" +:+ pretty status +:+ "}".

Definition parseResponse (body : string) : result Z :=
  if String.eqb body (jsonResponse 1) then Ok 1
  else if String.eqb body (jsonResponse (-1)) then Ok (-1)
  else Err "invalid character".

(** A certificate issued to anyone at all for the name [xzip.com], and
    one for another host. *)
Definition pinnedCert : Certificate := mkCertificate ["www.example.org"; "xzip.com"] "".
Definition otherCert : Certificate := mkCertificate ["example.org"] "example.org".

(** An endpoint that presents [cert] and answers every request with
    [status]. *)
Definition endpoint (cert : Certificate) (status : Z)
    (url contentType body : string) : result Response :=
  Ok (mkResponse (Some (mkConnectionState [cert])) (Ok (jsonResponse status))).

(** An archive with one directory and two files, the second named to
    climb out of the target directory. *)
Definition slipName : string := "../../etc/cron.d/job".

Definition slipArchive : list File :=
  [ mkFile "docs/" true 493 false (Ok "") (fun _ => Ok "");
    mkFile "docs/readme.txt" false 420 false (Ok "hello") (fun _ => Ok "hello");
    mkFile slipName false 420 false (Ok "payload") (fun _ => Ok "payload") ].

(** A machine on which every call succeeds: the key file exists and
    holds [keyData], the endpoint presents [cert] and answers [status],
    and the command line is [args]. *)
Definition sampleEnv (keyData : string) (cert : Certificate) (status : Z)
    (args : list string) : Env :=
  {| UserHomeDir := "/home/u";
     MkdirAllKeyDir := None;
     StatNotExist := false;
     CreateKeyFile := None;
     ReadKeyFile := Ok keyData;
     TrimSpace := fun data => data;
     Marshal := fun key => Ok (jsonRequest key);
     Post := endpoint cert status;
     Unmarshal := parseResponse;
     Args := args;
     StdinLine := "n";
     ReadPassword := Ok "";
     OpenReader := fun _ => Ok slipArchive;
     OpenFile := fun _ => None;
     Copy := fun _ => None;
     compressToZip := fun _ _ _ => None |}.

Definition extractArgs : list string := ["xzip"; "extract"; "a.zip"; "/tmp/out"].

(** The key file exists and is empty; the endpoint accepts. *)
Definition emptyKeyEnv : Env := sampleEnv "" pinnedCert 1 extractArgs.

(** The key file exists and is empty; the endpoint rejects, as the
    server does for a key it does not know. *)
Definition emptyKeyRejectedEnv : Env := sampleEnv "" pinnedCert (-1) extractArgs.

(** A good key, but the endpoint presents another host's certificate. *)
Definition wrongHostEnv : Env := sampleEnv "abc123" otherCert 1 extractArgs.

(** A good key and the pinned name. *)
Definition goodEnv : Env := sampleEnv "abc123" pinnedCert 1 extractArgs.

(** The key file does not exist yet. *)
Definition freshEnv : Env :=
  {| UserHomeDir := "/home/u";
     MkdirAllKeyDir := None;
     StatNotExist := true;
     CreateKeyFile := None;
     ReadKeyFile := Ok "";
     TrimSpace := fun data => data;
     Marshal := fun key => Ok (jsonRequest key);
     Post := endpoint pinnedCert 1;
     Unmarshal := parseResponse;
     Args := extractArgs;
     StdinLine := "n";
     ReadPassword := Ok "";
     OpenReader := fun _ => Ok slipArchive;
     OpenFile := fun _ => None;
     Copy := fun _ => None;
     compressToZip := fun _ _ _ => None |}.

End ClientSamples.

(** ** The server's HTTP handlers *)

Module Handlers.
Import Server.

(** [hex.EncodeToString]: two lower-case digits per byte. *)
Definition hexDigit (n : N) : ascii :=
  nth (N.to_nat n)
      ["0"; "1"; "2"; "3"; "4"; "5"; "6"; "7";
       "8"; "9"; "a"; "b"; "c"; "d"; "e"; "f"]%char "0"%char.

Fixpoint EncodeToString (bytes : list Byte.byte) : string :=
  match bytes with
  | [] => EmptyString
  | b :: rest =>
      String (hexDigit (Byte.to_N b / 16))
        (String (hexDigit (Byte.to_N b mod 16)) (EncodeToString rest))
  end.

(** The inverse, [hex.DecodeString] on lower-case digits: the place of
    a digit in [hextable].  The server never calls it, it serves to tell
    keys apart. *)
Definition hextable : string := "0123456789abcdef".

Fixpoint indexOf (c : ascii) (digits : list ascii) : option N :=
  match digits with
  | [] => None
  | d :: rest =>
      if Ascii.eqb c d then Some 0%N else N.succ <$> indexOf c rest
  end.

Definition unhex (c : ascii) : option N :=
  indexOf c (String.list_ascii_of_string hextable).

Definition isHexDigit (c : ascii) : bool :=
  match unhex c with Some _ => true | None => false end.

Definition unhexByte (c1 c2 : ascii) : option Byte.byte :=
  match unhex c1, unhex c2 with
  | Some hi, Some lo => Byte.of_N (16 * hi + lo)
  | _, _ => None
  end.

Fixpoint DecodeString (s : string) : option (list Byte.byte) :=
  match s with
  | EmptyString => Some []
  | String c1 (String c2 rest) =>
      match unhexByte c1 c2, DecodeString rest with
      | Some b, Some bytes => Some (b :: bytes)
      | _, _ => None
      end
  | String _ EmptyString => None
  end.

(** [generateRandomKey]; [bytes] are the 16 bytes [rand.Read] has put
    into the buffer. *)
Definition generateRandomKey (bytes : list Byte.byte) : string :=
  EncodeToString bytes.

(** What a handler is given of the request: the method, the value of
    the [X-Forwarded-For] header (empty when absent), the peer address
    and what [json.NewDecoder(r.Body).Decode(&authReq)] makes of the
    body, the [Key] field or the decoder's error. *)
Record Request := mkRequest {
  Method : string;
  RemoteAddr : string;
  XForwardedFor : string;
  Decoded : Client.result string
}.

(** What a handler writes as the body. *)
Inductive Payload :=
| NoBody
| ErrorText (text : string)                       (* http.Error *)
| AuthStatus (status : Z)                         (* AuthResponse *)
| HealthInfo (status : string) (timestamp : Z) (service : string)
| NewKey (key message : string) (expires : Time)
| StatsInfo (stats : Stats).

Record HttpResponse := mkHttpResponse {
  Code : Z;
  Header : gmap string string;
  Sent : Payload
}.

(** [http.Error]: the content type is replaced by plain text, the other
    headers the handler has set stay, the code and the text are
    written. *)
Definition httpError (h : gmap string string) (text : string) (code : Z)
  : HttpResponse :=
  mkHttpResponse code
    (<["X-Content-Type-Options" := "nosniff"]>
       (<["Content-Type" := "text/plain; charset=utf-8"]> h))
    (ErrorText text).

(** When a record passes the four tests of [validateKey]. *)
Definition passes (now : Time) (r : KeyInfo) : Prop :=
  Valid r = true /\ now <= ExpiresAt r /\ UsageCount r < MaxUsage r.

(** Every counter and ceiling of the registry is a machine integer. *)
Definition all_wf (db : Registry) : Prop :=
  forall k r, db !! k = Some r -> wf_KeyInfo r.

(** How many of the statuses are ACCEPT. *)
Definition accepts (statuses : list Z) : Z :=
  Z.of_nat (length (filter (fun st => st = ACCEPT) statuses)).

(** The line [validateKey] logs on the way out. *)
Definition validateKeyLog (db : Registry) (now : Time) (key : string) : string :=
  match db !! key with
  | None => "Key不存在: " +:+ key
  | Some keyInfo =>
      if negb (Valid keyInfo) then "Key已禁用: " +:+ key
      else if After now (ExpiresAt keyInfo) then "Key已过期: " +:+ key
      else if UsageCount keyInfo >=? MaxUsage keyInfo then
        "Key使用次数超限: " +:+ key +:+ " (" +:+ pretty (UsageCount keyInfo)
          +:+ "/" +:+ pretty (MaxUsage keyInfo) +:+ ")"
      else
        "Key验证成功: " +:+ key +:+ " (使用次数: "
          +:+ pretty (GoInt.incr (UsageCount keyInfo))
          +:+ "/" +:+ pretty (MaxUsage keyInfo) +:+ ")"
  end.

Definition corsHeaders : gmap string string :=
  <["Content-Type" := "application/json"]>
    (<["Access-Control-Allow-Headers" := "Content-Type"]>
       (<["Access-Control-Allow-Methods" := "POST, GET, OPTIONS"]>
          (<["Access-Control-Allow-Origin" := "*"]> ∅))).

(** [authorizeHandler]: the response, the registry afterwards and the
    lines logged.  [now] is the clock reading of the validation. *)
Definition authorizeHandler (db : Registry) (now : Time) (r : Request)
  : HttpResponse * Registry * list string :=
  if String.eqb (Method r) "OPTIONS" then
    (mkHttpResponse 200 corsHeaders NoBody, db, [])
  else if negb (String.eqb (Method r) "POST") then
    (httpError corsHeaders "仅支持POST方法" 405, db, [])
  else
    match Decoded r with
    | Client.Err e =>
        (mkHttpResponse 200 corsHeaders (AuthStatus (-1)), db,
         ["JSON解析失败: " +:+ e])
    | Client.Ok key =>
        let clientIP :=
          if negb (String.eqb (XForwardedFor r) "") then XForwardedFor r
          else RemoteAddr r in
        let '(status, db1) := validateKey db now key in
        (mkHttpResponse 200 corsHeaders (AuthStatus status), db1,
         ["收到授权请求 - IP: " +:+ clientIP +:+ ", Key: " +:+ key;
          validateKeyLog db now key;
          (if status =? 1 then "授权成功 - IP: " else "授权失败 - IP: ")
            +:+ clientIP +:+ ", Key: " +:+ key])
    end.

(** [healthHandler]; [time.Now().Unix()] is the instant in whole
    seconds. *)
Definition healthHandler (now : Time) : HttpResponse :=
  mkHttpResponse 200 (<["Content-Type" := "application/json"]> ∅)
    (HealthInfo "ok" (now / 10 ^ 9) "xzip-auth-server").

(** [addKeyHandler]: [bytes] are the random bytes of the new key and
    [t1], [t2], [t3] the three readings of the clock, for [CreatedAt],
    [ExpiresAt] and the [expires] of the answer. *)
Definition addKeyHandler (db : Registry) (bytes : list Byte.byte)
    (t1 t2 t3 : Time) (r : Request) : HttpResponse * Registry * list string :=
  if negb (String.eqb (Method r) "POST") then
    (httpError ∅ "仅支持POST方法" 405, db, [])
  else
    let newKey := generateRandomKey bytes in
    (mkHttpResponse 200 (<["Content-Type" := "application/json"]> ∅)
       (NewKey newKey "新Key已生成" (Add t3 (365 * 24 * Hour))),
     addKey db newKey t1 t2,
     ["管理员生成新Key: " +:+ newKey]).

(** [statsHandler] with the answer it writes. *)
Definition statsResponse (db : Registry) (order : list (string * KeyInfo))
    (clock : nat -> Time) : HttpResponse :=
  mkHttpResponse 200 (<["Content-Type" := "application/json"]> ∅)
    (StatsInfo (statsHandler db order clock)).

(** Registries built as the server builds them: empty at the start,
    the two test keys of [initTestKeys], keys added through
    [addKeyHandler], validation calls through [authorizeHandler]; every
    key comes from 16 random bytes. *)
Inductive Served : Registry -> Prop :=
| served_empty : Served ∅
| served_initTestKeys db b1 b2 t1 t2 t3 t4 :
    Served db -> length b1 = 16%nat -> length b2 = 16%nat ->
    Served (initTestKeys db (generateRandomKey b1) (generateRandomKey b2)
              t1 t2 t3 t4)
| served_addKey db bytes t1 t2 t3 r :
    Served db -> length bytes = 16%nat ->
    Served (addKeyHandler db bytes t1 t2 t3 r).1.2
| served_authorize db now r :
    Served db -> Served (authorizeHandler db now r).1.2.

End Handlers.

(** ** Serial histories of concurrent validation *)

Module Serial.
Import Server Concurrent.

(** The status a call has chosen (0 while it has not). *)
Definition returned (p : pc) : Z :=
  match p with
  | AtUnlock ret | Done ret => ret
  | _ => 0
  end.

(** The call and the status of the thread at index [i]. *)
Definition call_at (ths : list thread) (i : nat) : string * Time :=
  from_option (fun t => (t_key t, t_now t)) (EmptyString, 0) (ths !! i).

Definition ret_at (ths : list thread) (i : nat) : Z :=
  from_option (fun t => returned (t_pc t)) 0 (ths !! i).

(** What a thread between the lookup and its decision has already found
    out about the record of its key. *)
Definition midway (d : Registry) (t : thread) : Prop :=
  match t_pc t with
  | AtValid => exists r, d !! t_key t = Some r
  | AtExpiry => exists r, d !! t_key t = Some r /\ Valid r = true
  | AtUsage =>
      exists r, d !! t_key t = Some r /\ Valid r = true /\
                After (t_now t) (ExpiresAt r) = false
  | AtIncr =>
      exists r, d !! t_key t = Some r /\ Valid r = true /\
                After (t_now t) (ExpiresAt r) = false /\
                (UsageCount r >=? MaxUsage r) = false
  | _ => True
  end.

(** [hist] lists the calls that have chosen their status, in the order
    in which they chose: run one after the other in that order from the
    registry [d0], they return those statuses and leave the registry as
    it is now. *)
Record ser_inv (d0 : Registry) (s : state) (hist : list nat) : Prop := mkSerInv {
  ser_nodup : NoDup hist;
  ser_hist : forall i t, threads s !! i = Some t ->
    (decided (t_pc t) = true <-> i ∈ hist);
  ser_run : validateAll d0 (call_at (threads s) <$> hist) =
              (ret_at (threads s) <$> hist, db s);
  ser_mid : forall i t, threads s !! i = Some t -> midway (db s) t;
  ser_bound : forall i, i ∈ hist -> (i < length (threads s))%nat
}.

End Serial.

(** ** Cleaned paths, element by element *)

Module PathSpec.
Import Filepath.
Local Open Scope nat_scope.

(** The elements of a path as byte lists. *)
Fixpoint compsOf (fuel : nat) (p : list ascii) : list (list ascii) :=
  match fuel with
  | O => []
  | S fuel' =>
      match p with
      | [] => []
      | c :: rest =>
          if isSep c then compsOf fuel' rest
          else let '(e, q) := element p in e :: compsOf fuel' q
      end
  end.

Definition comps (p : list ascii) : list (list ascii) := compsOf (length p) p.

Definition dotElem : list ascii := ["."%char].
Definition dotdotElem : list ascii := ["."%char; "."%char].

(** [Clean] on elements: a stack, top first.  [.] is dropped, [..]
    removes the element on top, and where there is none it is dropped
    under the root and kept otherwise. *)
Definition normStep (rooted : bool) (rstack : list (list ascii))
    (e : list ascii) : list (list ascii) :=
  if decide (e = dotElem) then rstack
  else if decide (e = dotdotElem) then
    match rstack with
    | top :: below =>
        if decide (top = dotdotElem) then e :: rstack else below
    | [] => if rooted then [] else [e]
    end
  else e :: rstack.

Definition norm (rooted : bool) (es : list (list ascii)) : list (list ascii) :=
  foldl (normStep rooted) [] es.

Fixpoint joinBytes (es : list (list ascii)) : list ascii :=
  match es with
  | [] => []
  | [e] => e
  | e :: rest => e ++ "/"%char :: joinBytes rest
  end.

(** The bytes [Clean] has written for a stack. *)
Definition written (rooted : bool) (rstack : list (list ascii)) : list ascii :=
  (if rooted then ["/"%char] else []) ++ joinBytes (rev rstack).

Definition render (rooted : bool) (rstack : list (list ascii)) : string :=
  match written rooted rstack with
  | [] => "."
  | bs => String.string_of_list_ascii bs
  end.

Definition sepfree (e : list ascii) : Prop := Forall (fun c => isSep c = false) e.

(** A path element: not empty, no separator in it. *)
Definition elemOK (e : list ascii) : Prop := e <> [] /\ sepfree e.

Definition boundary (q : list ascii) : Prop :=
  q = [] \/ exists q', q = "/"%char :: q'.

Definition real (e : list ascii) : Prop :=
  elemOK e /\ e <> dotElem /\ e <> dotdotElem.

Definition good (r : bool) (st : list (list ascii)) : Prop :=
  exists reals k,
    st = reals ++ replicate k dotdotElem /\ Forall real reals /\
    (r = true -> k = 0).

End PathSpec.

(** ** Staying inside the target directory *)

Module Containment.
Import Filepath Client ClientSamples.

(** What an event of extraction touches is [target] or below it; a
    directory may also be the parent of [target]. *)

Definition inside (target : string) (ev : Event) : Prop :=
  match ev with
  | EvOpenFile path _ | EvCopy path _ => within target path = true
  | EvMkdirAll path _ =>
      within target path = true \/ path = Dir (Clean target)
  | _ => True
  end.

(** An archive whose names are rooted, doubled up and dotted, but never
    climb. *)
Definition tameArchive : list File :=
  [ mkFile "docs/" true 493 false (Ok "") (fun _ => Ok "");
    mkFile "/etc/passwd" false 420 false (Ok "root") (fun _ => Ok "root");
    mkFile "./a//b/./c.txt" false 420 false (Ok "c") (fun _ => Ok "c");
    mkFile "..." false 420 false (Ok "dots") (fun _ => Ok "dots") ].

Definition tameEnv : Env :=
  {| UserHomeDir := "/home/u";
     MkdirAllKeyDir := None;
     StatNotExist := false;
     CreateKeyFile := None;
     ReadKeyFile := Ok "abc123";
     TrimSpace := fun data => data;
     Marshal := fun key => Ok (jsonRequest key);
     Post := endpoint pinnedCert 1;
     Unmarshal := parseResponse;
     Args := extractArgs;
     StdinLine := "n";
     ReadPassword := Ok "";
     OpenReader := fun _ => Ok tameArchive;
     OpenFile := fun _ => None;
     Copy := fun _ => None;
     compressToZip := fun _ _ _ => None |}.

End Containment.

(** * Properties *)

(** ** Machine integers *)

Section GoIntFacts.
Import GoInt.

Lemma wrap_in_range z : in_range (wrap z).
Proof.
  unfold in_range, wrap, min_int, max_int.
  pose proof (Z.mod_pos_bound (z + 2 ^ 63) (2 ^ 64) eq_refl). lia.
Qed.

Lemma wrap_id z : in_range z -> wrap z = z.
Proof.
  unfold in_range, wrap, min_int, max_int. intros Hz.
  rewrite Z.mod_small; lia.
Qed.

Lemma wrap_add_l a b : wrap (wrap a + b) = wrap (a + b).
Proof.
  unfold wrap. f_equal.
  replace ((a + 2 ^ 63) mod 2 ^ 64 - 2 ^ 63 + b + 2 ^ 63)
    with ((a + 2 ^ 63) mod 2 ^ 64 + b) by lia.
  replace (a + b + 2 ^ 63) with (a + 2 ^ 63 + b) by lia.
  apply Zplus_mod_idemp_l.
Qed.

(** Below a value of the type the increment does not wrap. *)
Lemma incr_below a b : in_range a -> in_range b -> a < b -> incr a = a + 1.
Proof.
  unfold incr, add. intros Ha Hb Hlt. apply wrap_id.
  unfold in_range in *. lia.
Qed.

End GoIntFacts.

(** ** The validation engine *)

Section Validation.
Import Server.

Implicit Types (db : Registry) (r : KeyInfo) (key k : string) (now : Time).

(** The four ways out of [validateKey] through [return -1], and the one
    through [return 1]. *)
Lemma validateKey_unknown db now key :
  db !! key = None -> validateKey db now key = (REJECT, db).
Proof. intros H. unfold validateKey. by rewrite H. Qed.

Lemma validateKey_disabled db now key r :
  db !! key = Some r -> Valid r = false -> validateKey db now key = (REJECT, db).
Proof. intros H Hv. unfold validateKey. by rewrite H, Hv. Qed.

Lemma validateKey_expired db now key r :
  db !! key = Some r -> ExpiresAt r < now -> validateKey db now key = (REJECT, db).
Proof.
  intros H Hexp. unfold validateKey, After. rewrite H.
  destruct (Valid r); [|done]. simpl.
  by rewrite (proj2 (Z.ltb_lt _ _) Hexp).
Qed.

Lemma validateKey_exhausted db now key r :
  db !! key = Some r -> MaxUsage r <= UsageCount r ->
  validateKey db now key = (REJECT, db).
Proof.
  intros H Hmax. unfold validateKey. rewrite H.
  destruct (Valid r); [|done]. simpl.
  destruct (After now (ExpiresAt r)); [done|].
  by rewrite (proj2 (Z.geb_le _ _) Hmax).
Qed.

Lemma validateKey_ok db now key r :
  db !! key = Some r -> Valid r = true -> now <= ExpiresAt r ->
  UsageCount r < MaxUsage r ->
  validateKey db now key = (ACCEPT, <[key := bump r]> db).
Proof.
  intros H Hv Hexp Hlt. unfold validateKey, After. rewrite H, Hv. simpl.
  destruct (Z.ltb_spec (ExpiresAt r) now); [lia|].
  destruct (Z.geb_spec (UsageCount r) (MaxUsage r)); [lia|done].
Qed.

(** Whatever the status, it is one of the two wire codes. *)
Lemma validateKey_status db now key :
  (validateKey db now key).1 = ACCEPT \/ (validateKey db now key).1 = REJECT.
Proof.
  unfold validateKey.
  repeat (case_match; simpl); auto.
Qed.

(** What a call does to any one record: it is still there, with at most
    its counter moved, by one and only below the ceiling. *)
Lemma validateKey_record db now key k r :
  db !! k = Some r -> wf_KeyInfo r ->
  exists r', (validateKey db now key).2 !! k = Some r' /\
    wf_KeyInfo r' /\
    Valid r' = Valid r /\ ExpiresAt r' = ExpiresAt r /\
    CreatedAt r' = CreatedAt r /\ MaxUsage r' = MaxUsage r /\
    (UsageCount r' = UsageCount r \/
     UsageCount r' = UsageCount r + 1 /\ UsageCount r < MaxUsage r).
Proof.
  intros Hk [Hu Hm].
  assert (Hsame : exists r', db !! k = Some r' /\ wf_KeyInfo r' /\
    Valid r' = Valid r /\ ExpiresAt r' = ExpiresAt r /\
    CreatedAt r' = CreatedAt r /\ MaxUsage r' = MaxUsage r /\
    (UsageCount r' = UsageCount r \/
     UsageCount r' = UsageCount r + 1 /\ UsageCount r < MaxUsage r)).
  { exists r. split; [done|]. split; [by split|]. repeat (split; [done|]). by left. }
  unfold validateKey.
  destruct (db !! key) as [ki|] eqn:Hkey; [|done].
  destruct (negb (Valid ki)); [done|].
  destruct (After now (ExpiresAt ki)); [done|].
  destruct (Z.geb_spec (UsageCount ki) (MaxUsage ki)) as [|Hlt]; [done|].
  simpl. destruct (decide (key = k)) as [->|Hne].
  - rewrite lookup_insert_eq. rewrite Hk in Hkey. injection Hkey as <-.
    exists (bump r). split; [done|].
    assert (Hi : GoInt.incr (UsageCount r) = UsageCount r + 1)
      by (eapply incr_below; eauto).
    unfold wf_KeyInfo. simpl. rewrite Hi.
    unfold GoInt.in_range in *. repeat split; auto; lia.
  - rewrite lookup_insert_ne by done. done.
Qed.

(** A call never adds or removes a key. *)
Lemma validateKey_absent db now key k :
  db !! k = None -> (validateKey db now key).2 !! k = None.
Proof.
  intros Hk. unfold validateKey.
  destruct (db !! key) as [ki|] eqn:Hkey; [|done].
  repeat (case_match; simpl; try done).
  rewrite lookup_insert_ne; [done|]. intros ->. congruence.
Qed.

Lemma validateAll_app db calls1 calls2 :
  validateAll db (calls1 ++ calls2) =
    let '(sts1, db1) := validateAll db calls1 in
    let '(sts2, db2) := validateAll db1 calls2 in
    (sts1 ++ sts2, db2).
Proof.
  revert db. induction calls1 as [|[key now] calls1 IH]; intros db; simpl.
  - by destruct (validateAll db calls2).
  - destruct (validateKey db now key) as [st db1]. rewrite IH.
    destruct (validateAll db1 calls1) as [sts1 db2].
    by destruct (validateAll db2 calls2).
Qed.

(** Over a whole sequence of calls a record keeps its fields, and its
    counter only grows, staying at or below a ceiling it started at or
    below. *)
Lemma validateAll_record db calls k r :
  db !! k = Some r -> wf_KeyInfo r ->
  exists r', (validateAll db calls).2 !! k = Some r' /\
    wf_KeyInfo r' /\
    Valid r' = Valid r /\ ExpiresAt r' = ExpiresAt r /\
    MaxUsage r' = MaxUsage r /\
    UsageCount r <= UsageCount r' /\
    (UsageCount r <= MaxUsage r -> UsageCount r' <= MaxUsage r').
Proof.
  revert db r. induction calls as [|[key now] calls IH]; intros db r Hk Hwf.
  - exists r. simpl. split; [done|]. split; [done|]. repeat (split; [done|]). lia.
  - simpl. destruct (validateKey db now key) as [st db1] eqn:Hv.
    destruct (validateKey_record db now key k r Hk Hwf)
      as (r1 & Hk1 & Hwf1 & Ha & Hb & _ & Hc & Hd).
    rewrite Hv in Hk1. simpl in Hk1.
    destruct (IH db1 r1 Hk1 Hwf1) as (r2 & Hk2 & Hwf2 & Ha2 & Hb2 & Hc2 & Hd2 & He2).
    destruct (validateAll db1 calls) as [sts db2]. simpl in *.
    exists r2. split; [done|]. split; [done|].
    repeat (split; [congruence|]). split; [lia|]. intros Hle. rewrite Hc2, Hc in *. lia.
Qed.

End Validation.

Section ValidationClaims.
Import Server Samples.

Implicit Types (db : Registry) (r : KeyInfo) (key k : string) (now : Time).

Lemma bump_with_usage r :
  wf_KeyInfo r -> UsageCount r < MaxUsage r ->
  bump r = with_usage r (UsageCount r + 1).
Proof.
  intros [Hu Hm] Hlt. unfold bump, with_usage.
  by rewrite (incr_below _ _ Hu Hm Hlt).
Qed.

(** C1. For every registry and key whose record is enabled, not yet at
    its expiry time and below its usage ceiling, one validation call
    returns ACCEPT, which is status 1 on the wire, and leaves the registry
    as it was except that this record's usage count is higher by exactly
    one. *)
Theorem validateKey_accepts_and_counts db now key r :
  db !! key = Some r ->
  wf_KeyInfo r ->
  Valid r = true ->
  now < ExpiresAt r ->
  UsageCount r < MaxUsage r ->
  ACCEPT = 1 /\
  validateKey db now key =
    (ACCEPT, <[key := with_usage r (UsageCount r + 1)]> db) /\
  (exists r', (validateKey db now key).2 !! key = Some r' /\
              UsageCount r' = UsageCount r + 1).
Proof.
  intros Hk Hwf Hv Hexp Hlt.
  assert (Hcall : validateKey db now key =
            (ACCEPT, <[key := with_usage r (UsageCount r + 1)]> db)).
  { rewrite (validateKey_ok db now key r) by (auto; lia).
    by rewrite bump_with_usage. }
  split; [done|]. split; [done|].
  rewrite Hcall. simpl. eexists. rewrite lookup_insert_eq. done.
Qed.

Lemma validateKey_accepts_and_counts_witness :
  ACCEPT = 1 /\
  validateKey demo_db 5 "k1" =
    (ACCEPT, <[ "k1" := with_usage demo_record 1 ]> demo_db) /\
  (exists r', (validateKey demo_db 5 "k1").2 !! "k1" = Some r' /\
              UsageCount r' = 1).
Proof.
  apply (validateKey_accepts_and_counts demo_db 5 "k1" demo_record).
  - reflexivity.
  - unfold wf_KeyInfo, GoInt.in_range, GoInt.min_int, GoInt.max_int. simpl. lia.
  - reflexivity.
  - simpl. lia.
  - simpl. lia.
Defined.

(** C2. Over every sequence of validation calls, and at every point of
    it, the usage count of a record does not go down, its ceiling stays
    what it was, and a count that started at or below the ceiling stays at
    or below it; a call on a record whose count equals its ceiling returns
    REJECT and changes nothing. *)
Theorem usage_monotone_and_bounded db calls more k r :
  db !! k = Some r ->
  wf_KeyInfo r ->
  (exists r1 r2,
     (validateAll db calls).2 !! k = Some r1 /\
     (validateAll db (calls ++ more)).2 !! k = Some r2 /\
     UsageCount r <= UsageCount r1 <= UsageCount r2 /\
     MaxUsage r1 = MaxUsage r /\ MaxUsage r2 = MaxUsage r /\
     (UsageCount r <= MaxUsage r ->
      UsageCount r1 <= MaxUsage r1 /\ UsageCount r2 <= MaxUsage r2)) /\
  (UsageCount r = MaxUsage r ->
   forall now, validateKey db now k = (REJECT, db)).
Proof.
  intros Hk Hwf. split.
  - destruct (validateAll_record db calls k r Hk Hwf)
      as (r1 & Hk1 & Hwf1 & _ & _ & Hm1 & Hu1 & Hb1).
    pose proof (validateAll_app db calls more) as Happ.
    destruct (validateAll db calls) as [sts1 db1]. simpl in Hk1.
    destruct (validateAll_record db1 more k r1 Hk1 Hwf1)
      as (r2 & Hk2 & _ & _ & _ & Hm2 & Hu2 & Hb2).
    destruct (validateAll db1 more) as [sts2 db2]. simpl in Hk2.
    rewrite Happ. simpl. exists r1, r2.
    split; [done|]. split; [done|]. split; [lia|].
    split; [done|]. split; [congruence|].
    intros Hle. specialize (Hb1 Hle). specialize (Hb2 Hb1). done.
  - intros Heq now. apply validateKey_exhausted with r; [done|lia].
Qed.

Lemma usage_monotone_and_bounded_witness :
  (exists r1 r2,
     (validateAll full_db [("k1", 5); ("k2", 6)]).2 !! "k1" = Some r1 /\
     (validateAll full_db ([("k1", 5); ("k2", 6)] ++ [("k1", 7)])).2 !! "k1"
       = Some r2 /\
     2 <= UsageCount r1 <= UsageCount r2 /\
     MaxUsage r1 = 2 /\ MaxUsage r2 = 2 /\
     (2 <= 2 -> UsageCount r1 <= MaxUsage r1 /\ UsageCount r2 <= MaxUsage r2)) /\
  (2 = 2 -> forall now, validateKey full_db now "k1" = (REJECT, full_db)).
Proof.
  apply (usage_monotone_and_bounded full_db [("k1", 5); ("k2", 6)]
           [("k1", 7)] "k1" full_record).
  - reflexivity.
  - unfold wf_KeyInfo, GoInt.in_range, GoInt.min_int, GoInt.max_int. simpl. lia.
Defined.

(** Every registry the server can build keeps each counter between zero
    and its ceiling. *)
Lemma Reachable_bounded db :
  Reachable db ->
  forall k r, db !! k = Some r ->
    wf_KeyInfo r /\ 0 <= UsageCount r <= MaxUsage r.
Proof.
  assert (Hi : forall t1 t2, wf_KeyInfo (issued t1 t2) /\
                 0 <= UsageCount (issued t1 t2) <= MaxUsage (issued t1 t2)).
  { intros. unfold wf_KeyInfo, GoInt.in_range, GoInt.min_int, GoInt.max_int.
    simpl. lia. }
  assert (Hj : forall t1 t2, wf_KeyInfo (issued_invalid t1 t2) /\
                 0 <= UsageCount (issued_invalid t1 t2)
                   <= MaxUsage (issued_invalid t1 t2)).
  { intros. unfold wf_KeyInfo, GoInt.in_range, GoInt.min_int, GoInt.max_int.
    simpl. lia. }
  induction 1 as [|db k0 t1 t2 _ IH|db k1 k2 t1 t2 t3 t4 _ IH|db now k0 _ IH];
    intros k r Hk.
  - by rewrite lookup_empty in Hk.
  - unfold addKey in Hk. destruct (decide (k0 = k)) as [->|Hne].
    + rewrite lookup_insert_eq in Hk. injection Hk as <-. apply Hi.
    + rewrite lookup_insert_ne in Hk by done. eauto.
  - unfold initTestKeys in Hk. destruct (decide (k2 = k)) as [->|Hne2].
    + rewrite lookup_insert_eq in Hk. injection Hk as <-. apply Hj.
    + rewrite lookup_insert_ne in Hk by done.
      destruct (decide (k1 = k)) as [->|Hne1].
      * rewrite lookup_insert_eq in Hk. injection Hk as <-. apply Hi.
      * rewrite lookup_insert_ne in Hk by done. eauto.
  - destruct (db !! k) as [r0|] eqn:Hk0.
    + destruct (IH k r0 Hk0) as [Hwf Hb].
      destruct (validateKey_record db now k0 k r0 Hk0 Hwf)
        as (r' & Hk' & Hwf' & _ & _ & _ & Hm & Hu).
      rewrite Hk in Hk'. injection Hk' as <-. split; [done|]. lia.
    + rewrite (validateKey_absent db now k0 k Hk0) in Hk. done.
Qed.

End ValidationClaims.

Section BoundaryLaw.
Import Server Samples.

Implicit Types (db : Registry) (r : KeyInfo) (k : string) (now : Time).

(** While the quota lasts, every call on an enabled, unexpired key is
    accepted and counted. *)
Lemma validateAll_accepts times : forall db k r,
  db !! k = Some r -> wf_KeyInfo r -> Valid r = true ->
  Forall (fun now => now < ExpiresAt r) times ->
  UsageCount r + Z.of_nat (length times) <= MaxUsage r ->
  validateAll db (calls_on k times) =
    (replicate (length times) ACCEPT,
     <[k := with_usage r (UsageCount r + Z.of_nat (length times))]> db).
Proof.
  induction times as [|now times IH]; intros db k r Hk Hwf Hv Hexp Hle.
  - simpl. f_equal. rewrite Z.add_0_r.
    symmetry. apply insert_id. rewrite Hk. by destruct r.
  - apply Forall_cons in Hexp as [Hnow Hexp].
    simpl length in *. simpl.
    rewrite (validateKey_ok db now k r) by (auto; lia).
    rewrite bump_with_usage by (auto; lia).
    rewrite (IH (<[k := with_usage r (UsageCount r + 1)]> db) k
                (with_usage r (UsageCount r + 1))).
    + simpl. rewrite insert_insert_eq. do 3 f_equal. lia.
    + apply lookup_insert_eq.
    + destruct Hwf as [Hu Hm]. split; [|done]. simpl.
      unfold GoInt.in_range in *. lia.
    + done.
    + done.
    + simpl. lia.
Qed.

(** C4. A record just issued (enabled, never used) and not reaching its
    expiry time during the calls: the first [MaxUsage] consecutive
    validation calls on its key all return ACCEPT, and the call after them
    returns REJECT. *)
Theorem at_most_N_uses db k r times :
  db !! k = Some r ->
  GoInt.in_range (MaxUsage r) ->
  Valid r = true ->
  UsageCount r = 0 ->
  Forall (fun now => now < ExpiresAt r) times ->
  length times = S (Z.to_nat (MaxUsage r)) ->
  (validateAll db (calls_on k times)).1 =
    replicate (Z.to_nat (MaxUsage r)) ACCEPT ++ [REJECT].
Proof.
  intros Hk Hm Hv Hu Hexp Hlen.
  destruct (exists_last (l := times)) as (ts & t & ->).
  { intros ->. discriminate. }
  rewrite length_app in Hlen. simpl in Hlen.
  assert (Hts : length ts = Z.to_nat (MaxUsage r)) by lia.
  apply Forall_app in Hexp as [Hexp _].
  unfold calls_on. rewrite fmap_app, validateAll_app.
  destruct (Z_le_gt_dec 0 (MaxUsage r)) as [Hpos|Hneg].
  - fold (calls_on k ts).
    rewrite (validateAll_accepts ts db k r); try done.
    + simpl. rewrite Hts.
      rewrite (validateKey_exhausted _ t k
                 (with_usage r (UsageCount r + Z.of_nat (Z.to_nat (MaxUsage r))))).
      * done.
      * apply lookup_insert_eq.
      * simpl. lia.
    + split; [|done]. rewrite Hu. unfold GoInt.in_range, GoInt.min_int, GoInt.max_int. lia.
    + lia.
  - assert (ts = []) as -> by (apply nil_length_inv; lia).
    simpl. rewrite (validateKey_exhausted db t k r); [|done|lia].
    replace (Z.to_nat (MaxUsage r)) with 0%nat by lia. done.
Qed.

Lemma at_most_N_uses_witness :
  (validateAll demo_db (calls_on "k1" [10; 20; 30])).1 =
    replicate (Z.to_nat 2) ACCEPT ++ [REJECT].
Proof.
  apply (at_most_N_uses demo_db "k1" demo_record [10; 20; 30]).
  - reflexivity.
  - unfold GoInt.in_range, GoInt.min_int, GoInt.max_int. simpl. lia.
  - reflexivity.
  - reflexivity.
  - repeat constructor; simpl; lia.
  - reflexivity.
Defined.

End BoundaryLaw.

(** ** Statistics *)

Section Statistics.
Import Server Samples.

Implicit Types (db : Registry) (r : KeyInfo) (now : Time).

(** Under such a clock the loop adds to its two counters the number of
    live records and the sum of the usage counts, each wrapped to the
    machine type. *)
Lemma statsLoop_steady_clock clock now (order : list (string * KeyInfo)) :
  steady clock now order ->
  forall v u tick,
  exists tick',
    foldl (statsStep clock) (GoInt.wrap v, GoInt.wrap u, tick) order.*2 =
      (GoInt.wrap (v + Z.of_nat (length
          (filter (fun kv => Is_true (live_at now kv.2)) order))),
       GoInt.wrap (u + foldr Z.add 0 (UsageCount <$> order.*2)),
       tick').
Proof.
  induction order as [|[k r] order IH]; intros Hsteady v u tick.
  - exists tick. simpl. by rewrite !Z.add_0_r.
  - apply Forall_cons in Hsteady as [Hr Hsteady]. simpl in Hr.
    specialize (IH Hsteady).
    simpl. unfold GoInt.add. rewrite wrap_add_l.
    destruct (live_at now r) eqn:Hlive.
    + rewrite filter_cons_True by (simpl; by rewrite Hlive).
      unfold live_at in Hlive. apply andb_true_iff in Hlive as [Hv Hb].
      rewrite Hv, Hr, Hb.
      unfold GoInt.incr, GoInt.add. rewrite wrap_add_l.
      destruct (IH (v + 1) (u + UsageCount r) (S tick)) as [tick' IH'].
      exists tick'. etransitivity; [exact IH'|].
      simpl length. f_equal. f_equal; f_equal; unfold fmap; lia.
    + rewrite filter_cons_False by (simpl; rewrite Hlive; simpl; tauto).
      unfold live_at in Hlive. destruct (Valid r); simpl in Hlive.
      * rewrite Hr, Hlive.
        destruct (IH v (u + UsageCount r) (S tick)) as [tick' IH'].
        exists tick'. etransitivity; [exact IH'|].
        simpl length. f_equal. f_equal; f_equal; unfold fmap; lia.
      * destruct (IH v (u + UsageCount r) tick) as [tick' IH'].
        exists tick'. etransitivity; [exact IH'|].
        simpl length. f_equal. f_equal; f_equal; unfold fmap; lia.
Qed.

(** The sum of the usage counts does not depend on the order of the
    visit. *)
Lemma sum_usage_order (l1 l2 : list (string * KeyInfo)) :
  l1 ≡ₚ l2 ->
  foldr Z.add 0 (UsageCount <$> l1.*2) = foldr Z.add 0 (UsageCount <$> l2.*2).
Proof.
  induction 1 as [|x l l' _ IH|x y l|l l' l'' _ IH1 _ IH2];
    unfold fmap in *; simpl in *; lia.
Qed.

Lemma count_live_order now (l1 l2 : list (string * KeyInfo)) :
  l1 ≡ₚ l2 ->
  length (filter (fun kv => Is_true (live_at now kv.2)) l1) =
  length (filter (fun kv => Is_true (live_at now kv.2)) l2).
Proof. intros H. by rewrite H. Qed.

Lemma count_live_le_size now db :
  0 <= count_live now db <= Z.of_nat (size db).
Proof.
  unfold count_live. rewrite <- length_map_to_list.
  pose proof (length_filter (fun kv : string * KeyInfo => Is_true (live_at now kv.2))
                (map_to_list db)).
  lia.
Qed.

(** C9. For a registry of N records, K of them enabled and not yet
    expired at the time [now] of the call, the statistics report
    [total_keys = N], [valid_keys = K] and as [total_usage] the sum of all
    usage counts.  The loop may visit the records in any order and the
    clock may tick while it runs, provided no record expires during the
    call; the two totals are values of the machine type. *)
Theorem statsHandler_aggregates db order clock now :
  order ≡ₚ map_to_list db ->
  steady clock now order ->
  Z.of_nat (size db) <= GoInt.max_int ->
  GoInt.in_range (sum_usage db) ->
  total_keys (statsHandler db order clock) = Z.of_nat (size db) /\
  valid_keys (statsHandler db order clock) = count_live now db /\
  total_usage (statsHandler db order clock) = sum_usage db.
Proof.
  intros Hperm Hclock Hsize Hsum. unfold statsHandler.
  destruct (statsLoop_steady_clock clock now order Hclock 0 0 0%nat)
    as [tick' Hloop].
  change (GoInt.wrap 0) with 0 in Hloop. rewrite Hloop. simpl.
  rewrite (count_live_order now _ _ Hperm), (sum_usage_order _ _ Hperm).
  fold (count_live now db). fold (sum_usage db).
  split; [done|]. split.
  - apply wrap_id. pose proof (count_live_le_size now db).
    unfold GoInt.in_range, GoInt.min_int, GoInt.max_int in *. lia.
  - by apply wrap_id.
Qed.

Lemma statsHandler_aggregates_witness :
  total_keys (statsHandler three_db (map_to_list three_db)
                (fun n => 50 + Z.of_nat (Nat.min n 10))) = 3 /\
  valid_keys (statsHandler three_db (map_to_list three_db)
                (fun n => 50 + Z.of_nat (Nat.min n 10))) = 1 /\
  total_usage (statsHandler three_db (map_to_list three_db)
                (fun n => 50 + Z.of_nat (Nat.min n 10))) = 12.
Proof.
  apply (statsHandler_aggregates three_db (map_to_list three_db)
           (fun n => 50 + Z.of_nat (Nat.min n 10)) 50).
  - reflexivity.
  - unfold steady.
    assert (Hall : Forall (fun kv : string * KeyInfo =>
                     ExpiresAt kv.2 = 100 \/ ExpiresAt kv.2 = 20)
                   (map_to_list three_db)).
    { vm_compute.
      repeat (apply Forall_cons; split; [simpl; auto|]). constructor. }
    eapply Forall_impl; [exact Hall|]. intros kv Hexp n. unfold Before.
    destruct Hexp as [-> | ->].
    + destruct (Z.ltb_spec (50 + Z.of_nat (Nat.min n 10)) 100); [reflexivity|lia].
    + destruct (Z.ltb_spec (50 + Z.of_nat (Nat.min n 10)) 20); [lia|reflexivity].
  - vm_compute. discriminate.
  - unfold GoInt.in_range. vm_compute. split; discriminate.
Defined.

(** With a clock that stands still the condition holds, and the reported
    time is that instant. *)
Lemma statsHandler_still_clock db order now :
  steady (fun _ => now) now order /\
  server_time (statsHandler db order (fun _ => now)) = now.
Proof.
  split.
  - unfold steady. apply Forall_forall. intros kv _ n. reflexivity.
  - unfold statsHandler.
    by destruct (foldl (statsStep (fun _ => now)) (0, 0, 0%nat) order.*2)
      as [[v u] tick].
Qed.

End Statistics.

(** ** Concurrent validation *)

Section Concurrency.
Import Server Concurrent Samples.

Implicit Types (s : state) (t : thread) (p : pc) (d : Registry).

Lemma lookup_set_pc (ths : list thread) i t p j tj :
  ths !! i = Some t ->
  <[i := set_pc t p]> ths !! j = Some tj ->
  (j = i /\ tj = set_pc t p) \/ (j <> i /\ ths !! j = Some tj).
Proof.
  intros Hi Hj. destruct (decide (j = i)) as [->|Hne].
  - left. split; [done|].
    rewrite list_lookup_insert_eq in Hj by (by eapply lookup_lt_Some).
    congruence.
  - right. split; [done|]. by rewrite list_lookup_insert_ne in Hj.
Qed.

Lemma lookup_set_pc_same (ths : list thread) i t p :
  ths !! i = Some t -> <[i := set_pc t p]> ths !! i = Some (set_pc t p).
Proof. intros Hi. apply list_lookup_insert_eq. by eapply lookup_lt_Some. Qed.

(** A thread past [Lock()] holds the mutex, and holds it alone. *)
Lemma cs_holds_lock s i t :
  mutex_inv s -> threads s !! i = Some t -> in_cs (t_pc t) = true ->
  locked s = true.
Proof.
  intros Hinv Hi Hcs. destruct (locked s) eqn:Hl; [done|].
  rewrite (inv_free s Hinv Hl i t Hi) in Hcs. done.
Qed.

Lemma cs_alone s i t j tj :
  mutex_inv s -> threads s !! i = Some t -> in_cs (t_pc t) = true ->
  threads s !! j = Some tj -> j <> i -> in_cs (t_pc tj) = false.
Proof.
  intros Hinv Hi Hcs Hj Hne. destruct (in_cs (t_pc tj)) eqn:Hcsj; [|done].
  destruct Hne. by eapply (inv_excl s Hinv j i).
Qed.

(** One move of thread [i] keeps the mutex invariant when the mutex is
    then held exactly if the thread is inside, the registry stays bounded
    and a thread arriving at the increment has the counter below the
    ceiling. *)
Lemma mutex_inv_move s i t d l p :
  mutex_inv s -> threads s !! i = Some t ->
  (in_cs (t_pc t) = false -> locked s = false) ->
  l = in_cs p ->
  bounded d ->
  (p = AtIncr -> exists r, d !! t_key t = Some r /\ UsageCount r < MaxUsage r) ->
  mutex_inv (mkState d l (<[i := set_pc t p]> (threads s))).
Proof.
  intros Hinv Hi Hout -> Hbnd Hp.
  assert (Hothers : forall j tj, threads s !! j = Some tj -> j <> i ->
                                 in_cs (t_pc tj) = false).
  { intros j tj Hj Hne. destruct (in_cs (t_pc t)) eqn:Hcs.
    - exact (cs_alone s i t j tj Hinv Hi Hcs Hj Hne).
    - exact (inv_free s Hinv (Hout eq_refl) j tj Hj). }
  constructor; simpl.
  - intros Hl j tj Hj.
    destruct (lookup_set_pc _ _ _ _ _ _ Hi Hj) as [[-> ->]|[Hne Hj']]; eauto.
  - intros a b ta tb Ha Hb Hca Hcb.
    destruct (lookup_set_pc _ _ _ _ _ _ Hi Ha) as [[-> ->]|[Hna Ha']];
    destruct (lookup_set_pc _ _ _ _ _ _ Hi Hb) as [[-> ->]|[Hnb Hb']];
      try done.
    + rewrite (Hothers b tb Hb' Hnb) in Hcb. done.
    + rewrite (Hothers a ta Ha' Hna) in Hca. done.
    + rewrite (Hothers a ta Ha' Hna) in Hca. done.
  - done.
  - intros j tj Hj Hpc.
    destruct (lookup_set_pc _ _ _ _ _ _ Hi Hj) as [[-> ->]|[Hne Hj']].
    + simpl in *. auto.
    + pose proof (Hothers j tj Hj' Hne) as Hc. rewrite Hpc in Hc. done.
Qed.

Lemma bounded_bump d k r :
  bounded d -> d !! k = Some r -> UsageCount r < MaxUsage r ->
  bounded (<[k := bump r]> d).
Proof.
  intros Hbnd Hk Hlt k' r' Hk'.
  destruct (decide (k = k')) as [->|Hne].
  - rewrite lookup_insert_eq in Hk'. injection Hk' as <-.
    destruct (Hbnd k' r Hk) as [[Hu Hm] _].
    unfold wf_KeyInfo. simpl. rewrite (incr_below _ _ Hu Hm Hlt).
    unfold GoInt.in_range in *. repeat split; try tauto; lia.
  - rewrite lookup_insert_ne in Hk' by done. eauto.
Qed.

Lemma mutex_inv_step s s' : mutex_inv s -> step s s' -> mutex_inv s'.
Proof.
  intros Hinv Hstep. destruct Hstep as [s i t d l p Hi Hts].
  pose proof (inv_bounded s Hinv) as Hbnd.
  unfold thread_step in Hts.
  destruct (t_pc t) eqn:Hpc.
  - (* Lock *)
    destruct (locked s) eqn:Hl; [done|]. injection Hts as <- <- <-.
    apply mutex_inv_move; auto. done.
  - (* the lookup *)
    assert (Hl : locked s = true) by (eapply cs_holds_lock; eauto; by rewrite Hpc).
    destruct (db s !! t_key t); injection Hts as <- <- <-;
      apply mutex_inv_move; auto; rewrite ?Hpc; done.
  - (* the enablement test *)
    assert (Hl : locked s = true) by (eapply cs_holds_lock; eauto; by rewrite Hpc).
    destruct (db s !! t_key t) as [r|]; [|done]. simpl in Hts.
    injection Hts as <- <- <-.
    apply mutex_inv_move; auto; rewrite ?Hpc; try done;
      destruct (negb (Valid r)); done.
  - (* the expiry test *)
    assert (Hl : locked s = true) by (eapply cs_holds_lock; eauto; by rewrite Hpc).
    destruct (db s !! t_key t) as [r|]; [|done]. simpl in Hts.
    injection Hts as <- <- <-.
    apply mutex_inv_move; auto; rewrite ?Hpc; try done;
      destruct (After (t_now t) (ExpiresAt r)); done.
  - (* the quota test *)
    assert (Hl : locked s = true) by (eapply cs_holds_lock; eauto; by rewrite Hpc).
    destruct (db s !! t_key t) as [r|] eqn:Hr; [|done]. simpl in Hts.
    injection Hts as <- <- <-.
    apply mutex_inv_move; auto; rewrite ?Hpc; try done.
    + destruct (UsageCount r >=? MaxUsage r); done.
    + destruct (Z.geb_spec (UsageCount r) (MaxUsage r)); [done|].
      intros _. exists r. split; [done|lia].
  - (* the increment *)
    assert (Hl : locked s = true) by (eapply cs_holds_lock; eauto; by rewrite Hpc).
    destruct (inv_incr s Hinv i t Hi Hpc) as (r & Hr & Hlt).
    rewrite Hr in Hts. simpl in Hts. injection Hts as <- <- <-.
    apply mutex_inv_move; auto; rewrite ?Hpc; try done.
    by apply bounded_bump.
  - (* return and Unlock *)
    injection Hts as <- <- <-.
    apply mutex_inv_move; auto; rewrite ?Hpc; done.
  - done.
Qed.

Lemma mutex_inv_initial d calls : bounded d -> mutex_inv (initial d calls).
Proof.
  intros Hbnd.
  assert (Hall : forall j tj, spawn calls !! j = Some tj -> t_pc tj = AtLock).
  { intros j tj Hj. unfold spawn in Hj. rewrite list_lookup_fmap in Hj.
    destruct (calls !! j); simpl in Hj; [|done]. by injection Hj as <-. }
  constructor; simpl.
  - intros _ j tj Hj. by rewrite (Hall j tj Hj).
  - intros i j ti tj Hi _ Hc. by rewrite (Hall i ti Hi) in Hc.
  - done.
  - intros j tj Hj Hpc. by rewrite (Hall j tj Hj) in Hpc.
Qed.

Lemma mutex_inv_reachable s s' : mutex_inv s -> rtc step s s' -> mutex_inv s'.
Proof. induction 2; eauto using mutex_inv_step. Qed.

Lemma step_length s s' : step s s' -> length (threads s') = length (threads s).
Proof. destruct 1. simpl. apply length_insert. Qed.

Lemma reachable_length s s' :
  rtc step s s' -> length (threads s') = length (threads s).
Proof.
  induction 1 as [|s1 s2 s3 H12 _ IH]; [done|].
  rewrite IH. by apply step_length.
Qed.

(** A move that leaves the registry alone keeps the one-use invariant
    when the thread's choice, if it has made one, is kept, and a choice
    newly made is a rejection with the counter already at one. *)
Lemma once_inv_move k exp s i t l p :
  once_inv k exp s -> threads s !! i = Some t ->
  (decided p = true ->
     decided (t_pc t) = true \/
     exists r, db s !! k = Some r /\ UsageCount r = 1) ->
  accepted p = accepted (t_pc t) ->
  (forall ret, p = AtUnlock ret \/ p = Done ret -> ret = 1 \/ ret = -1) ->
  once_inv k exp (mkState (db s) l (<[i := set_pc t p]> (threads s))).
Proof.
  intros Hinv Hi Hdec Hacc Hret.
  constructor; simpl.
  - intros j tj Hj.
    destruct (lookup_set_pc _ _ _ _ _ _ Hi Hj) as [[-> ->]|[Hne Hj']]; simpl.
    + apply (once_calls k exp s Hinv i t Hi).
    + apply (once_calls k exp s Hinv j tj Hj').
  - apply (once_record k exp s Hinv).
  - intros Hzero j tj Hj.
    destruct (lookup_set_pc _ _ _ _ _ _ Hi Hj) as [[-> ->]|[Hne Hj']]; simpl.
    + destruct (decided p) eqn:Hp; [|done].
      destruct (Hdec eq_refl) as [Hd|(r1 & Hr1 & Hu1)].
      * rewrite (once_unused k exp s Hinv Hzero i t Hi) in Hd. done.
      * destruct Hzero as (r0 & Hr0 & Hu0). rewrite Hr0 in Hr1.
        injection Hr1 as <-. lia.
    + apply (once_unused k exp s Hinv Hzero j tj Hj').
  - intros j tj ret Hj Hpc.
    destruct (lookup_set_pc _ _ _ _ _ _ Hi Hj) as [[-> ->]|[Hne Hj']];
      simpl in *.
    + by apply Hret.
    + by apply (once_codes k exp s Hinv j tj ret Hj').
  - intros a b ta tb Ha Hb Hca Hcb.
    destruct (lookup_set_pc _ _ _ _ _ _ Hi Ha) as [[-> ->]|[Hna Ha']];
    destruct (lookup_set_pc _ _ _ _ _ _ Hi Hb) as [[-> ->]|[Hnb Hb']];
      simpl in *; try done.
    + rewrite Hacc in Hca. apply (once_unique k exp s Hinv i b t tb); auto.
    + rewrite Hacc in Hcb. apply (once_unique k exp s Hinv a i ta t); auto.
    + apply (once_unique k exp s Hinv a b ta tb); auto.
  - intros Hone.
    destruct (once_used k exp s Hinv Hone) as (j & tj & Hj & Haj).
    destruct (decide (j = i)) as [->|Hne].
    + exists i, (set_pc t p). split; [by apply lookup_set_pc_same|].
      simpl. rewrite Hacc. congruence.
    + exists j, tj. split; [|done]. by rewrite list_lookup_insert_ne.
Qed.

Lemma once_inv_step k exp s s' :
  mutex_inv s -> once_inv k exp s -> step s s' -> once_inv k exp s'.
Proof.
  intros Hmx Hinv Hstep. destruct Hstep as [s i t d l p Hi Hts].
  destruct (once_calls k exp s Hinv i t Hi) as [Hkey Hnow].
  destruct (once_record k exp s Hinv) as (r & Hr & Hv & Hexp & Hmax & Hu).
  unfold thread_step in Hts. rewrite Hkey, Hr in Hts.
  destruct (t_pc t) eqn:Hpc; simpl in Hts.
  - destruct (locked s); [done|]. injection Hts as <- <- <-.
    apply once_inv_move; auto; rewrite ?Hpc; try done. intros ? [?|?]; done.
  - injection Hts as <- <- <-.
    apply once_inv_move; auto; rewrite ?Hpc; try done. intros ? [?|?]; done.
  - rewrite Hv in Hts. injection Hts as <- <- <-.
    apply once_inv_move; auto; rewrite ?Hpc; try done. intros ? [?|?]; done.
  - unfold After in Hts. rewrite Hexp in Hts.
    destruct (Z.ltb_spec exp (t_now t)); [lia|]. injection Hts as <- <- <-.
    apply once_inv_move; auto; rewrite ?Hpc; try done. intros ? [?|?]; done.
  - rewrite Hmax in Hts.
    destruct (Z.geb_spec (UsageCount r) 1); injection Hts as <- <- <-.
    + apply once_inv_move; auto; rewrite ?Hpc; try done.
      * intros _. right. exists r. split; [done|lia].
      * intros ret [Hret|Hret]; [|done]. injection Hret as <-. by right.
    + apply once_inv_move; auto; rewrite ?Hpc; try done. intros ? [?|?]; done.
  - (* the increment: the counter goes from zero to one *)
    injection Hts as <- <- <-.
    destruct (inv_incr s Hmx i t Hi Hpc) as (r' & Hr' & Hlt).
    rewrite Hkey, Hr in Hr'. injection Hr' as <-.
    assert (Hzero : UsageCount r = 0) by lia.
    assert (Hnone : forall j tj, threads s !! j = Some tj ->
                                 decided (t_pc tj) = false).
    { apply (once_unused k exp s Hinv). eauto. }
    assert (Hbump : UsageCount (bump r) = 1).
    { destruct (inv_bounded s Hmx k r Hr) as [[Hwu Hwm] _]. simpl.
      rewrite (incr_below _ _ Hwu Hwm Hlt). lia. }
    constructor; simpl.
    + intros j tj Hj.
      destruct (lookup_set_pc _ _ _ _ _ _ Hi Hj) as [[-> ->]|[Hne Hj']]; simpl.
      * done.
      * apply (once_calls k exp s Hinv j tj Hj').
    + exists (bump r). rewrite lookup_insert_eq.
      split; [done|]. rewrite Hbump. simpl. repeat split; auto; lia.
    + intros (r0 & Hr0 & Hu0). rewrite lookup_insert_eq in Hr0.
      injection Hr0 as <-. lia.
    + intros j tj ret Hj Hret.
      destruct (lookup_set_pc _ _ _ _ _ _ Hi Hj) as [[-> ->]|[Hne Hj']];
        simpl in *.
      * destruct Hret as [Hret|Hret]; [|done]. injection Hret as <-. by left.
      * by apply (once_codes k exp s Hinv j tj ret Hj').
    + intros a b ta tb Ha Hb Hca Hcb.
      assert (Hquiet : forall j tj, threads s !! j = Some tj ->
                                    accepted (t_pc tj) = false).
      { intros j tj Hj. pose proof (Hnone j tj Hj) as Hd.
        destruct (t_pc tj); try done. }
      destruct (lookup_set_pc _ _ _ _ _ _ Hi Ha) as [[-> ->]|[Hna Ha']];
      destruct (lookup_set_pc _ _ _ _ _ _ Hi Hb) as [[-> ->]|[Hnb Hb']];
        simpl in *; try done.
      * rewrite (Hquiet b tb Hb') in Hcb. done.
      * rewrite (Hquiet a ta Ha') in Hca. done.
      * rewrite (Hquiet a ta Ha') in Hca. done.
    + intros _. exists i, (set_pc t (AtUnlock 1)).
      split; [by apply lookup_set_pc_same|done].
  - injection Hts as <- <- <-.
    apply once_inv_move; auto; rewrite ?Hpc; try done.
    + intros _. by left.
    + intros ret0 [Hret|Hret]; [done|]. injection Hret as <-.
      apply (once_codes k exp s Hinv i t ret Hi). by left.
  - done.
Qed.

Lemma once_inv_initial k exp d calls r :
  d !! k = Some r -> Valid r = true -> ExpiresAt r = exp ->
  MaxUsage r = 1 -> UsageCount r = 0 ->
  (forall c, c ∈ calls -> c.1 = k /\ c.2 < exp) ->
  once_inv k exp (initial d calls).
Proof.
  intros Hr Hv Hexp Hmax Hu Hcalls.
  assert (Hall : forall j tj, spawn calls !! j = Some tj ->
            t_pc tj = AtLock /\ t_key tj = k /\ t_now tj < exp).
  { intros j tj Hj. unfold spawn in Hj. rewrite list_lookup_fmap in Hj.
    destruct (calls !! j) as [c|] eqn:Hc; simpl in Hj; [|done].
    injection Hj as <-. simpl. split; [done|].
    apply Hcalls. by eapply list_elem_of_lookup_2. }
  constructor; simpl.
  - intros j tj Hj. by apply (Hall j tj Hj).
  - exists r. repeat split; auto; lia.
  - intros _ j tj Hj. destruct (Hall j tj Hj) as [-> _]. done.
  - intros j tj ret Hj [Hpc|Hpc]; destruct (Hall j tj Hj) as [Ha _]; congruence.
  - intros a b ta tb Ha _ Hca. destruct (Hall a ta Ha) as [Hpc _].
    by rewrite Hpc in Hca.
  - intros (r0 & Hr0 & Hu0). rewrite Hr in Hr0. injection Hr0 as <-. lia.
Qed.

Lemma both_inv_reachable k exp s s' :
  mutex_inv s -> once_inv k exp s -> rtc step s s' ->
  mutex_inv s' /\ once_inv k exp s'.
Proof.
  intros Hm Ho Hrtc. induction Hrtc as [|s1 s2 s3 H12 _ IH]; [done|].
  apply IH; eauto using mutex_inv_step, once_inv_step.
Qed.

Lemma live_inv_initial d calls : live_inv (initial d calls).
Proof.
  assert (Hall : forall j tj, spawn calls !! j = Some tj -> t_pc tj = AtLock).
  { intros j tj Hj. unfold spawn in Hj. rewrite list_lookup_fmap in Hj.
    destruct (calls !! j); simpl in Hj; [|done]. by injection Hj as <-. }
  constructor; simpl; [done|].
  intros j tj Hj Hn. by rewrite (Hall j tj Hj) in Hn.
Qed.

Lemma live_inv_step s s' :
  mutex_inv s -> live_inv s -> step s s' -> live_inv s'.
Proof.
  intros Hmx Hlv Hstep.
  pose proof (mutex_inv_step s s' Hmx Hstep) as Hmx'.
  destruct Hstep as [s i t d l p Hi Hts].
  assert (Hl : l = in_cs p /\
               (needs_record p = true -> is_Some (d !! t_key t)) /\
               (forall k, is_Some (db s !! k) -> is_Some (d !! k))).
  { assert (Hin : in_cs (t_pc t) = true -> locked s = true)
      by (intros Hc; by eapply cs_holds_lock).
    unfold thread_step in Hts. destruct (t_pc t) eqn:Hpc.
    - destruct (locked s); [done|]. by injection Hts as <- <- <-.
    - pose proof (Hin eq_refl) as Hlk.
      destruct (db s !! t_key t) eqn:Hr; injection Hts as <- <- <-; rewrite Hlk;
        (split; [done|split; [intros Hn; simpl in Hn; try done; rewrite Hr; eauto|done]]).
    - pose proof (Hin eq_refl) as Hlk.
      destruct (db s !! t_key t) as [r|] eqn:Hr; [|done]. simpl in Hts.
      injection Hts as <- <- <-. rewrite Hlk.
      destruct (negb (Valid r));
        (split; [done|split; [intros Hn; simpl in Hn; try done; rewrite Hr; eauto|done]]).
    - pose proof (Hin eq_refl) as Hlk.
      destruct (db s !! t_key t) as [r|] eqn:Hr; [|done]. simpl in Hts.
      injection Hts as <- <- <-. rewrite Hlk.
      destruct (After (t_now t) (ExpiresAt r));
        (split; [done|split; [intros Hn; simpl in Hn; try done; rewrite Hr; eauto|done]]).
    - pose proof (Hin eq_refl) as Hlk.
      destruct (db s !! t_key t) as [r|] eqn:Hr; [|done]. simpl in Hts.
      injection Hts as <- <- <-. rewrite Hlk.
      destruct (UsageCount r >=? MaxUsage r);
        (split; [done|split; [intros Hn; simpl in Hn; try done; rewrite Hr; eauto|done]]).
    - pose proof (Hin eq_refl) as Hlk.
      destruct (db s !! t_key t) as [r|] eqn:Hr; [|done]. simpl in Hts.
      injection Hts as <- <- <-. rewrite Hlk. split; [done|]. split; [done|].
      intros k Hk. destruct (decide (t_key t = k)) as [->|Hne].
      + rewrite lookup_insert_eq. eauto.
      + by rewrite lookup_insert_ne.
    - by injection Hts as <- <- <-.
    - done. }
  destruct Hl as (-> & Hrec & Hkeep).
  constructor; simpl.
  - intros Hcs. exists i, (set_pc t p). split; [by apply lookup_set_pc_same|done].
  - intros j tj Hj Hn.
    destruct (lookup_set_pc _ _ _ _ _ _ Hi Hj) as [[-> ->]|[Hne Hj']]; simpl in *.
    + auto.
    + apply Hkeep. by apply (live_ptr s Hlv j tj Hj').
Qed.

Lemma work_move (ths : list thread) : forall i t p,
  ths !! i = Some t -> (remaining p < remaining (t_pc t))%nat ->
  (work (<[i := set_pc t p]> ths) < work ths)%nat.
Proof.
  induction ths as [|t0 ths IH]; intros i t p Hi Hlt; [done|].
  destruct i as [|i]; simpl in *.
  - injection Hi as ->. lia.
  - specialize (IH i t p Hi Hlt). lia.
Qed.

Lemma step_work s s' : step s s' -> (work (threads s') < work (threads s))%nat.
Proof.
  destruct 1 as [s i t d l p Hi Hts]. simpl. apply work_move; [done|].
  unfold thread_step in Hts.
  destruct (t_pc t); simpl;
    repeat (match goal with
            | H : context [db s !! t_key t] |- _ =>
                destruct (db s !! t_key t); simpl in H
            | H : context [if ?b then _ else _] |- _ => destruct b
            | H : Some _ = Some _ |- _ => injection H as <- <- <-
            end); simpl; try done; lia.
Qed.

(** Either every thread has returned or one has not. *)
Lemma finished_or_not s :
  finished s \/ exists j tj, threads s !! j = Some tj /\
                            forall ret, t_pc tj <> Done ret.
Proof.
  unfold finished. induction (threads s) as [|t ths IH].
  - left. intros t Ht. by apply elem_of_nil in Ht.
  - destruct IH as [IH|(j & tj & Hj & Hn)].
    + destruct (t_pc t) eqn:Hpc;
        try (right; exists 0%nat, t; split; [done|]; rewrite Hpc; done).
      left. intros t' Ht'. apply elem_of_cons in Ht' as [->|Ht']; eauto.
    + right. exists (S j), tj. done.
Qed.

(** No deadlock: while a call has not returned, some thread can move. *)
Lemma progress s :
  mutex_inv s -> live_inv s -> ~ finished s -> exists s', step s s'.
Proof.
  intros Hmx Hlv Hnf.
  assert (Hcan : exists i t, threads s !! i = Some t /\
                   is_Some (thread_step (db s) (locked s) t)).
  { destruct (locked s) eqn:Hl.
    - destruct (live_held s Hlv Hl) as (j & tj & Hj & Hcs).
      exists j, tj. split; [done|]. unfold thread_step.
      pose proof (live_ptr s Hlv j tj Hj) as Hptr.
      destruct (t_pc tj); try done; simpl in *;
        try (destruct (Hptr eq_refl) as [r ->]; simpl; eauto); eauto.
      destruct (db s !! t_key tj); eauto.
    - destruct (finished_or_not s) as [Hf|(j & tj & Hj & Hn)]; [done|].
      exists j, tj. split; [done|]. unfold thread_step.
      pose proof (inv_free s Hmx Hl j tj Hj) as Hcs.
      destruct (t_pc tj); try done; eauto. by destruct (Hn ret). }
  destruct Hcan as (i & t & Hi & [[[d l] p] Hts]).
  eexists. by eapply step_thread.
Qed.

(** Every execution can be carried on until all calls have returned. *)
Lemma can_finish n : forall s,
  (work (threads s) <= n)%nat -> mutex_inv s -> live_inv s ->
  exists s', rtc step s s' /\ finished s'.
Proof.
  induction n as [|n IH]; intros s Hw Hmx Hlv.
  - destruct (finished_or_not s) as [Hf|(j & tj & Hj & Hn)].
    + exists s. split; [constructor|done].
    + assert (Hnf : ~ finished s).
      { intros Hf. destruct (Hf tj) as [ret Hret].
        - by eapply list_elem_of_lookup_2.
        - by destruct (Hn ret). }
      destruct (progress s Hmx Hlv Hnf) as [s' Hstep].
      pose proof (step_work s s' Hstep). lia.
  - destruct (finished_or_not s) as [Hf|(j & tj & Hj & Hn)].
    + exists s. split; [constructor|done].
    + assert (Hnf : ~ finished s).
      { intros Hf. destruct (Hf tj) as [ret Hret].
        - by eapply list_elem_of_lookup_2.
        - by destruct (Hn ret). }
      destruct (progress s Hmx Hlv Hnf) as [s' Hstep].
      pose proof (step_work s s' Hstep).
      destruct (IH s') as (s'' & Hrtc & Hfin).
      * lia.
      * by eapply mutex_inv_step.
      * by eapply live_inv_step.
      * exists s''. split; [|done]. by eapply rtc_l.
Qed.

Lemma live_inv_reachable s s' :
  mutex_inv s -> live_inv s -> rtc step s s' -> live_inv s'.
Proof.
  intros Hm Hl Hrtc. induction Hrtc as [|s1 s2 s3 H12 _ IH]; [done|].
  apply IH; eauto using mutex_inv_step, live_inv_step.
Qed.

(** A schedule that runs is an execution of the step relation. *)
Lemma run_sound sched : forall s s', run sched s = Some s' -> rtc step s s'.
Proof.
  induction sched as [|i sched IH]; intros s s' Hrun; simpl in Hrun.
  - injection Hrun as <-. constructor.
  - destruct (threads s !! i) as [t|] eqn:Hi; [|done]. simpl in Hrun.
    destruct (thread_step (db s) (locked s) t) as [[[d l] p]|] eqn:Hts; [|done].
    simpl in Hrun. eapply rtc_l; [|by apply IH].
    by eapply step_thread.
Qed.

Lemma bounded_singleton k r :
  wf_KeyInfo r -> UsageCount r <= MaxUsage r -> bounded {[ k := r ]}.
Proof.
  intros Hwf Hle k' r' Hk'. apply lookup_singleton_Some in Hk' as [_ <-]. done.
Qed.

(** C6. Validation calls running concurrently, interleaved statement by
    statement under the mutex: in every state any schedule can reach, at
    most one call is between [Lock()] and [Unlock()], no usage count
    exceeds its ceiling, and the calls can all run to their return.  For
    calls on one key that is enabled, unexpired, unused and may be used
    once, when all calls have returned exactly one of them has returned
    ACCEPT and every other REJECT. *)
Theorem concurrent_validation_respects_quota d calls s :
  bounded d ->
  rtc step (initial d calls) s ->
  (forall i j ti tj,
     threads s !! i = Some ti -> threads s !! j = Some tj ->
     in_cs (t_pc ti) = true -> in_cs (t_pc tj) = true -> i = j) /\
  (forall k r, db s !! k = Some r -> UsageCount r <= MaxUsage r) /\
  (exists s', rtc step s s' /\ finished s') /\
  (forall k r,
     d !! k = Some r -> Valid r = true ->
     UsageCount r = 0 -> MaxUsage r = 1 ->
     calls <> [] ->
     (forall c, c ∈ calls -> c.1 = k /\ c.2 < ExpiresAt r) ->
     finished s ->
     exists i, (i < length calls)%nat /\
       forall j tj, threads s !! j = Some tj ->
         t_pc tj = Done (if decide (j = i) then ACCEPT else REJECT)).
Proof.
  intros Hbnd Hrtc.
  pose proof (mutex_inv_initial d calls Hbnd) as Hm0.
  pose proof (mutex_inv_reachable _ _ Hm0 Hrtc) as Hmx.
  pose proof (live_inv_reachable _ _ Hm0 (live_inv_initial d calls) Hrtc) as Hlv.
  split; [exact (inv_excl s Hmx)|].
  split; [intros k r Hk; exact (proj2 (inv_bounded s Hmx k r Hk))|].
  split; [by apply (can_finish (work (threads s)))|].
  intros k r Hr Hv Hu Hmax Hne Hcalls Hfin.
  pose proof (once_inv_initial k (ExpiresAt r) d calls r Hr Hv eq_refl Hmax Hu
                Hcalls) as Ho0.
  destruct (both_inv_reachable k (ExpiresAt r) _ _ Hm0 Ho0 Hrtc) as [_ Hon].
  assert (Hlen : length (threads s) = length calls).
  { rewrite (reachable_length _ _ Hrtc). simpl. unfold spawn.
    apply length_fmap. }
  assert (Hdone : forall j tj, threads s !! j = Some tj ->
                    exists ret, t_pc tj = Done ret).
  { intros j tj Hj. apply Hfin. by eapply list_elem_of_lookup_2. }
  destruct (once_record _ _ s Hon) as (r1 & Hr1 & _ & _ & _ & Hu1).
  (* the first call has returned, so the key has been used *)
  assert (Hused : UsageCount r1 = 1).
  { destruct (decide (UsageCount r1 = 0)) as [Hz|Hnz]; [|lia].
    destruct (threads s !! 0%nat) as [t0|] eqn:H0.
    - destruct (Hdone 0%nat t0 H0) as [ret Hret].
      assert (Hd : decided (t_pc t0) = false).
      { apply (once_unused _ _ s Hon) with 0%nat; eauto. }
      rewrite Hret in Hd. done.
    - apply lookup_ge_None in H0. destruct calls; [done|].
      simpl in Hlen. lia. }
  destruct (once_used _ _ s Hon) as (i & ti & Hi & Hacc); [eauto|].
  exists i. split.
  { rewrite <- Hlen. by eapply lookup_lt_Some. }
  intros j tj Hj. destruct (Hdone j tj Hj) as [ret Hret]. rewrite Hret.
  destruct (decide (j = i)) as [->|Hji].
  - rewrite Hi in Hj. injection Hj as ->. rewrite Hret in Hacc. simpl in Hacc.
    apply Z.eqb_eq in Hacc. by rewrite Hacc.
  - destruct (once_codes _ _ s Hon j tj ret Hj) as [->| ->]; [by right| |done].
    destruct Hji. apply (once_unique _ _ s Hon j i tj ti); auto.
    by rewrite Hret.
Qed.

Lemma concurrent_validation_respects_quota_witness :
  exists s,
    run [0; 0; 0; 0; 0; 0; 0; 1; 1; 1; 1; 1; 1]%nat
        (initial single_db [("k1", 5); ("k1", 6)]) = Some s /\
    (forall i j ti tj,
       threads s !! i = Some ti -> threads s !! j = Some tj ->
       in_cs (t_pc ti) = true -> in_cs (t_pc tj) = true -> i = j) /\
    (forall k r, db s !! k = Some r -> UsageCount r <= MaxUsage r) /\
    (exists s', rtc step s s' /\ finished s') /\
    (forall k r,
       single_db !! k = Some r -> Valid r = true ->
       UsageCount r = 0 -> MaxUsage r = 1 ->
       [("k1", 5); ("k1", 6)] <> [] ->
       (forall c, c ∈ [("k1", 5); ("k1", 6)] -> c.1 = k /\ c.2 < ExpiresAt r) ->
       finished s ->
       exists i, (i < length [("k1", 5); ("k1", 6)])%nat /\
         forall j tj, threads s !! j = Some tj ->
           t_pc tj = Done (if decide (j = i) then ACCEPT else REJECT)).
Proof.
  destruct (run [0; 0; 0; 0; 0; 0; 0; 1; 1; 1; 1; 1; 1]%nat
              (initial single_db [("k1", 5); ("k1", 6)])) as [s|] eqn:Hrun.
  - exists s. split.
    + reflexivity.
    + apply (concurrent_validation_respects_quota single_db
               [("k1", 5); ("k1", 6)] s).
      * apply bounded_singleton.
        -- unfold wf_KeyInfo, GoInt.in_range, GoInt.min_int, GoInt.max_int.
           simpl. lia.
        -- simpl. lia.
      * eapply run_sound. exact Hrun.
  - vm_compute in Hrun. discriminate.
Defined.

(** Two concurrent calls on a key that may be used once, run one after
    the other: the first returns ACCEPT, the second REJECT. *)
Example two_calls_one_accept :
  (fun s => t_pc <$> threads s) <$>
    run [0; 0; 0; 0; 0; 0; 0; 1; 1; 1; 1; 1; 1]%nat
        (initial single_db [("k1", 5); ("k1", 6)])
  = Some [Done 1; Done (-1)].
Proof. vm_compute. reflexivity. Qed.

(** Without the mutex the same two calls can both pass the quota test
    before either increments: both return ACCEPT and the counter ends at
    2, above the ceiling of 1. *)
Example unlocked_calls_race :
  (fun s => (t_pc <$> threads s, UsageCount <$> db s !! "k1")) <$>
    runUnlocked [0; 0; 0; 0; 0; 1; 1; 1; 1; 1; 0; 0; 1; 1]%nat
        (initial single_db [("k1", 5); ("k1", 6)])
  = Some ([Done 1; Done 1], Some 2).
Proof. vm_compute. reflexivity. Qed.

End Concurrency.

(** ** The expiry instant *)

Section ExpiryInstant.
Import Server Samples.

(** Strictly after the expiry time every call is rejected, whatever the
    rest of the record says. *)
Lemma validateKey_rejects_after_expiry (db : Registry) now key r :
  db !! key = Some r -> ExpiresAt r < now ->
  validateKey db now key = (REJECT, db).
Proof. apply validateKey_expired. Qed.

(** At the expiry time itself [After] is false, and an enabled record
    below its ceiling is accepted and counted. *)
Lemma validateKey_accepts_at_expiry (db : Registry) key r :
  db !! key = Some r -> Valid r = true -> UsageCount r < MaxUsage r ->
  validateKey db (ExpiresAt r) key = (ACCEPT, <[key := bump r]> db).
Proof. intros Hk Hv Hlt. apply validateKey_ok; auto. lia. Qed.

(** C3, at the instant [now = ExpiresAt]: the sample key expires at 100;
    a validation call reading the clock at 100 returns ACCEPT and counts
    the use, while the statistics taken at the same instant do not count
    the key among the valid ones. *)
Theorem validateKey_at_expiry_instant :
  ExpiresAt demo_record = 100 /\
  validateKey demo_db 100 "k1" =
    (ACCEPT, <[ "k1" := with_usage demo_record 1 ]> demo_db) /\
  valid_keys (statsHandler demo_db (map_to_list demo_db) (fun _ => 100)) = 0.
Proof.
  split; [reflexivity|]. split.
  - change 100 with (ExpiresAt demo_record) at 1.
    rewrite (validateKey_accepts_at_expiry demo_db "k1" demo_record);
      [|reflexivity|reflexivity|simpl; lia].
    reflexivity.
  - vm_compute. reflexivity.
Qed.

End ExpiryInstant.

(** ** The certificate check *)

Section CertificateCheck.
Import Filepath Client ClientSamples.

Lemma scanDNSNames_spec names :
  scanDNSNames names = true <-> "xzip.com" ∈ names.
Proof.
  induction names as [|dnsName rest IH]; simpl.
  - split; [done|]. intros H. by apply elem_of_nil in H.
  - destruct (String.eqb_spec dnsName "xzip.com") as [->|Hne].
    + split; [|done]. intros _. apply elem_of_cons. by left.
    + rewrite IH, elem_of_cons. split; [by right|].
      intros [Heq|Hin]; [by destruct Hne|done].
Qed.

Lemma scanCertificates_spec certs :
  scanCertificates certs = true <->
  exists cert, cert ∈ certs /\
    ("xzip.com" ∈ DNSNames cert \/ CommonName cert = "xzip.com").
Proof.
  induction certs as [|cert rest IH]; simpl.
  - split; [done|]. intros (c & Hc & _). by apply elem_of_nil in Hc.
  - destruct (scanDNSNames (DNSNames cert)) eqn:Hdns.
    + split; [|done]. intros _. exists cert. split; [apply elem_of_cons; by left|].
      left. by apply scanDNSNames_spec.
    + destruct (String.eqb_spec (CommonName cert) "xzip.com") as [Hcn|Hcn].
      * split; [|done]. intros _. exists cert.
        split; [apply elem_of_cons; by left|by right].
      * rewrite IH. split.
        -- intros (c & Hc & Hok). exists c. split; [|done].
           apply elem_of_cons. by right.
        -- intros (c & Hc & Hok). apply elem_of_cons in Hc as [->|Hc].
           ++ destruct Hok as [Hd|Hn]; [|done].
              apply scanDNSNames_spec in Hd. congruence.
           ++ by exists c.
Qed.

(** What [validateAuth] has seen when it returns [nil]. *)
Lemma validateAuth_success env :
  (validateAuth env).2 = None <->
  exists data jsonData resp body,
    ReadKeyFile env = Ok data /\
    Marshal env (TrimSpace env data) = Ok jsonData /\
    Post env AuthURL "application/json" jsonData = Ok resp /\
    verifyServerCertificate resp = None /\
    Body resp = Ok body /\
    Unmarshal env body = Ok 1.
Proof.
  unfold validateAuth, readAuthKey. split.
  - destruct (ReadKeyFile env) as [data|e1] eqn:Hread; [|done].
    destruct (Marshal env (TrimSpace env data)) as [jsonData|e2] eqn:Hm; [|done].
    destruct (Post env AuthURL "application/json" jsonData) as [resp|e3] eqn:Hp;
      [|done].
    destruct (verifyServerCertificate resp) as [e4|] eqn:Hcert; [done|].
    destruct (Body resp) as [body|e5] eqn:Hbody; [|done].
    destruct (Unmarshal env body) as [status|e6] eqn:Hparse; [|done].
    destruct (Z.eqb_spec status (-1)); [done|].
    destruct (Z.eqb_spec status 1) as [->|]; [|done].
    intros _. exists data, jsonData, resp, body. repeat split; done.
  - intros (data & jsonData & resp & body & -> & -> & -> & -> & -> & ->). done.
Qed.

(** C7. The check of the server's identity succeeds exactly when the
    response came over TLS and one of the certificates the peer presented
    carries the DNS name or the common name [xzip.com]; [validateAuth]
    returns [nil] only for a response that passed it, returns the check's
    error for one that did not, and every request it sends goes to the
    authorization URL over a transport whose chain validation is switched
    off. *)
Theorem verifyServerCertificate_pins_identity :
  (forall resp,
     verifyServerCertificate resp = None <->
     exists tls, TLS resp = Some tls /\
       exists cert, cert ∈ PeerCertificates tls /\
         ("xzip.com" ∈ DNSNames cert \/ CommonName cert = "xzip.com")) /\
  (forall env,
     (validateAuth env).2 = None ->
     exists key jsonData resp,
       readAuthKey env = Ok key /\ Marshal env key = Ok jsonData /\
       Post env AuthURL "application/json" jsonData = Ok resp /\
       verifyServerCertificate resp = None) /\
  (forall env key jsonData resp e,
     readAuthKey env = Ok key -> Marshal env key = Ok jsonData ->
     Post env AuthURL "application/json" jsonData = Ok resp ->
     verifyServerCertificate resp = Some e ->
     (validateAuth env).2 = Some e) /\
  (forall env ev,
     ev ∈ (validateAuth env).1 -> isPost ev = true ->
     exists body, ev = EvPost true AuthURL "application/json" body).
Proof.
  split; [|split; [|split]].
  - intros resp. unfold verifyServerCertificate.
    destruct (TLS resp) as [tls|].
    + destruct (scanCertificates (PeerCertificates tls)) eqn:Hscan.
      * split; [|done]. intros _. exists tls. split; [done|].
        by apply scanCertificates_spec.
      * split; [done|]. intros (tls' & Heq & Hcert). injection Heq as <-.
        apply scanCertificates_spec in Hcert. congruence.
    + split; [done|]. intros (tls & Heq & _). done.
  - intros env Hok. apply validateAuth_success in Hok
      as (data & jsonData & resp & body & Hread & Hm & Hp & Hc & _).
    exists (TrimSpace env data), jsonData, resp.
    unfold readAuthKey. by rewrite Hread.
  - intros env key jsonData resp e Hkey Hm Hp Hc.
    unfold validateAuth. by rewrite Hkey, Hm, Hp, Hc.
  - intros env ev Hev Hpost. unfold validateAuth in Hev.
    repeat (match type of Hev with
            | context [match ?x with _ => _ end] => destruct x
            end; simpl in Hev);
      repeat (apply elem_of_cons in Hev as [->|Hev]; eauto; try done);
      by apply elem_of_nil in Hev.
Qed.

Lemma verifyServerCertificate_pins_identity_witness :
  verifyServerCertificate
    (mkResponse (Some (mkConnectionState [otherCert; pinnedCert])) (Ok "")) = None /\
  (validateAuth wrongHostEnv).2 =
    Some "服务器证书域名验证失败，请确保连接到正确的xzip.com服务器".
Proof.
  destruct verifyServerCertificate_pins_identity as (Hiff & _ & Hfail & _).
  split.
  - apply Hiff. eexists. split; [reflexivity|]. exists pinnedCert. split.
    + simpl. apply elem_of_cons. right. apply elem_of_cons. by left.
    + left. simpl. apply elem_of_cons. right. apply elem_of_cons. by left.
  - eapply (Hfail wrongHostEnv); reflexivity.
Defined.

End CertificateCheck.

(** ** Extraction *)

Section Extraction.
Import Filepath Client ClientSamples.

(** [Clean] on rows of the table Go tests it with. *)
Example Clean_table :
  Clean <$> [""; "abc"; "../../abc"; "/"; "abc/"; "../"; "abc//def//ghi";
             "abc/./def"; "/./abc/def"; "abc/def/ghi/../jkl"; "abc/def/../..";
             "/abc/def/../.."; "abc/def/../../.."; "/abc/def/../../..";
             "abc/def/../../../ghi/jkl/../../../mno"; "/../abc";
             "abc/./../def"; "abc/../../././../def"]
  = ["."; "abc"; "../../abc"; "/"; "abc"; ".."; "abc/def/ghi";
     "abc/def"; "/abc/def"; "abc/def/jkl"; "."; "/"; ".."; "/";
     "../../mno"; "/abc"; "def"; "../../def"].
Proof. vm_compute. reflexivity. Qed.

Example Join_Dir_table :
  (Join ["/home/u"; ".xzip/key"], Join [""; "a"; ""; "b/"], Join [""; ""],
   Join ["out"; "../x"], Dir "/home/u/.xzip/key", Dir "key", Dir "/key")
  = ("/home/u/.xzip/key", "a/b", "", "x", "/home/u/.xzip", ".", "/").
Proof. vm_compute. reflexivity. Qed.

(** Entries that extract without error are followed by the rest of the
    archive. *)
Lemma extractLoop_app env opener target before after evs :
  extractLoop env opener target before = (evs, None) ->
  extractLoop env opener target (before ++ after) =
    (evs ++ (extractLoop env opener target after).1,
     (extractLoop env opener target after).2).
Proof.
  revert evs. induction before as [|file before IH]; intros evs Hrun.
  - injection Hrun as <-. simpl. by destruct (extractLoop env opener target after).
  - simpl in Hrun. simpl.
    destruct (IsDir file).
    + destruct (extractLoop env opener target before) as [evs0 err0] eqn:Hrest.
      injection Hrun as <- ->. rewrite (IH evs0 eq_refl). done.
    + destruct (opener file) as [data|e]; [|done].
      destruct (OpenFile env (Join [target; Name file])); [done|].
      destruct (Copy env (Join [target; Name file])); [done|].
      destruct (extractLoop env opener target before) as [evs0 err0] eqn:Hrest.
      injection Hrun as <- ->. rewrite (IH evs0 eq_refl). done.
Qed.

(** A file entry that opens is written at the joined path, whatever its
    name is. *)
Lemma extractLoop_destination env opener target file after data :
  IsDir file = false -> opener file = Ok data ->
  exists rest,
    (extractLoop env opener target (file :: after)).1 =
      EvMkdirAll (Dir (Join [target; Name file])) 493 ::
      EvOpenFile (Join [target; Name file]) (Mode file) :: rest /\
    (OpenFile env (Join [target; Name file]) = None ->
     exists rest', rest = EvCopy (Join [target; Name file]) data :: rest').
Proof.
  intros Hdir Hopen. simpl. rewrite Hdir, Hopen.
  destruct (OpenFile env (Join [target; Name file])) as [e|].
  - eexists. split; [reflexivity|]. done.
  - destruct (Copy env (Join [target; Name file])) as [e|].
    + eexists. split; [reflexivity|]. intros _. by eexists.
    + destruct (extractLoop env opener target after) as [evs err].
      eexists. split; [reflexivity|]. intros _. by eexists.
Qed.

(** C5. In both clients the destination of an entry is
    [filepath.Join(target, file.Name)], and once the entries before it
    have been extracted a file entry that opens has its parent directory
    created and is opened for writing there (and written, if the open
    succeeds), with no test on the path in between: this holds for every
    entry name.  So for the entry name [../../etc/cron.d/job], which has
    [..] among its elements, extraction into [/tmp/out] writes
    [/etc/cron.d/job], outside the target directory. *)
Theorem extraction_writes_outside_target :
  (forall env opener target before file after data evs,
     extractLoop env opener target before = (evs, None) ->
     IsDir file = false -> opener file = Ok data ->
     exists rest,
       (extractLoop env opener target (before ++ file :: after)).1 =
         evs ++ EvMkdirAll (Dir (Join [target; Name file])) 493 ::
                EvOpenFile (Join [target; Name file]) (Mode file) :: rest /\
       (OpenFile env (Join [target; Name file]) = None ->
        exists rest', rest = EvCopy (Join [target; Name file]) data :: rest')) /\
  (forall env source target password,
     extractFromZip env source target password =
       extractWith env (openEntry password) source target /\
     extractFromZipPlain env source target =
       extractWith env Open source target) /\
  ".." ∈ elements slipName /\
  Join ["/tmp/out"; slipName] = "/etc/cron.d/job" /\
  within "/tmp/out" (Join ["/tmp/out"; slipName]) = false /\
  EvCopy "/etc/cron.d/job" "payload" ∈
    (extractFromZip goodEnv "a.zip" "/tmp/out" "").1 /\
  EvCopy "/etc/cron.d/job" "payload" ∈
    (extractFromZipPlain goodEnv "a.zip" "/tmp/out").1.
Proof.
  split; [|split; [|split; [|split; [|split; [|split]]]]].
  - intros env opener target before file after data evs Hbefore Hdir Hopen.
    destruct (extractLoop_destination env opener target file after data Hdir Hopen)
      as (rest & Heq & Hcopy).
    exists rest. split; [|done].
    rewrite (extractLoop_app _ _ _ _ _ _ Hbefore), <- Heq. reflexivity.
  - intros. split; reflexivity.
  - vm_compute. apply elem_of_cons. by left.
  - vm_compute. reflexivity.
  - vm_compute. reflexivity.
  - vm_compute. repeat (apply elem_of_cons; first [by left | right]).
  - vm_compute. repeat (apply elem_of_cons; first [by left | right]).
Qed.

Lemma extraction_writes_outside_target_witness :
  exists rest,
    (extractLoop goodEnv Open "/tmp/out"
       (take 2 slipArchive ++ drop 2 slipArchive)).1 =
      [EvMkdirAll "/tmp/out/docs" 493; EvMkdirAll "/tmp/out/docs" 493;
       EvOpenFile "/tmp/out/docs/readme.txt" 420;
       EvCopy "/tmp/out/docs/readme.txt" "hello"] ++
      EvMkdirAll (Dir (Join ["/tmp/out"; slipName])) 493 ::
      EvOpenFile (Join ["/tmp/out"; slipName]) 420 :: rest.
Proof.
  destruct extraction_writes_outside_target as (Hany & _).
  destruct (Hany goodEnv Open "/tmp/out" (take 2 slipArchive)
              (mkFile slipName false 420 false (Ok "payload") (fun _ => Ok "payload"))
              [] "payload"
              [EvMkdirAll "/tmp/out/docs" 493; EvMkdirAll "/tmp/out/docs" 493;
               EvOpenFile "/tmp/out/docs/readme.txt" 420;
               EvCopy "/tmp/out/docs/readme.txt" "hello"])
    as (rest & Heq & _).
  - vm_compute. reflexivity.
  - reflexivity.
  - reflexivity.
  - exists rest. exact Heq.
Defined.

End Extraction.

(** ** The authorization gate *)

Section Gate.
Import Filepath Client ClientSamples.

Abbreviation quiet := (Forall (fun ev => archiveWork ev = false)).
Abbreviation offline := (Forall (fun ev => isPost ev = false)).

Lemma filter_offline (evs : list Event) :
  offline evs -> filter (fun ev => isPost ev = true) evs = [].
Proof.
  induction 1 as [|ev evs Hev _ IH]; [done|].
  rewrite filter_cons_False by congruence. done.
Qed.

Lemma initKeyFile_events env :
  quiet (initKeyFile env).1 /\ offline (initKeyFile env).1.
Proof.
  unfold initKeyFile.
  destruct (MkdirAllKeyDir env); [|destruct (StatNotExist env);
    [destruct (CreateKeyFile env)|]]; simpl; split; repeat constructor.
Qed.

Lemma validateAuth_events env :
  quiet (validateAuth env).1 /\
  (length (filter (fun ev => isPost ev = true) (validateAuth env).1) <= 1)%nat.
Proof.
  unfold validateAuth.
  repeat (match goal with
          | |- context [match ?x with _ => _ end] => destruct x
          end; simpl);
    (split; [repeat constructor|]);
    rewrite ?filter_cons_True, ?filter_cons_False, ?filter_nil by done;
    simpl; lia.
Qed.

Lemma verifyServerCertificate_message resp e :
  verifyServerCertificate resp = Some e -> e <> "".
Proof.
  unfold verifyServerCertificate.
  destruct (TLS resp) as [tls|];
    [destruct (scanCertificates (PeerCertificates tls))|];
    intros He; try discriminate; injection He as <-; discriminate.
Qed.

(** Every error [validateAuth] returns carries a message. *)
Lemma validateAuth_error_message env e :
  (validateAuth env).2 = Some e -> e <> "".
Proof.
  unfold validateAuth.
  destruct (readAuthKey env) as [key|e1]; simpl;
    [|intros He; injection He as <-; discriminate].
  destruct (Marshal env key) as [jsonData|e2]; simpl;
    [|intros He; injection He as <-; discriminate].
  destruct (Post env AuthURL "application/json" jsonData) as [resp|e3]; simpl;
    [|intros He; injection He as <-; discriminate].
  destruct (verifyServerCertificate resp) as [e4|] eqn:Hcert; simpl.
  { intros He. injection He as <-. by eapply verifyServerCertificate_message. }
  destruct (Body resp) as [body|e5]; simpl;
    [|intros He; injection He as <-; discriminate].
  destruct (Unmarshal env body) as [status|e6]; simpl;
    [|intros He; injection He as <-; discriminate].
  destruct (status =? -1); simpl;
    [intros He; injection He as <-; discriminate|].
  destruct (status =? 1); simpl;
    [done|intros He; injection He as <-; discriminate].
Qed.

Lemma getPassword_offline env prompt : offline (getPassword env prompt).1.
Proof. unfold getPassword. destruct (ReadPassword env); repeat constructor. Qed.

Lemma askPassword_offline env question : offline (askPassword env question).1.
Proof.
  unfold askPassword. destruct (answersYes (StdinLine env)); [|repeat constructor].
  pose proof (getPassword_offline env "请输入密码: ") as Hg.
  destruct (getPassword env "请输入密码: ") as [evs [password|e]]; simpl in *.
  - repeat constructor. done.
  - repeat constructor. apply Forall_app. split; [done|repeat constructor].
Qed.

Lemma extractLoop_offline env opener target files :
  offline (extractLoop env opener target files).1.
Proof.
  induction files as [|file files IH]; simpl; [constructor|].
  destruct (extractLoop env opener target files) as [evs err].
  destruct (IsDir file); [by constructor|].
  destruct (opener file); [|constructor].
  destruct (OpenFile env _); [repeat constructor|].
  destruct (Copy env _); repeat constructor. done.
Qed.

Lemma extractWith_offline env opener source target :
  offline (extractWith env opener source target).1.
Proof.
  unfold extractWith. destruct (OpenReader env source) as [files|e].
  - pose proof (extractLoop_offline env opener target files) as Hl.
    destruct (extractLoop env opener target files) as [evs err].
    repeat constructor. done.
  - repeat constructor.
Qed.

Lemma runCommand_offline env : offline (runCommand env).
Proof.
  unfold runCommand, usage.
  destruct (Args env) as [|a0 [|command rest]]; try (repeat constructor).
  destruct (String.eqb command "compress").
  - destruct rest as [|source [|target rest]]; try (repeat constructor).
    pose proof (askPassword_offline env "是否需要密码保护? (y/n): ") as Ha.
    destruct (askPassword env "是否需要密码保护? (y/n): ") as [evs [password|]];
      simpl in *; [|done].
    apply Forall_app. split; [done|].
    destruct (compressToZip env source target password); repeat constructor.
  - destruct (String.eqb command "extract"); [|repeat constructor].
    destruct rest as [|source [|target rest]]; try (repeat constructor).
    pose proof (askPassword_offline env "该压缩包是否有密码? (y/n): ") as Ha.
    destruct (askPassword env "该压缩包是否有密码? (y/n): ") as [evs [password|]];
      simpl in *; [|done].
    pose proof (extractWith_offline env (openEntry password) source target) as He.
    unfold extractFromZip.
    destruct (extractWith env (openEntry password) source target) as [ops err].
    simpl in He. apply Forall_app. split; [done|].
    apply Forall_app. split; [done|]. destruct err; repeat constructor.
Qed.

Lemma runCommandPlain_offline env : offline (runCommandPlain env).
Proof.
  unfold runCommandPlain, usage.
  destruct (Args env) as [|a0 [|command rest]]; try (repeat constructor).
  destruct (String.eqb command "compress").
  - destruct rest as [|source [|target rest]]; try (repeat constructor).
    destruct (compressToZip env source target ""); repeat constructor.
  - destruct (String.eqb command "extract"); [|repeat constructor].
    destruct rest as [|source [|target rest]]; try (repeat constructor).
    pose proof (extractWith_offline env Open source target) as He.
    unfold extractFromZipPlain.
    destruct (extractWith env Open source target) as [ops err].
    simpl in He. apply Forall_app. split; [done|].
    destruct err; repeat constructor.
Qed.

(** The shape of a run that the gate stops, and of one it lets pass. *)
Lemma mainWith_cases banner run env :
  match (initKeyFile env).2, (validateAuth env).2 with
  | Some e, _ =>
      mainWith banner run env =
        banner ++ (initKeyFile env).1 ++ [EvPrint ("❌ 初始化失败: " +:+ e +:+ nl)]
  | None, Some e =>
      mainWith banner run env =
        banner ++ (initKeyFile env).1 ++ (validateAuth env).1 ++
        [EvPrint ("❌ " +:+ e +:+ nl)]
  | None, None =>
      mainWith banner run env =
        banner ++ (initKeyFile env).1 ++ (validateAuth env).1 ++ run env
  end.
Proof.
  unfold mainWith.
  destruct (initKeyFile env) as [evs1 [e1|]]; simpl; [done|].
  destruct (validateAuth env) as [evs2 [e2|]]; simpl; done.
Qed.

Lemma mainWith_stopped banner run env :
  quiet banner ->
  (initKeyFile env).2 <> None \/ (validateAuth env).2 <> None ->
  quiet (mainWith banner run env).
Proof.
  intros Hb Hstop.
  pose proof (mainWith_cases banner run env) as Hm.
  destruct (initKeyFile_events env) as [Hq1 _].
  destruct (validateAuth_events env) as [Hq2 _].
  destruct ((initKeyFile env).2) as [e1|].
  - rewrite Hm. repeat (apply Forall_app; split; try done). repeat constructor.
  - destruct ((validateAuth env).2) as [e2|].
    + rewrite Hm. repeat (apply Forall_app; split; try done). repeat constructor.
    + by destruct Hstop.
Qed.

Lemma mainWith_posts banner run env :
  offline banner -> offline (run env) ->
  (length (filter (fun ev => isPost ev = true) (mainWith banner run env)) <= 1)%nat.
Proof.
  intros Hb Hr.
  pose proof (mainWith_cases banner run env) as Hm.
  destruct (initKeyFile_events env) as [_ Ho1].
  destruct (validateAuth_events env) as [_ Hp2].
  destruct ((initKeyFile env).2) as [e1|]; [|destruct ((validateAuth env).2) as [e2|]];
    rewrite Hm, !filter_app, !length_app,
      (filter_offline _ Hb), (filter_offline _ Ho1);
    rewrite ?(filter_offline _ Hr); simpl;
    rewrite ?filter_cons_False, ?filter_nil by done; simpl; lia.
Qed.

Lemma main_banner_plain :
  quiet [Println "XZip 商业压缩软件 v1.0"; Println "================================="] /\
  offline [Println "XZip 商业压缩软件 v1.0"; Println "================================="] /\
  quiet [Println "XZip 商业压缩软件 v1.0 (无密码版本)";
         Println "================================="] /\
  offline [Println "XZip 商业压缩软件 v1.0 (无密码版本)";
           Println "================================="].
Proof. repeat split; repeat constructor. Qed.

(** C8. The authorization step returns [nil] exactly when the key was
    read, the request sent, the server's identity verified, the response
    read and parsed, and its status is 1.  In every other case it returns
    an error with a message, and [main] of either client prints it and
    returns: its whole run is the banner, the key file set-up, the events
    of the failed authorization and that one line, with nothing done to
    any archive.  Conversely any archive work in a run of [main] comes
    after a successful authorization, and no run sends more than one
    authorization request. *)
Theorem gate_precedes_archive_work env :
  ((validateAuth env).2 = None <->
   exists data jsonData resp body,
     ReadKeyFile env = Ok data /\
     Marshal env (TrimSpace env data) = Ok jsonData /\
     Post env AuthURL "application/json" jsonData = Ok resp /\
     verifyServerCertificate resp = None /\
     Body resp = Ok body /\
     Unmarshal env body = Ok 1) /\
  (forall e,
     (validateAuth env).2 = Some e ->
     e <> "" /\
     quiet (main env) /\ quiet (mainPlain env) /\
     ((initKeyFile env).2 = None ->
      main env =
        [Println "XZip 商业压缩软件 v1.0"; Println "================================="] ++
        (initKeyFile env).1 ++ (validateAuth env).1 ++
        [EvPrint ("❌ " +:+ e +:+ nl)])) /\
  (forall ev,
     ev ∈ main env \/ ev ∈ mainPlain env -> archiveWork ev = true ->
     (initKeyFile env).2 = None /\ (validateAuth env).2 = None) /\
  (length (filter (fun ev => isPost ev = true) (main env)) <= 1)%nat /\
  (length (filter (fun ev => isPost ev = true) (mainPlain env)) <= 1)%nat.
Proof.
  destruct main_banner_plain as (Hq1 & Ho1 & Hq2 & Ho2).
  split; [apply validateAuth_success|].
  split; [|split; [|split]].
  - intros e He. split; [by eapply validateAuth_error_message|].
    split; [|split].
    + apply mainWith_stopped; [done|]. right. congruence.
    + apply mainWith_stopped; [done|]. right. congruence.
    + intros Hinit. unfold main.
      pose proof (mainWith_cases
        [Println "XZip 商业压缩软件 v1.0"; Println "================================="]
        runCommand env) as Hm.
      rewrite Hinit, He in Hm. exact Hm.
  - intros ev Hev Hwork.
    destruct ((initKeyFile env).2) as [e1|] eqn:Hinit.
    + assert (Hq : quiet (main env) /\ quiet (mainPlain env)).
      { split; apply mainWith_stopped; try done; left; congruence. }
      destruct Hq as [Hqa Hqb]. rewrite Forall_forall in Hqa, Hqb.
      destruct Hev as [Hev|Hev]; [apply Hqa in Hev|apply Hqb in Hev]; congruence.
    + destruct ((validateAuth env).2) as [e2|] eqn:Hauth; [|done].
      assert (Hq : quiet (main env) /\ quiet (mainPlain env)).
      { split; apply mainWith_stopped; try done; right; congruence. }
      destruct Hq as [Hqa Hqb]. rewrite Forall_forall in Hqa, Hqb.
      destruct Hev as [Hev|Hev]; [apply Hqa in Hev|apply Hqb in Hev]; congruence.
  - apply mainWith_posts; [done|apply runCommand_offline].
  - apply mainWith_posts; [done|apply runCommandPlain_offline].
Qed.

Lemma gate_precedes_archive_work_witness :
  "服务器证书域名验证失败，请确保连接到正确的xzip.com服务器" <> "" /\
  quiet (main wrongHostEnv) /\ quiet (mainPlain wrongHostEnv) /\
  ((initKeyFile wrongHostEnv).2 = None ->
   main wrongHostEnv =
     [Println "XZip 商业压缩软件 v1.0"; Println "================================="] ++
     (initKeyFile wrongHostEnv).1 ++ (validateAuth wrongHostEnv).1 ++
     [EvPrint ("❌ " +:+ "服务器证书域名验证失败，请确保连接到正确的xzip.com服务器"
               +:+ nl)]).
Proof.
  destruct (gate_precedes_archive_work wrongHostEnv) as (_ & Hfail & _).
  apply Hfail. reflexivity.
Defined.

(** ** The key file *)

(** When the key file is missing [main] creates it empty, tells the user
    to write the key into it and returns with nothing else done. *)
Lemma main_missing_key_file env :
  MkdirAllKeyDir env = None -> StatNotExist env = true ->
  CreateKeyFile env = None ->
  main env =
    [Println "XZip 商业压缩软件 v1.0"; Println "=================================";
     EvMkdirAll (Dir (getKeyFilePath env)) 448;
     EvCreate (getKeyFilePath env);
     EvPrint ("已创建key文件: " +:+ getKeyFilePath env +:+ nl);
     Println "请将您的授权key写入此文件";
     EvPrint ("❌ 初始化失败: " +:+ "key文件为空，请先配置授权key" +:+ nl)].
Proof.
  intros Hmk Hstat Hcreate. unfold main, mainWith, initKeyFile.
  rewrite Hmk, Hstat, Hcreate. reflexivity.
Qed.

(** When the key file exists [initKeyFile] succeeds without reading it:
    whatever the file holds, the run goes on to the authorization. *)
Lemma initKeyFile_existing env :
  MkdirAllKeyDir env = None -> StatNotExist env = false ->
  initKeyFile env = ([EvMkdirAll (Dir (getKeyFilePath env)) 448], None).
Proof. intros Hmk Hstat. unfold initKeyFile. by rewrite Hmk, Hstat. Qed.

(** C10, for a key file that exists and is empty.  [initKeyFile] returns
    [nil]; the empty key is sent to the authorization endpoint; when the
    endpoint accepts, the archive is extracted, and when it rejects the
    only message is the one about buying a key.  In neither run is the
    user told to write the key into the key file. *)
Theorem empty_key_file_is_not_refused :
  ReadKeyFile emptyKeyEnv = Ok "" /\
  initKeyFile emptyKeyEnv = ([EvMkdirAll "/home/u/.xzip" 448], None) /\
  EvPost true AuthURL "application/json" (jsonRequest "") ∈ main emptyKeyEnv /\
  EvCopy "/tmp/out/docs/readme.txt" "hello" ∈ main emptyKeyEnv /\
  (Println "请将您的授权key写入此文件" ∉ main emptyKeyEnv) /\
  main emptyKeyRejectedEnv =
    [Println "XZip 商业压缩软件 v1.0"; Println "=================================";
     EvMkdirAll "/home/u/.xzip" 448;
     EvPost true AuthURL "application/json" (jsonRequest "");
     EvPrint ("❌ " +:+ "授权失败: 请到 https://xzip.com 购买正版key来正常使用软件"
               +:+ nl)].
Proof.
  split; [reflexivity|]. split; [vm_compute; reflexivity|].
  split; [|split; [|split]].
  - vm_compute. repeat (apply elem_of_cons; first [by left | right]).
  - vm_compute. repeat (apply elem_of_cons; first [by left | right]).
  - intros Hin. vm_compute in Hin.
    repeat (apply elem_of_cons in Hin as [Hin|Hin]; [discriminate|]).
    by apply elem_of_nil in Hin.
  - vm_compute. reflexivity.
Qed.

End Gate.

(** * Further properties of the server *)

Section ValidationMore.
Import Server Samples Handlers.

Implicit Types (db : Registry) (r : KeyInfo) (key k : string) (now : Time).

Lemma validateKey_cases db now key :
  (exists r, db !! key = Some r /\ passes now r /\
             validateKey db now key = (ACCEPT, <[key := bump r]> db)) \/
  ((forall r, db !! key = Some r -> ~ passes now r) /\
   validateKey db now key = (REJECT, db)).
Proof.
  unfold validateKey, passes, After.
  destruct (db !! key) as [r|] eqn:Hk; [|right; split; [done|done]].
  destruct (Valid r) eqn:Hv; simpl.
  - destruct (Z.ltb_spec (ExpiresAt r) now) as [Hexp|Hexp].
    + right. split; [|done]. intros r' Heq (_ & Hle & _). injection Heq as <-. lia.
    + destruct (Z.geb_spec (UsageCount r) (MaxUsage r)) as [Hmax|Hmax].
      * right. split; [|done]. intros r' Heq (_ & _ & Hlt). injection Heq as <-. lia.
      * left. exists r. repeat split; auto.
  - right. split; [|done]. intros r' Heq (Hv' & _). injection Heq as <-. congruence.
Qed.

(** X1. A call is accepted exactly when the key is known, enabled, not past
    its expiry time and below its quota; in every other case it is
    rejected, and a rejected call leaves the registry as it was. *)
Theorem validateKey_decision db now key :
  ((validateKey db now key).1 = ACCEPT <->
   exists r, db !! key = Some r /\ Valid r = true /\
             now <= ExpiresAt r /\ UsageCount r < MaxUsage r) /\
  ((validateKey db now key).1 = REJECT <->
   forall r, db !! key = Some r ->
             Valid r = false \/ ExpiresAt r < now \/ MaxUsage r <= UsageCount r) /\
  ((validateKey db now key).1 = REJECT -> (validateKey db now key).2 = db).
Proof.
  destruct (validateKey_cases db now key)
    as [(r & Hk & (Hv & Hexp & Hlt) & ->)|[Hno ->]]; simpl.
  - split; [|split].
    + split; [|done]. intros _. by exists r.
    + split; [done|]. intros Hall. destruct (Hall r Hk) as [H|[H|H]].
      * congruence.
      * lia.
      * lia.
    + done.
  - split; [|split].
    + split; [done|]. intros (r & Hk & Hv & Hexp & Hlt).
      destruct (Hno r Hk). by repeat split.
    + split; [|done]. intros _ r Hk. specialize (Hno r Hk). unfold passes in Hno.
      destruct (Valid r); [|by left]. right.
      destruct (Z_lt_le_dec (ExpiresAt r) now); [by left|right].
      destruct (Z_le_gt_dec (MaxUsage r) (UsageCount r)); [done|].
      destruct Hno. repeat split; auto; lia.
    + done.
Qed.

(** X2. A call touches no record but the one of its key, and neither adds
    nor removes a key. *)
Theorem validateKey_frame db now key :
  dom (validateKey db now key).2 = dom db /\
  size (validateKey db now key).2 = size db /\
  (forall k, k <> key -> (validateKey db now key).2 !! k = db !! k).
Proof.
  destruct (validateKey_cases db now key)
    as [(r & Hk & _ & ->)|[_ ->]]; simpl; [|done].
  assert (Hdom : dom (<[key := bump r]> db) = dom db).
  { apply dom_insert_lookup_L. by exists r. }
  split; [done|]. split.
  - by rewrite <- !size_dom, Hdom.
  - intros k Hne. by rewrite lookup_insert_ne.
Qed.

(** What a call keeps of any record, machine integers or not: the
    enablement flag, the expiry time and the ceiling, and the whole record
    once the counter has reached the ceiling. *)
Lemma validateKey_keeps db now key k r :
  db !! k = Some r ->
  exists r', (validateKey db now key).2 !! k = Some r' /\
    Valid r' = Valid r /\ ExpiresAt r' = ExpiresAt r /\
    MaxUsage r' = MaxUsage r /\
    (MaxUsage r <= UsageCount r -> r' = r).
Proof.
  intros Hk.
  destruct (validateKey_cases db now key)
    as [(r0 & Hk0 & (_ & _ & Hlt) & ->)|[_ ->]]; simpl; [|by exists r].
  destruct (decide (key = k)) as [->|Hne].
  - rewrite Hk in Hk0. injection Hk0 as <-. rewrite lookup_insert_eq.
    exists (bump r). repeat split; auto. lia.
  - rewrite lookup_insert_ne by done. by exists r.
Qed.

Lemma validateAll_keeps calls : forall db k r,
  db !! k = Some r ->
  exists r', (validateAll db calls).2 !! k = Some r' /\
    Valid r' = Valid r /\ ExpiresAt r' = ExpiresAt r /\
    MaxUsage r' = MaxUsage r /\
    (MaxUsage r <= UsageCount r -> r' = r).
Proof.
  induction calls as [|[key now] calls IH]; intros db k r Hk; simpl.
  - by exists r.
  - destruct (validateKey_keeps db now key k r Hk)
      as (r1 & Hk1 & Hv1 & He1 & Hm1 & Hfull1).
    destruct (validateKey db now key) as [st db1]. simpl in Hk1.
    destruct (IH db1 k r1 Hk1) as (r2 & Hk2 & Hv2 & He2 & Hm2 & Hfull2).
    destruct (validateAll db1 calls) as [sts db2]. simpl in *.
    exists r2. split; [done|]. repeat split; try congruence.
    intros Hfull. specialize (Hfull1 Hfull). subst r1. auto.
Qed.

Lemma validateAll_absent calls : forall db k,
  db !! k = None -> (validateAll db calls).2 !! k = None.
Proof.
  induction calls as [|[key now] calls IH]; intros db k Hk; simpl; [done|].
  pose proof (validateKey_absent db now key k Hk) as Hk1.
  destruct (validateKey db now key) as [st db1]. simpl in Hk1.
  specialize (IH db1 k Hk1). by destruct (validateAll db1 calls).
Qed.

(** X3. Rejection is permanent: a key rejected at some time is rejected at
    every later time, whatever validation calls, on this key or others
    and at whatever times, have been served in between. *)
Theorem rejection_is_permanent db now key calls now' :
  (validateKey db now key).1 = REJECT ->
  now <= now' ->
  validateKey (validateAll db calls).2 now' key =
    (REJECT, (validateAll db calls).2).
Proof.
  intros Hrej Hlater.
  destruct (validateKey_cases db now key)
    as [(r & Hk & _ & Hcall)|[Hno _]].
  { rewrite Hcall in Hrej. done. }
  destruct (validateKey_cases (validateAll db calls).2 now' key)
    as [(r' & Hk' & (Hv' & Hexp' & Hlt') & _)|[_ Hcall]]; [|done].
  exfalso. destruct (db !! key) as [r|] eqn:Hk.
  - destruct (validateAll_keeps calls db key r Hk)
      as (r2 & Hk2 & Hv2 & He2 & Hm2 & Hfull2).
    rewrite Hk' in Hk2. injection Hk2 as <-.
    destruct (Z_le_gt_dec (MaxUsage r) (UsageCount r)) as [Hfull|Hroom].
    + rewrite (Hfull2 Hfull) in Hlt'. lia.
    + apply (Hno r eq_refl). unfold passes. repeat split; try congruence; lia.
  - rewrite (validateAll_absent calls db key Hk) in Hk'. done.
Qed.

Lemma rejection_is_permanent_witness :
  validateKey (validateAll full_db [("k1", 5); ("k2", 1); ("k1", 50)]).2 60 "k1" =
    (REJECT, (validateAll full_db [("k1", 5); ("k2", 1); ("k1", 50)]).2).
Proof.
  apply (rejection_is_permanent full_db 10 "k1"
           [("k1", 5); ("k2", 1); ("k1", 50)] 60).
  - reflexivity.
  - lia.
Defined.

End ValidationMore.

Section UsageAccounting.
Import Server Samples Handlers.

Implicit Types (db : Registry) (r : KeyInfo) (key k : string) (now : Time).

Lemma sum_usage_insert db k r r' :
  db !! k = Some r ->
  sum_usage (<[k := r']> db) = sum_usage db - UsageCount r + UsageCount r'.
Proof.
  intros Hk. unfold sum_usage.
  assert (H1 : map_to_list (<[k := r']> db) ≡ₚ (k, r') :: map_to_list (delete k db)).
  { rewrite <- insert_delete_eq. apply map_to_list_insert, lookup_delete_eq. }
  assert (H2 : map_to_list db ≡ₚ (k, r) :: map_to_list (delete k db)).
  { symmetry. by apply map_to_list_delete. }
  rewrite (sum_usage_order _ _ H1), (sum_usage_order _ _ H2). simpl. lia.
Qed.

(** The usage total of the loop does not depend on the clock. *)
Lemma statsLoop_total clock (rs : list KeyInfo) : forall v u tick,
  (foldl (statsStep clock) (v, GoInt.wrap u, tick) rs).1.2 =
    GoInt.wrap (u + foldr Z.add 0 (UsageCount <$> rs)).
Proof.
  induction rs as [|r rs IH]; intros v u tick; simpl.
  - by rewrite Z.add_0_r.
  - unfold GoInt.add. rewrite wrap_add_l.
    destruct (Valid r); [destruct (Before (clock tick) (ExpiresAt r))|];
      rewrite IH; f_equal; unfold fmap; lia.
Qed.

Lemma statsHandler_total db order clock :
  order ≡ₚ map_to_list db ->
  total_usage (statsHandler db order clock) = GoInt.wrap (sum_usage db).
Proof.
  intros Hperm. unfold statsHandler.
  pose proof (statsLoop_total clock order.*2 0 0 0%nat) as Hloop.
  change (GoInt.wrap 0) with 0 in Hloop.
  destruct (foldl (statsStep clock) (0, 0, 0%nat) order.*2) as [[v u] tick].
  simpl in *. rewrite Hloop. unfold sum_usage.
  by rewrite (sum_usage_order _ _ Hperm).
Qed.

Lemma validateKey_all_wf db now key :
  all_wf db -> all_wf (validateKey db now key).2.
Proof.
  intros Hwf k r' Hk'.
  destruct (db !! k) as [r|] eqn:Hk.
  - destruct (validateKey_record db now key k r Hk (Hwf k r Hk))
      as (r1 & Hk1 & Hwf1 & _).
    rewrite Hk' in Hk1. by injection Hk1 as <-.
  - rewrite (validateKey_absent db now key k Hk) in Hk'. done.
Qed.

Lemma validateKey_sum db now key :
  all_wf db ->
  sum_usage (validateKey db now key).2 =
    sum_usage db + accepts [(validateKey db now key).1].
Proof.
  intros Hwf. unfold accepts.
  destruct (validateKey_cases db now key)
    as [(r & Hk & (_ & _ & Hlt) & ->)|[_ ->]].
  - rewrite filter_cons_True by done.
    change ((ACCEPT, <[key := bump r]> db).2) with (<[key := bump r]> db).
    rewrite (sum_usage_insert db key r (bump r) Hk).
    destruct (Hwf key r Hk) as [Hu Hm]. simpl.
    rewrite (incr_below _ _ Hu Hm Hlt). lia.
  - rewrite filter_cons_False by done. simpl. lia.
Qed.

(** X4. The usage total grows by exactly the number of accepted calls: after
    any sequence of validations the sum of all usage counts, and with it
    the [total_usage] the statistics report, is the sum before plus the
    number of calls that returned ACCEPT. *)
Theorem usage_counts_accepted_calls db calls order clock :
  all_wf db ->
  order ≡ₚ map_to_list (validateAll db calls).2 ->
  GoInt.in_range (sum_usage (validateAll db calls).2) ->
  sum_usage (validateAll db calls).2 =
    sum_usage db + accepts (validateAll db calls).1 /\
  total_usage (statsHandler (validateAll db calls).2 order clock) =
    sum_usage db + accepts (validateAll db calls).1.
Proof.
  intros Hwf Hperm Hrange.
  assert (Hsum : sum_usage (validateAll db calls).2 =
                 sum_usage db + accepts (validateAll db calls).1).
  { clear Hperm Hrange. revert db Hwf.
    induction calls as [|[key now] calls IH]; intros db Hwf; simpl.
    - unfold accepts. simpl. lia.
    - pose proof (validateKey_sum db now key Hwf) as Hone.
      pose proof (validateKey_all_wf db now key Hwf) as Hwf1.
      destruct (validateKey db now key) as [st db1]. simpl in Hone, Hwf1.
      specialize (IH db1 Hwf1).
      destruct (validateAll db1 calls) as [sts db2]. simpl in *.
      rewrite IH, Hone. unfold accepts.
      destruct (decide (st = ACCEPT)) as [Hst|Hst].
      + rewrite !filter_cons_True by done. simpl. lia.
      + rewrite !filter_cons_False by done. simpl. lia. }
  split; [done|].
  rewrite (statsHandler_total _ _ _ Hperm), wrap_id by done. done.
Qed.

Lemma usage_counts_accepted_calls_witness :
  sum_usage (validateAll demo_db [("k1", 5); ("k2", 6); ("k1", 7); ("k1", 8)]).2 =
    sum_usage demo_db +
    accepts (validateAll demo_db [("k1", 5); ("k2", 6); ("k1", 7); ("k1", 8)]).1 /\
  total_usage
    (statsHandler (validateAll demo_db [("k1", 5); ("k2", 6); ("k1", 7); ("k1", 8)]).2
       (map_to_list (validateAll demo_db
                       [("k1", 5); ("k2", 6); ("k1", 7); ("k1", 8)]).2)
       (fun _ => 9)) =
    sum_usage demo_db +
    accepts (validateAll demo_db [("k1", 5); ("k2", 6); ("k1", 7); ("k1", 8)]).1.
Proof.
  apply (usage_counts_accepted_calls demo_db
           [("k1", 5); ("k2", 6); ("k1", 7); ("k1", 8)]).
  - intros k r Hk. unfold demo_db in Hk.
    apply lookup_singleton_Some in Hk as [_ <-].
    unfold wf_KeyInfo, GoInt.in_range, GoInt.min_int, GoInt.max_int. simpl. lia.
  - reflexivity.
  - unfold GoInt.in_range. vm_compute. split; discriminate.
Defined.

End UsageAccounting.

Section KeyIssue.
Import Server Samples Handlers.

Implicit Types (db : Registry) (r : KeyInfo) (key k : string) (now : Time).

Lemma EncodeToString_length bytes :
  String.length (EncodeToString bytes) = (2 * length bytes)%nat.
Proof. induction bytes as [|b bytes IH]; simpl; [done|]. rewrite IH. lia. Qed.

Lemma unhex_hexDigit_byte b :
  unhexByte (hexDigit (Byte.to_N b / 16)) (hexDigit (Byte.to_N b mod 16)) = Some b.
Proof. destruct b; vm_compute; reflexivity. Qed.

Lemma DecodeString_EncodeToString bytes :
  DecodeString (EncodeToString bytes) = Some bytes.
Proof.
  induction bytes as [|b bytes IH]; simpl; [done|].
  rewrite unhex_hexDigit_byte, IH. done.
Qed.

Lemma hexDigit_is_hex n : isHexDigit (hexDigit n) = true.
Proof.
  unfold hexDigit. generalize (N.to_nat n). intros m.
  do 16 (destruct m as [|m]; [reflexivity|]). by destruct m.
Qed.

(** X5. A generated key is twice as long as the random bytes it is made
    from (32 characters for the 16 the server draws), consists of the
    digits [0-9a-f] only, and decodes back to the bytes: different bytes
    give different keys. *)
Theorem generateRandomKey_format bytes bytes' :
  String.length (generateRandomKey bytes) = (2 * length bytes)%nat /\
  Forall (fun c => isHexDigit c = true)
         (String.list_ascii_of_string (generateRandomKey bytes)) /\
  DecodeString (generateRandomKey bytes) = Some bytes /\
  (generateRandomKey bytes = generateRandomKey bytes' -> bytes = bytes').
Proof.
  unfold generateRandomKey.
  split; [apply EncodeToString_length|]. split; [|split].
  - induction bytes as [|b bytes IH]; simpl; [constructor|].
    constructor; [apply hexDigit_is_hex|].
    constructor; [apply hexDigit_is_hex|done].
  - apply DecodeString_EncodeToString.
  - intros Heq.
    pose proof (DecodeString_EncodeToString bytes) as H1.
    rewrite Heq, DecodeString_EncodeToString in H1. congruence.
Qed.

End KeyIssue.

Section HandlerContracts.
Import Server Samples Handlers.

Implicit Types (db : Registry) (r : KeyInfo) (key k : string) (now : Time).
Implicit Types (req : Request).

(** X6. The authorization endpoint.  Every answer carries the permissive
    CORS headers.  OPTIONS is answered with 200 and no body, any other
    method but POST with 405; a POST is answered with 200 and a status
    that is 1 or -1: -1 for a body that does not decode, and otherwise
    what [validateKey] returns for the decoded key.  The registry changes
    only when a POST with a decodable body is accepted, and then only in
    the record of that key. *)
Theorem authorizeHandler_contract db now req :
  let '(resp, db', _) := authorizeHandler db now req in
  Header resp !! "Access-Control-Allow-Origin" = Some "*" /\
  Header resp !! "Access-Control-Allow-Methods" = Some "POST, GET, OPTIONS" /\
  Header resp !! "Access-Control-Allow-Headers" = Some "Content-Type" /\
  (Method req = "OPTIONS" -> Code resp = 200 /\ Sent resp = NoBody /\ db' = db) /\
  (Method req <> "OPTIONS" -> Method req <> "POST" ->
   Code resp = 405 /\ Sent resp = ErrorText "仅支持POST方法" /\ db' = db) /\
  (Method req = "POST" ->
   Code resp = 200 /\
   Header resp !! "Content-Type" = Some "application/json" /\
   match Decoded req with
   | Client.Err _ => Sent resp = AuthStatus REJECT /\ db' = db
   | Client.Ok key =>
       Sent resp = AuthStatus (validateKey db now key).1 /\
       db' = (validateKey db now key).2
   end) /\
  (db' <> db ->
   exists key r, Method req = "POST" /\ Decoded req = Client.Ok key /\
     db !! key = Some r /\ passes now r /\ db' = <[key := bump r]> db).
Proof.
  unfold authorizeHandler.
  destruct (String.eqb_spec (Method req) "OPTIONS") as [Hopt|Hopt].
  { simpl. repeat apply conj; try done.
    intros Hpost. rewrite Hopt in Hpost. discriminate. }
  destruct (String.eqb_spec (Method req) "POST") as [Hpost|Hpost]; simpl.
  2:{ repeat apply conj; done. }
  destruct (Decoded req) as [key|e] eqn:Hdec.
  2:{ repeat apply conj; done. }
  destruct (validateKey db now key) as [status db1] eqn:Hcall.
  repeat apply conj; try done.
  intros Hne.
  destruct (validateKey_cases db now key)
    as [(r & Hk & Hpass & Hacc)|[_ Hrej]].
  - exists key, r. rewrite Hcall in Hacc. injection Hacc as _ ->. done.
  - rewrite Hcall in Hrej. injection Hrej as _ ->. done.
Qed.

(** X7. All causes of rejection look the same on the wire: for two POST
    requests that are both rejected, whatever the reasons (unknown key,
    disabled, expired, quota used up, body not decodable), the answers
    are equal and the registry is unchanged; only the log lines tell
    them apart. *)
Theorem rejections_are_indistinguishable db now req1 req2 :
  Method req1 = "POST" -> Method req2 = "POST" ->
  Sent (authorizeHandler db now req1).1.1 = AuthStatus REJECT ->
  Sent (authorizeHandler db now req2).1.1 = AuthStatus REJECT ->
  (authorizeHandler db now req1).1.1 = (authorizeHandler db now req2).1.1 /\
  (authorizeHandler db now req1).1.2 = db /\
  (authorizeHandler db now req2).1.2 = db.
Proof.
  assert (Hone : forall req, Method req = "POST" ->
            Sent (authorizeHandler db now req).1.1 = AuthStatus REJECT ->
            (authorizeHandler db now req).1.1 =
              mkHttpResponse 200 corsHeaders (AuthStatus REJECT) /\
            (authorizeHandler db now req).1.2 = db).
  { intros req Hpost. unfold authorizeHandler. rewrite Hpost. simpl.
    destruct (Decoded req) as [key|e]; [|done].
    destruct (validateKey_cases db now key)
      as [(r & _ & _ & ->)|[_ ->]]; simpl; [|done].
    intros Hsent. injection Hsent as Hsent. discriminate. }
  intros Hp1 Hp2 Hs1 Hs2.
  destruct (Hone req1 Hp1 Hs1) as [-> ->].
  destruct (Hone req2 Hp2 Hs2) as [-> ->]. done.
Qed.

Lemma rejections_are_indistinguishable_witness :
  (authorizeHandler full_db 5 (mkRequest "POST" "10.0.0.1:99" "" (Client.Ok "k1"))).1.1 =
  (authorizeHandler full_db 5 (mkRequest "POST" "10.0.0.2:77" "10.9.9.9"
                                 (Client.Err "unexpected EOF"))).1.1 /\
  (authorizeHandler full_db 5 (mkRequest "POST" "10.0.0.1:99" "" (Client.Ok "k1"))).1.2
    = full_db /\
  (authorizeHandler full_db 5 (mkRequest "POST" "10.0.0.2:77" "10.9.9.9"
                                 (Client.Err "unexpected EOF"))).1.2 = full_db.
Proof.
  apply (rejections_are_indistinguishable full_db 5
           (mkRequest "POST" "10.0.0.1:99" "" (Client.Ok "k1"))
           (mkRequest "POST" "10.0.0.2:77" "10.9.9.9" (Client.Err "unexpected EOF")));
    reflexivity.
Defined.

(** While the quota lasts every call on an enabled key up to and
    including its expiry instant is accepted and counted. *)
Lemma validateAll_accepts_until times : forall db k r,
  db !! k = Some r -> wf_KeyInfo r -> Valid r = true ->
  Forall (fun now => now <= ExpiresAt r) times ->
  UsageCount r + Z.of_nat (length times) <= MaxUsage r ->
  validateAll db (calls_on k times) =
    (replicate (length times) ACCEPT,
     <[k := with_usage r (UsageCount r + Z.of_nat (length times))]> db).
Proof.
  induction times as [|now times IH]; intros db k r Hk Hwf Hv Hexp Hle.
  - simpl. f_equal. rewrite Z.add_0_r.
    symmetry. apply insert_id. rewrite Hk. by destruct r.
  - apply Forall_cons in Hexp as [Hnow Hexp].
    simpl length in *. simpl.
    rewrite (validateKey_ok db now k r) by (auto; lia).
    rewrite bump_with_usage by (auto; lia).
    rewrite (IH (<[k := with_usage r (UsageCount r + 1)]> db) k
                (with_usage r (UsageCount r + 1))).
    + simpl. rewrite insert_insert_eq. do 3 f_equal. lia.
    + apply lookup_insert_eq.
    + destruct Hwf as [Hu Hm]. split; [|done]. simpl.
      unfold GoInt.in_range in *. lia.
    + done.
    + done.
    + simpl. lia.
Qed.

(** X8. Adding a key.  Any method but POST gets 405 and changes nothing.  A
    POST stores the new key, leaving every other key alone, and answers
    with it; the key then validates 1000 times, at any time up to one
    year after the second clock reading, and is rejected the 1001st
    time.  The expiry the answer reports is computed from a later clock
    reading: it is never earlier than the one enforced, and when the
    clock has ticked in between, a call at the reported instant is
    rejected. *)
Theorem addKeyHandler_contract db bytes t1 t2 t3 req :
  let '(resp, db', _) := addKeyHandler db bytes t1 t2 t3 req in
  let key := generateRandomKey bytes in
  (Method req <> "POST" -> Code resp = 405 /\ db' = db) /\
  (Method req = "POST" ->
   Code resp = 200 /\
   Sent resp = NewKey key "新Key已生成" (t3 + 365 * 24 * Hour) /\
   db' !! key = Some (mkKeyInfo true t1 (t2 + 365 * 24 * Hour) 0 1000) /\
   (forall k, k <> key -> db' !! k = db !! k) /\
   (forall times,
      Forall (fun now => now <= t2 + 365 * 24 * Hour) times ->
      length times = 1001%nat ->
      (validateAll db' (calls_on key times)).1 =
        replicate 1000 ACCEPT ++ [REJECT]) /\
   (t2 <= t3 ->
    t2 + 365 * 24 * Hour <= t3 + 365 * 24 * Hour /\
    (t2 < t3 ->
     validateKey db' (t3 + 365 * 24 * Hour) key = (REJECT, db')))).
Proof.
  unfold addKeyHandler.
  destruct (String.eqb_spec (Method req) "POST") as [Hpost|Hpost]; simpl.
  2:{ split; [done|]. intros Heq. by destruct Hpost. }
  set (key := generateRandomKey bytes).
  assert (Hkey : addKey db key t1 t2 !! key = Some (issued t1 t2)).
  { unfold addKey. apply lookup_insert_eq. }
  assert (Hwf : wf_KeyInfo (issued t1 t2)).
  { unfold wf_KeyInfo, GoInt.in_range, GoInt.min_int, GoInt.max_int. simpl. lia. }
  split; [intros Hne; by destruct Hne|]. intros _.
  split; [done|]. split; [done|]. split; [exact Hkey|]. split.
  { intros k Hne. unfold addKey. by rewrite lookup_insert_ne. }
  split.
  - intros times Hexp Hlen.
    destruct (exists_last (l := times)) as (ts & t & ->).
    { intros ->. discriminate. }
    rewrite length_app in Hlen. simpl in Hlen.
    assert (Hts : length ts = 1000%nat) by lia.
    apply Forall_app in Hexp as [Hexp _].
    unfold calls_on. rewrite fmap_app, validateAll_app.
    fold (calls_on key ts).
    rewrite (validateAll_accepts_until ts _ key (issued t1 t2)); try done.
    + simpl. rewrite Hts.
      rewrite (validateKey_exhausted _ t key
                 (with_usage (issued t1 t2) (0 + Z.of_nat 1000))).
      * done.
      * apply lookup_insert_eq.
      * simpl. lia.
    + simpl. lia.
  - intros Hle. split; [lia|]. intros Hlt.
    apply (validateKey_expired _ _ key (issued t1 t2)); [done|].
    simpl. unfold Add. lia.
Qed.

(** X9. The test keys of start-up.  The disabled key is rejected at every
    time.  The valid key, when the two random keys differ, is accepted
    at any time up to a year after its clock reading; should the two
    keys coincide, the disabled record has replaced it. *)
Theorem initTestKeys_contract db testKey invalidKey t1 t2 t3 t4 now :
  let db' := initTestKeys db testKey invalidKey t1 t2 t3 t4 in
  validateKey db' now invalidKey = (REJECT, db') /\
  (testKey <> invalidKey -> now <= t2 + 365 * 24 * Hour ->
   (validateKey db' now testKey).1 = ACCEPT) /\
  (testKey = invalidKey -> validateKey db' now testKey = (REJECT, db')).
Proof.
  simpl. unfold initTestKeys.
  assert (Hinv : forall k, validateKey
            (<[k := issued_invalid t3 t4]> (<[testKey := issued t1 t2]> db)) now k =
            (REJECT, <[k := issued_invalid t3 t4]> (<[testKey := issued t1 t2]> db))).
  { intros k. apply validateKey_disabled with (issued_invalid t3 t4); [|done].
    apply lookup_insert_eq. }
  split; [apply Hinv|]. split.
  - intros Hne Hnow.
    rewrite (validateKey_ok _ now testKey (issued t1 t2)).
    + done.
    + rewrite lookup_insert_ne by done. apply lookup_insert_eq.
    + done.
    + simpl. unfold Add. lia.
    + simpl. lia.
  - intros ->. apply Hinv.
Qed.

Lemma Served_key_length db :
  Served db -> forall k, is_Some (db !! k) -> String.length k = 32%nat.
Proof.
  induction 1 as [|db b1 b2 t1 t2 t3 t4 _ IH Hb1 Hb2
                  |db bytes t1 t2 t3 req _ IH Hb
                  |db now req _ IH]; intros k Hk.
  - rewrite lookup_empty in Hk. by destruct Hk.
  - unfold initTestKeys in Hk.
    destruct (decide (generateRandomKey b2 = k)) as [<-|Hne2].
    { unfold generateRandomKey. rewrite EncodeToString_length. lia. }
    rewrite lookup_insert_ne in Hk by done.
    destruct (decide (generateRandomKey b1 = k)) as [<-|Hne1].
    { unfold generateRandomKey. rewrite EncodeToString_length. lia. }
    rewrite lookup_insert_ne in Hk by done. auto.
  - unfold addKeyHandler in Hk.
    destruct (negb (String.eqb (Method req) "POST")); simpl in Hk; [auto|].
    unfold addKey in Hk.
    destruct (decide (generateRandomKey bytes = k)) as [<-|Hne].
    { unfold generateRandomKey. rewrite EncodeToString_length. lia. }
    rewrite lookup_insert_ne in Hk by done. auto.
  - apply IH. unfold authorizeHandler in Hk.
    destruct (String.eqb (Method req) "OPTIONS"); [done|].
    destruct (negb (String.eqb (Method req) "POST")); [done|].
    destruct (Decoded req) as [key|e]; [|done].
    destruct Hk as [r Hk].
    destruct (db !! k) as [r0|] eqn:Hk0; [eauto|].
    pose proof (validateKey_absent db now key k Hk0) as Habs.
    destruct (validateKey db now key) as [st db1]. simpl in *. congruence.
Qed.

(** X10. Whatever the server has been asked so far, it holds only keys of 32
    characters; a request with any other key, for one the empty key a
    client with an empty key file sends, is answered with status -1 and
    changes nothing. *)
Theorem malformed_keys_are_rejected db now req key :
  Served db ->
  Method req = "POST" -> Decoded req = Client.Ok key ->
  String.length key <> 32%nat ->
  validateKey db now key = (REJECT, db) /\
  Sent (authorizeHandler db now req).1.1 = AuthStatus REJECT /\
  (authorizeHandler db now req).1.2 = db.
Proof.
  intros Hserved Hpost Hdec Hlen.
  assert (Hcall : validateKey db now key = (REJECT, db)).
  { apply validateKey_unknown.
    destruct (db !! key) as [r|] eqn:Hk; [|done].
    destruct Hlen. apply (Served_key_length db Hserved). eauto. }
  split; [done|].
  unfold authorizeHandler. rewrite Hpost, Hdec. simpl. by rewrite Hcall.
Qed.

Lemma malformed_keys_are_rejected_witness :
  validateKey (addKeyHandler ∅ (replicate 16 Byte.x2a) 0 0 0
                 (mkRequest "POST" "" "" (Client.Ok ""))).1.2 7 "" =
    (REJECT, (addKeyHandler ∅ (replicate 16 Byte.x2a) 0 0 0
                (mkRequest "POST" "" "" (Client.Ok ""))).1.2) /\
  Sent (authorizeHandler
          (addKeyHandler ∅ (replicate 16 Byte.x2a) 0 0 0
             (mkRequest "POST" "" "" (Client.Ok ""))).1.2 7
          (mkRequest "POST" "" "" (Client.Ok ""))).1.1 = AuthStatus REJECT /\
  (authorizeHandler
     (addKeyHandler ∅ (replicate 16 Byte.x2a) 0 0 0
        (mkRequest "POST" "" "" (Client.Ok ""))).1.2 7
     (mkRequest "POST" "" "" (Client.Ok ""))).1.2 =
  (addKeyHandler ∅ (replicate 16 Byte.x2a) 0 0 0
     (mkRequest "POST" "" "" (Client.Ok ""))).1.2.
Proof.
  apply (malformed_keys_are_rejected _ 7 (mkRequest "POST" "" "" (Client.Ok "")) "").
  - apply served_addKey; [constructor|reflexivity].
  - reflexivity.
  - reflexivity.
  - simpl. lia.
Defined.

End HandlerContracts.

(** * Concurrent validation is serializable *)

Section Serializable.
Import Server Concurrent Serial Samples.

Implicit Types (s : state) (t : thread) (p : pc) (d : Registry).

(** The move in which a call chooses its status does to the registry
    what [validateKey] does, and chooses what it returns. *)
Lemma decision_matches d l t d' l' ret :
  midway d t -> decided (t_pc t) = false ->
  thread_step d l t = Some (d', l', AtUnlock ret) ->
  validateKey d (t_now t) (t_key t) = (ret, d').
Proof.
  unfold midway, thread_step, validateKey. intros Hmid Hund Hts.
  destruct (t_pc t) eqn:Hpc; try done.
  - destruct l; done.
  - destruct (d !! t_key t) as [r|] eqn:Hr; [done|].
    by injection Hts as <- <- <-.
  - destruct Hmid as (r & Hr). rewrite Hr in *. simpl in Hts.
    destruct (negb (Valid r)); [|done]. by injection Hts as <- <- <-.
  - destruct Hmid as (r & Hr & Hv). rewrite Hr in *. simpl in Hts.
    rewrite Hv. simpl.
    destruct (After (t_now t) (ExpiresAt r)); [|done].
    by injection Hts as <- <- <-.
  - destruct Hmid as (r & Hr & Hv & Hexp). rewrite Hr in *. simpl in Hts.
    rewrite Hv, Hexp. simpl.
    destruct (UsageCount r >=? MaxUsage r); [|done].
    by injection Hts as <- <- <-.
  - destruct Hmid as (r & Hr & Hv & Hexp & Hroom). rewrite Hr in *.
    simpl in Hts. rewrite Hv, Hexp, Hroom. simpl.
    by injection Hts as <- <- <-.
Qed.

(** A move leaves the moving thread with what it has found out. *)
Lemma midway_step d l t d' l' p :
  midway d t -> thread_step d l t = Some (d', l', p) ->
  midway d' (set_pc t p).
Proof.
  unfold midway, thread_step. intros Hmid Hts.
  destruct (t_pc t) eqn:Hpc; simpl.
  - destruct l; [done|]. by injection Hts as <- <- <-.
  - destruct (d !! t_key t) as [r|] eqn:Hr; injection Hts as <- <- <-; eauto.
  - destruct Hmid as (r & Hr). rewrite Hr in *. simpl in Hts.
    injection Hts as <- <- <-. destruct (Valid r) eqn:Hv; simpl; eauto.
  - destruct Hmid as (r & Hr & Hv). rewrite Hr in *. simpl in Hts.
    injection Hts as <- <- <-.
    destruct (After (t_now t) (ExpiresAt r)) eqn:Hexp; simpl; eauto.
  - destruct Hmid as (r & Hr & Hv & Hexp). rewrite Hr in *. simpl in Hts.
    injection Hts as <- <- <-.
    destruct (UsageCount r >=? MaxUsage r) eqn:Hroom; simpl; eauto 10.
  - destruct Hmid as (r & Hr & _). rewrite Hr in *. simpl in Hts.
    by injection Hts as <- <- <-.
  - by injection Hts as <- <- <-.
  - done.
Qed.

(** Only the increment changes the registry. *)
Lemma step_db_change d l t d' l' p :
  thread_step d l t = Some (d', l', p) ->
  d' = d \/ (t_pc t = AtIncr /\ p = AtUnlock 1).
Proof.
  unfold thread_step. intros Hts.
  destruct (t_pc t); try done;
    repeat (match type of Hts with
            | context [d !! t_key t] => destruct (d !! t_key t); simpl in Hts
            | context [if ?b then _ else _] => destruct b
            end); try done; injection Hts as <- <- <-; auto.
Qed.

Lemma call_at_set_pc (ths : list thread) i t p j :
  ths !! i = Some t -> call_at (<[i := set_pc t p]> ths) j = call_at ths j.
Proof.
  intros Hi. unfold call_at. destruct (decide (j = i)) as [->|Hne].
  - rewrite (lookup_set_pc_same ths i t p Hi), Hi. done.
  - by rewrite list_lookup_insert_ne.
Qed.

Lemma ret_at_set_pc (ths : list thread) i t p j :
  ths !! i = Some t -> (j = i -> returned p = returned (t_pc t)) ->
  ret_at (<[i := set_pc t p]> ths) j = ret_at ths j.
Proof.
  intros Hi Hret. unfold ret_at. destruct (decide (j = i)) as [->|Hne].
  - rewrite (lookup_set_pc_same ths i t p Hi), Hi. simpl. auto.
  - by rewrite list_lookup_insert_ne.
Qed.

Lemma fmap_agree {A B} (f g : A -> B) (l : list A) :
  (forall x, x ∈ l -> f x = g x) -> f <$> l = g <$> l.
Proof.
  induction l as [|x l IH]; intros Hfg; simpl; [done|].
  rewrite (Hfg x) by (apply elem_of_cons; by left).
  f_equal. apply IH. intros y Hy. apply Hfg. apply elem_of_cons. by right.
Qed.

Lemma ser_inv_initial d calls : ser_inv d (initial d calls) [].
Proof.
  assert (Hall : forall j tj, spawn calls !! j = Some tj -> t_pc tj = AtLock).
  { intros j tj Hj. unfold spawn in Hj. rewrite list_lookup_fmap in Hj.
    destruct (calls !! j); simpl in Hj; [|done]. by injection Hj as <-. }
  constructor; simpl.
  - constructor.
  - intros i t Hi. rewrite (Hall i t Hi). simpl. split; [done|].
    intros H. by apply elem_of_nil in H.
  - done.
  - intros i t Hi. unfold midway. by rewrite (Hall i t Hi).
  - intros i Hin. by apply elem_of_nil in Hin.
Qed.

(** Every move keeps a serial history, longer by the moving call when
    the move is its decision. *)
Lemma ser_inv_step d0 s s' hist :
  mutex_inv s -> ser_inv d0 s hist -> step s s' ->
  exists hist', ser_inv d0 s' hist'.
Proof.
  intros Hmx Hser Hstep. destruct Hstep as [s i t d l p Hi Hts].
  pose proof (ser_mid _ _ _ Hser i t Hi) as Hmid.
  pose proof (midway_step _ _ _ _ _ _ Hmid Hts) as Hmid'.
  assert (Hothers : forall j tj, threads s !! j = Some tj -> j <> i ->
                      midway d tj).
  { intros j tj Hj Hne. pose proof (ser_mid _ _ _ Hser j tj Hj) as Hm.
    destruct (step_db_change _ _ _ _ _ _ Hts) as [->|[Hpc _]]; [done|].
    assert (Hout : in_cs (t_pc tj) = false).
    { apply (cs_alone s i t j tj); auto. by rewrite Hpc. }
    unfold midway. destruct (t_pc tj); done. }
  assert (Hmidall : forall j tj,
            <[i := set_pc t p]> (threads s) !! j = Some tj -> midway d tj).
  { intros j tj Hj.
    destruct (lookup_set_pc _ _ _ _ _ _ Hi Hj) as [[-> ->]|[Hne Hj']]; eauto. }
  destruct (decided (t_pc t)) eqn:Hdec.
  - (* the call had chosen before: it only unlocks *)
    assert (Hp : exists ret, t_pc t = AtUnlock ret /\ p = Done ret /\ d = db s).
    { unfold thread_step in Hts. destruct (t_pc t) eqn:Hpc; try done.
      injection Hts as <- <- <-. eauto. }
    destruct Hp as (ret & Hpc & -> & ->).
    exists hist. constructor; simpl.
    + apply (ser_nodup _ _ _ Hser).
    + intros j tj Hj.
      destruct (lookup_set_pc _ _ _ _ _ _ Hi Hj) as [[-> ->]|[Hne Hj']]; simpl.
      * rewrite <- (ser_hist _ _ _ Hser i t Hi), Hdec. done.
      * apply (ser_hist _ _ _ Hser j tj Hj').
    + rewrite (fmap_agree (call_at (<[i := set_pc t (Done ret)]> (threads s)))
                 (call_at (threads s)))
        by (intros; by apply call_at_set_pc).
      rewrite (fmap_agree (ret_at (<[i := set_pc t (Done ret)]> (threads s)))
                 (ret_at (threads s))).
      * apply (ser_run _ _ _ Hser).
      * intros j _. apply ret_at_set_pc; [done|]. intros _. by rewrite Hpc.
    + done.
    + intros j Hj. rewrite length_insert. by apply (ser_bound _ _ _ Hser).
  - destruct (decided p) eqn:Hdecp.
    + (* the call chooses now *)
      assert (Hp : exists ret, p = AtUnlock ret).
      { unfold thread_step in Hts.
        destruct (t_pc t) eqn:Hpc; try done;
          repeat (match type of Hts with
                  | context [db s !! t_key t] =>
                      destruct (db s !! t_key t); simpl in Hts
                  | context [if ?b then _ else _] => destruct b
                  end); try done; injection Hts as <- <- <-; try done; eauto. }
      destruct Hp as (ret & ->).
      pose proof (decision_matches _ _ _ _ _ _ Hmid Hdec Hts) as Hcall.
      assert (Hnew : i ∉ hist).
      { intros Hin. apply (ser_hist _ _ _ Hser i t Hi) in Hin. congruence. }
      exists (hist ++ [i]). constructor; simpl.
      * apply NoDup_app. split; [apply (ser_nodup _ _ _ Hser)|]. split.
        -- intros x Hx Hx'. apply list_elem_of_singleton in Hx'. by subst.
        -- apply NoDup_singleton.
      * intros j tj Hj. rewrite elem_of_app, list_elem_of_singleton.
        destruct (lookup_set_pc _ _ _ _ _ _ Hi Hj) as [[-> ->]|[Hne Hj']]; simpl.
        -- split; [by right|done].
        -- rewrite (ser_hist _ _ _ Hser j tj Hj'). split; [by left|].
           intros [H|H]; [done|by destruct Hne].
      * rewrite !fmap_app, validateAll_app.
        rewrite (fmap_agree (call_at (<[i := set_pc t (AtUnlock ret)]> (threads s)))
                   (call_at (threads s)))
          by (intros; by apply call_at_set_pc).
        rewrite (fmap_agree (ret_at (<[i := set_pc t (AtUnlock ret)]> (threads s)))
                   (ret_at (threads s))).
        2:{ intros j Hj. apply ret_at_set_pc; [done|]. intros ->. done. }
        rewrite (ser_run _ _ _ Hser). simpl.
        rewrite call_at_set_pc by done. unfold call_at at 1. rewrite Hi. simpl.
        rewrite Hcall. unfold ret_at.
        rewrite (lookup_set_pc_same _ i t _ Hi). done.
      * done.
      * intros j Hj. rewrite length_insert.
        apply elem_of_app in Hj as [Hj|Hj].
        -- by apply (ser_bound _ _ _ Hser).
        -- apply list_elem_of_singleton in Hj as ->. by eapply lookup_lt_Some.
    + (* a move before the decision *)
      assert (Hd : d = db s).
      { destruct (step_db_change _ _ _ _ _ _ Hts) as [|[_ ->]]; done. }
      subst d. exists hist. constructor; simpl.
      * apply (ser_nodup _ _ _ Hser).
      * intros j tj Hj.
        destruct (lookup_set_pc _ _ _ _ _ _ Hi Hj) as [[-> ->]|[Hne Hj']]; simpl.
        -- rewrite <- (ser_hist _ _ _ Hser i t Hi), Hdec, Hdecp. done.
        -- apply (ser_hist _ _ _ Hser j tj Hj').
      * rewrite (fmap_agree (call_at (<[i := set_pc t p]> (threads s)))
                   (call_at (threads s)))
          by (intros; by apply call_at_set_pc).
        rewrite (fmap_agree (ret_at (<[i := set_pc t p]> (threads s)))
                   (ret_at (threads s))).
        -- apply (ser_run _ _ _ Hser).
        -- intros j Hj. apply ret_at_set_pc; [done|]. intros ->.
           apply (ser_hist _ _ _ Hser i t Hi) in Hj. congruence.
      * done.
      * intros j Hj. rewrite length_insert. by apply (ser_bound _ _ _ Hser).
Qed.

Lemma ser_inv_reachable d0 s s' hist :
  mutex_inv s -> ser_inv d0 s hist -> rtc step s s' ->
  exists hist', ser_inv d0 s' hist'.
Proof.
  intros Hmx Hser Hrtc. revert hist Hmx Hser.
  induction Hrtc as [|s1 s2 s3 H12 _ IH]; intros hist Hmx Hser; [eauto|].
  destruct (ser_inv_step d0 s1 s2 hist Hmx Hser H12) as [hist' Hser'].
  eapply IH; eauto using mutex_inv_step.
Qed.

(** The threads keep the calls they were started with. *)
Lemma step_calls s s' :
  step s s' ->
  (fun t => (t_key t, t_now t)) <$> threads s' =
  (fun t => (t_key t, t_now t)) <$> threads s.
Proof.
  destruct 1 as [s i t d l p Hi Hts]. simpl.
  rewrite list_fmap_insert. simpl. apply list_insert_id.
  by rewrite list_lookup_fmap, Hi.
Qed.

Lemma reachable_calls d calls s :
  rtc step (initial d calls) s ->
  (fun t => (t_key t, t_now t)) <$> threads s = calls.
Proof.
  intros Hrtc.
  assert (Hgen : forall s0, rtc step s0 s ->
            (fun t => (t_key t, t_now t)) <$> threads s =
            (fun t => (t_key t, t_now t)) <$> threads s0).
  { clear. intros s0. induction 1 as [|s1 s2 s3 H12 _ IH]; [done|].
    rewrite IH. by apply step_calls. }
  rewrite (Hgen _ Hrtc). simpl. unfold spawn. clear.
  induction calls as [|[k now] calls IH]; [done|].
  simpl. f_equal. exact IH.
Qed.

(** X11. Concurrent validation is serializable.  When all the calls of a
    concurrent run have returned, they can be put in an order, each call
    exactly once, such that serving them one after the other in that
    order from the initial registry gives every call the status it
    returned in the concurrent run and leaves the registry the concurrent
    run has left. *)
Theorem concurrent_calls_are_serializable d calls s :
  bounded d ->
  rtc step (initial d calls) s ->
  finished s ->
  exists (order : list nat) (serial : list (string * Time)) (rets : list Z),
    order ≡ₚ seq 0 (length calls) /\
    Forall2 (fun i c => calls !! i = Some c) order serial /\
    Forall2 (fun i ret => exists t, threads s !! i = Some t /\ t_pc t = Done ret)
            order rets /\
    validateAll d serial = (rets, db s).
Proof.
  intros Hbnd Hrtc Hfin.
  pose proof (mutex_inv_initial d calls Hbnd) as Hm0.
  destruct (ser_inv_reachable d _ s [] Hm0 (ser_inv_initial d calls) Hrtc)
    as [hist Hser].
  pose proof (reachable_calls d calls s Hrtc) as Hcalls.
  pose proof (reachable_length _ _ Hrtc) as Hlen. simpl in Hlen.
  unfold spawn in Hlen. rewrite length_fmap in Hlen.
  assert (Hdone : forall i t, threads s !! i = Some t ->
                    t_pc t = Done (returned (t_pc t))).
  { intros i t Hi. destruct (Hfin t) as [ret Hret].
    - by eapply list_elem_of_lookup_2.
    - by rewrite Hret. }
  exists hist, (call_at (threads s) <$> hist), (ret_at (threads s) <$> hist).
  split; [|split; [|split]].
  - apply NoDup_Permutation.
    + apply (ser_nodup _ _ _ Hser).
    + apply NoDup_seq.
    + intros i. rewrite elem_of_seq. split.
      * intros Hin. pose proof (ser_bound _ _ _ Hser i Hin). lia.
      * intros [_ Hlt]. simpl in Hlt. rewrite <- Hlen in Hlt.
        destruct (lookup_lt_is_Some_2 (threads s) i Hlt) as [t Hi].
        apply (ser_hist _ _ _ Hser i t Hi).
        rewrite (Hdone i t Hi). done.
  - apply Forall2_fmap_r, Forall_Forall2_diag, Forall_forall.
    intros i Hin. pose proof (ser_bound _ _ _ Hser i Hin) as Hlt.
    destruct (lookup_lt_is_Some_2 (threads s) i Hlt) as [t Hi].
    unfold compose. cbv beta. unfold call_at. rewrite Hi. simpl.
    rewrite <- Hcalls, list_lookup_fmap, Hi. done.
  - apply Forall2_fmap_r, Forall_Forall2_diag, Forall_forall.
    intros i Hin. pose proof (ser_bound _ _ _ Hser i Hin) as Hlt.
    destruct (lookup_lt_is_Some_2 (threads s) i Hlt) as [t Hi].
    unfold compose. cbv beta. exists t. split; [done|].
    unfold ret_at. rewrite Hi. simpl.
    by apply (Hdone i t).
  - apply (ser_run _ _ _ Hser).
Qed.

Lemma concurrent_calls_are_serializable_witness :
  exists s,
    run [1; 1; 1; 1; 1; 1; 1; 0; 0; 0; 0; 0; 0]%nat
        (initial single_db [("k1", 5); ("k1", 6)]) = Some s /\
    exists (order : list nat) (serial : list (string * Time)) (rets : list Z),
      order ≡ₚ seq 0 (length [("k1", 5); ("k1", 6)]) /\
      Forall2 (fun i c => [("k1", 5); ("k1", 6)] !! i = Some c) order serial /\
      Forall2 (fun i ret => exists t, threads s !! i = Some t /\ t_pc t = Done ret)
              order rets /\
      validateAll single_db serial = (rets, db s).
Proof.
  destruct (run [1; 1; 1; 1; 1; 1; 1; 0; 0; 0; 0; 0; 0]%nat
              (initial single_db [("k1", 5); ("k1", 6)])) as [s|] eqn:Hrun.
  - exists s. split; [reflexivity|].
    apply (concurrent_calls_are_serializable single_db [("k1", 5); ("k1", 6)] s).
    + apply bounded_singleton.
      * unfold wf_KeyInfo, GoInt.in_range, GoInt.min_int, GoInt.max_int.
        simpl. lia.
      * simpl. lia.
    + eapply run_sound. exact Hrun.
    + vm_compute in Hrun. injection Hrun as <-.
      intros t Ht. simpl in Ht.
      repeat (apply elem_of_cons in Ht as [->|Ht]; [by eexists|]).
      by apply elem_of_nil in Ht.
  - vm_compute in Hrun. discriminate.
Defined.

End Serializable.

(** * Further properties of the client *)

Section ExtractionMore.
Import Filepath Client ClientSamples.

(** X12. Extraction stops at the first entry that fails: what the entries
    before it have written stays written, the failing entry leaves at
    most the events up to its failure, the entries after it are not
    looked at, and the error returned is that of the failure. *)
Theorem extraction_stops_at_first_failure
    env opener target before file after evs e :
  extractLoop env opener target before = (evs, None) ->
  IsDir file = false ->
  let path := Join [target; Name file] in
  (opener file = Err e ->
   extractLoop env opener target (before ++ file :: after) = (evs, Some e)) /\
  (forall data, opener file = Ok data -> OpenFile env path = Some e ->
   extractLoop env opener target (before ++ file :: after) =
     (evs ++ [EvMkdirAll (Dir path) 493; EvOpenFile path (Mode file)], Some e)) /\
  (forall data, opener file = Ok data -> OpenFile env path = None ->
   Copy env path = Some e ->
   extractLoop env opener target (before ++ file :: after) =
     (evs ++ [EvMkdirAll (Dir path) 493; EvOpenFile path (Mode file);
              EvCopy path data], Some e)).
Proof.
  intros Hbefore Hdir path. subst path.
  rewrite (extractLoop_app _ _ _ _ (file :: after) _ Hbefore).
  simpl. rewrite Hdir.
  split; [|split].
  - intros ->. simpl. by rewrite app_nil_r.
  - intros data -> ->. done.
  - intros data -> -> ->. done.
Qed.

Lemma extraction_stops_at_first_failure_witness :
  extractLoop goodEnv (openEntry "") "/tmp/out"
    (take 2 slipArchive ++
     mkFile "secret.txt" false 420 true (Ok "x") (fun _ => Ok "x") ::
     drop 2 slipArchive) =
  ([EvMkdirAll "/tmp/out/docs" 493; EvMkdirAll "/tmp/out/docs" 493;
    EvOpenFile "/tmp/out/docs/readme.txt" 420;
    EvCopy "/tmp/out/docs/readme.txt" "hello"],
   Some "文件 secret.txt 需要密码，但未提供密码").
Proof.
  apply (extraction_stops_at_first_failure goodEnv (openEntry "") "/tmp/out"
           (take 2 slipArchive)
           (mkFile "secret.txt" false 420 true (Ok "x") (fun _ => Ok "x"))
           (drop 2 slipArchive)).
  - vm_compute. reflexivity.
  - reflexivity.
  - reflexivity.
Defined.

Lemma openEntry_plain password file :
  IsEncrypted file = false ->
  match Open file with
  | Ok data => openEntry password file = Ok data
  | Err e => exists e', openEntry password file = Err e'
  end.
Proof.
  intros Henc. unfold openEntry. rewrite Henc.
  destruct (Open file); [done|eauto].
Qed.

(** X13. The two clients agree on archives without encrypted entries: for
    any password, [extractFromZip] of the password-capable client does
    to the file system exactly what [extractFromZip] of the other client
    does, and fails exactly when it fails. *)
Theorem clients_agree_without_encryption env source target password :
  (forall files, OpenReader env source = Ok files ->
                 Forall (fun file => IsEncrypted file = false) files) ->
  (extractFromZip env source target password).1 =
    (extractFromZipPlain env source target).1 /\
  ((extractFromZip env source target password).2 = None <->
   (extractFromZipPlain env source target).2 = None).
Proof.
  intros Hplain. unfold extractFromZip, extractFromZipPlain, extractWith.
  destruct (OpenReader env source) as [files|e]; [|done].
  specialize (Hplain files eq_refl).
  assert (Hloop : (extractLoop env (openEntry password) target files).1 =
                    (extractLoop env Open target files).1 /\
                  ((extractLoop env (openEntry password) target files).2 = None <->
                   (extractLoop env Open target files).2 = None)).
  { induction Hplain as [|file files Henc _ IH]; [done|]. simpl.
    destruct (extractLoop env (openEntry password) target files) as [evs1 err1].
    destruct (extractLoop env Open target files) as [evs2 err2].
    simpl in IH. destruct IH as [-> IH].
    destruct (IsDir file); [done|].
    pose proof (openEntry_plain password file Henc) as Hopen.
    destruct (Open file) as [data|e0].
    - rewrite Hopen.
      destruct (OpenFile env (Join [target; Name file])); [done|].
      destruct (Copy env (Join [target; Name file])); done.
    - destruct Hopen as [e' ->]. done. }
  destruct (extractLoop env (openEntry password) target files) as [evs1 err1].
  destruct (extractLoop env Open target files) as [evs2 err2].
  simpl in *. destruct Hloop as [-> Herr]. done.
Qed.

Lemma clients_agree_without_encryption_witness :
  (extractFromZip goodEnv "a.zip" "/tmp/out" "pw").1 =
    (extractFromZipPlain goodEnv "a.zip" "/tmp/out").1 /\
  ((extractFromZip goodEnv "a.zip" "/tmp/out" "pw").2 = None <->
   (extractFromZipPlain goodEnv "a.zip" "/tmp/out").2 = None).
Proof.
  apply (clients_agree_without_encryption goodEnv "a.zip" "/tmp/out" "pw").
  intros files Hfiles. injection Hfiles as <-. repeat constructor.
Defined.

End ExtractionMore.

Section GateMore.
Import Filepath Client ClientSamples.

Abbreviation quiet' := (Forall (fun ev => archiveWork ev = false)).
Abbreviation offline' := (Forall (fun ev => isPost ev = false)).

(** What a successful authorization has done: one request, one line. *)
Lemma validateAuth_success_events env :
  (validateAuth env).2 = None ->
  exists body,
    (validateAuth env).1 =
      [EvPost true AuthURL "application/json" body; Println "✅ 授权验证成功"].
Proof.
  unfold validateAuth.
  destruct (readAuthKey env) as [key|e1]; [|done].
  destruct (Marshal env key) as [jsonData|e2]; [|done].
  destruct (Post env AuthURL "application/json" jsonData) as [resp|e3]; [|done].
  destruct (verifyServerCertificate resp) as [e4|]; [done|].
  destruct (Body resp) as [body|e5]; [|done].
  destruct (Unmarshal env body) as [status|e6]; [|done].
  destruct (status =? -1); [done|].
  destruct (negb (status =? 1)); [done|].
  intros _. by eexists.
Qed.

(** An event with a property none of the prefix [front] has lies
    behind [front]. *)
Lemma split_behind {A} (P : A -> Prop) (front back pre rest : list A) x :
  Forall (fun y => ~ P y) front -> P x ->
  front ++ back = pre ++ x :: rest ->
  exists mid, pre = front ++ mid.
Proof.
  intros Hfront Hx. revert pre.
  induction Hfront as [|y front Hy _ IH]; intros pre Heq; [by exists pre|].
  destruct pre as [|z pre]; simpl in Heq.
  - injection Heq as -> _. done.
  - injection Heq as -> Heq. destruct (IH pre Heq) as [mid ->]. by exists mid.
Qed.

(** X15. The request precedes the work.  Whatever [main] of either client
    does to an archive, at that point of the run the authorization
    request has been sent, with chain validation switched off, and the
    success line printed. *)
Theorem authorization_precedes_archive_work env pre ev rest :
  main env = pre ++ ev :: rest \/ mainPlain env = pre ++ ev :: rest ->
  archiveWork ev = true ->
  (exists body, EvPost true AuthURL "application/json" body ∈ pre) /\
  Println "✅ 授权验证成功" ∈ pre.
Proof.
  intros Hrun Hwork.
  assert (Hgen : forall banner run,
            quiet' banner ->
            mainWith banner run env = pre ++ ev :: rest ->
            (exists body, EvPost true AuthURL "application/json" body ∈ pre) /\
            Println "✅ 授权验证成功" ∈ pre).
  { intros banner run Hb Heq.
    pose proof (mainWith_cases banner run env) as Hm.
    destruct (initKeyFile_events env) as [Hq1 _].
    destruct (validateAuth_events env) as [Hq2 _].
    assert (Hstopped : (initKeyFile env).2 <> None \/ (validateAuth env).2 <> None ->
                       False).
    { intros Hstop.
      pose proof (mainWith_stopped banner run env Hb Hstop) as Hq.
      rewrite Heq in Hq. apply Forall_app in Hq as [_ Hq].
      apply Forall_cons in Hq as [Hq _]. congruence. }
    destruct ((initKeyFile env).2) as [e1|] eqn:Hinit.
    { destruct Hstopped. left. done. }
    destruct ((validateAuth env).2) as [e2|] eqn:Hauth.
    { destruct Hstopped. right. done. }
    destruct (validateAuth_success_events env Hauth) as [body Hevs].
    rewrite Heq in Hm.
    assert (Hfront : Forall (fun y => ~ (archiveWork y = true))
                       (banner ++ (initKeyFile env).1 ++ (validateAuth env).1)).
    { repeat (apply Forall_app; split);
        (eapply Forall_impl; [eassumption|]); intros y Hy; congruence. }
    rewrite !app_assoc in Hm. rewrite <- (app_assoc banner) in Hm.
    symmetry in Hm.
    destruct (split_behind _ _ _ _ _ _ Hfront Hwork Hm) as [mid ->].
    rewrite Hevs. split.
    - exists body. rewrite !elem_of_app, !elem_of_cons. left. right. right.
      by left.
    - rewrite !elem_of_app, !elem_of_cons. left. right. right. right. by left. }
  destruct main_banner_plain as (Hq1 & _ & Hq2 & _).
  destruct Hrun as [Hrun|Hrun].
  - exact (Hgen _ runCommand Hq1 Hrun).
  - exact (Hgen _ runCommandPlain Hq2 Hrun).
Qed.

Lemma authorization_precedes_archive_work_witness :
  (exists body,
     EvPost true AuthURL "application/json" body ∈
       take 8 (main goodEnv)) /\
  Println "✅ 授权验证成功" ∈ take 8 (main goodEnv).
Proof.
  apply (authorization_precedes_archive_work goodEnv (take 8 (main goodEnv))
           (EvOpenReader "a.zip") (drop 9 (main goodEnv))).
  - left. vm_compute. reflexivity.
  - reflexivity.
Defined.

(** X16. The key that is sent is the content of the key file with the space
    around it trimmed: [validateAuth] sends a request exactly when the
    key file can be read and the request encoded, the request is the
    encoding of the trimmed content, and it is the only one. *)
Theorem validateAuth_sends_the_trimmed_key env ev :
  (ev ∈ (validateAuth env).1 /\ isPost ev = true) <->
  exists data body,
    ReadKeyFile env = Ok data /\
    Marshal env (TrimSpace env data) = Ok body /\
    ev = EvPost true AuthURL "application/json" body.
Proof.
  unfold validateAuth, readAuthKey.
  destruct (ReadKeyFile env) as [data|e1] eqn:Hread.
  2:{ split.
      - intros [Hin _]. by apply elem_of_nil in Hin.
      - intros (d & b & Hd & _). done. }
  destruct (Marshal env (TrimSpace env data)) as [jsonData|e2] eqn:Hm.
  2:{ split.
      - intros [Hin _]. by apply elem_of_nil in Hin.
      - intros (d & b & Hd & Hb & _). injection Hd as <-. congruence. }
  assert (Hall : forall evs : list Event,
            (evs = [EvPost true AuthURL "application/json" jsonData] \/
             evs = [EvPost true AuthURL "application/json" jsonData;
                    Println "✅ 授权验证成功"]) ->
            (ev ∈ evs /\ isPost ev = true) <->
            exists data0 body,
              Ok data = Ok data0 /\
              Marshal env (TrimSpace env data0) = Ok body /\
              ev = EvPost true AuthURL "application/json" body).
  { intros evs Hevs. split.
    - intros [Hin Hpost]. exists data, jsonData. split; [done|]. split; [done|].
      destruct Hevs as [-> | ->];
        repeat (apply elem_of_cons in Hin as [->|Hin]; [done|]);
        by apply elem_of_nil in Hin.
    - intros (d & b & Hd & Hb & ->). injection Hd as <-.
      rewrite Hm in Hb. injection Hb as <-. split; [|done].
      destruct Hevs as [-> | ->]; apply elem_of_cons; by left. }
  destruct (Post env AuthURL "application/json" jsonData) as [resp|e3];
    [|apply Hall; by left].
  destruct (verifyServerCertificate resp) as [e4|]; [apply Hall; by left|].
  destruct (Body resp) as [body|e5]; [|apply Hall; by left].
  destruct (Unmarshal env body) as [status|e6]; [|apply Hall; by left].
  destruct (status =? -1); [apply Hall; by left|].
  destruct (negb (status =? 1)); apply Hall; [by left|by right].
Qed.

(** X17. Setting up the key file succeeds exactly when the directory could
    be made and the file is already there.  When it fails, [main] of
    either client stops before any network traffic and any archive
    work, with the message of the failure as its last line. *)
Theorem initKeyFile_outcomes env :
  ((initKeyFile env).2 = None <->
   MkdirAllKeyDir env = None /\ StatNotExist env = false) /\
  (forall e, (initKeyFile env).2 = Some e ->
     e <> "" /\
     offline' (main env) /\ quiet' (main env) /\
     offline' (mainPlain env) /\ quiet' (mainPlain env) /\
     last (main env) = Some (EvPrint ("❌ 初始化失败: " +:+ e +:+ nl)) /\
     last (mainPlain env) = Some (EvPrint ("❌ 初始化失败: " +:+ e +:+ nl))).
Proof.
  split.
  - unfold initKeyFile.
    destruct (MkdirAllKeyDir env) as [e|]; simpl; [split; [done|by intros [? _]]|].
    destruct (StatNotExist env); simpl.
    + destruct (CreateKeyFile env); simpl; (split; [done|by intros [_ ?]]).
    + done.
  - intros e He.
    assert (Hmsg : e <> "").
    { unfold initKeyFile in He.
      destruct (MkdirAllKeyDir env) as [e0|]; simpl in He.
      - injection He as <-. discriminate.
      - destruct (StatNotExist env); simpl in He; [|done].
        destruct (CreateKeyFile env); simpl in He; injection He as <-;
          discriminate. }
    split; [done|].
    destruct main_banner_plain as (Hq1 & Ho1 & Hq2 & Ho2).
    destruct (initKeyFile_events env) as [Hqi Hoi].
    assert (Hgen : forall banner run, offline' banner -> quiet' banner ->
              offline' (mainWith banner run env) /\
              quiet' (mainWith banner run env) /\
              last (mainWith banner run env) =
                Some (EvPrint ("❌ 初始化失败: " +:+ e +:+ nl))).
    { intros banner run Hob Hqb.
      pose proof (mainWith_cases banner run env) as Hm. rewrite He in Hm.
      rewrite Hm. split; [|split].
      - repeat (apply Forall_app; split; try done). repeat constructor.
      - repeat (apply Forall_app; split; try done). repeat constructor.
      - by rewrite !app_assoc, last_snoc. }
    destruct (Hgen _ runCommand Ho1 Hq1) as (? & ? & ?).
    destruct (Hgen _ runCommandPlain Ho2 Hq2) as (? & ? & ?).
    unfold main, mainPlain. done.
Qed.

End GateMore.

Section Dispatch.
Import Filepath Client ClientSamples.

Abbreviation calm := (Forall (fun ev => forall s t p, ev <> EvCompress s t p)).

Lemma calm_not_in (evs : list Event) s t p :
  calm evs -> EvCompress s t p ∉ evs.
Proof. intros Hc Hin. rewrite Forall_forall in Hc. by apply (Hc _ Hin s t p). Qed.

Lemma extractLoop_calm env opener target files :
  calm (extractLoop env opener target files).1.
Proof.
  induction files as [|file files IH]; simpl; [constructor|].
  destruct (extractLoop env opener target files) as [evs err].
  destruct (IsDir file); [by constructor|].
  destruct (opener file); [|constructor].
  destruct (OpenFile env _); [repeat constructor; done|].
  destruct (Copy env _); repeat constructor; done.
Qed.

Lemma extractWith_calm env opener source target :
  calm (extractWith env opener source target).1.
Proof.
  unfold extractWith. destruct (OpenReader env source) as [files|e].
  - pose proof (extractLoop_calm env opener target files) as Hl.
    destruct (extractLoop env opener target files) as [evs err].
    repeat constructor; done.
  - repeat constructor; done.
Qed.

Lemma askPassword_calm env question : calm (askPassword env question).1.
Proof.
  unfold askPassword, getPassword.
  destruct (answersYes (StdinLine env)); [|repeat constructor; done].
  destruct (ReadPassword env); repeat constructor; done.
Qed.

(** What [askPassword] hands on: the empty password unless the answer
    was yes, and then the password read. *)
Lemma askPassword_result env question pw :
  (askPassword env question).2 = Some pw <->
  if answersYes (StdinLine env) then ReadPassword env = Ok pw else pw = "".
Proof.
  unfold askPassword, getPassword.
  destruct (answersYes (StdinLine env)); simpl.
  - destruct (ReadPassword env) as [p|e]; simpl.
    + split; [intros [= ->]|intros [= ->]]; done.
    + split; intros H; discriminate.
  - split; [intros [= <-]|intros ->]; done.
Qed.

Lemma runCommand_compress env source target password :
  EvCompress source target password ∈ runCommand env <->
  exists prog extra,
    Args env = prog :: "compress" :: source :: target :: extra /\
    if answersYes (StdinLine env) then ReadPassword env = Ok password
    else password = "".
Proof.
  unfold runCommand, usage.
  destruct (Args env) as [|prog [|command rest]].
  1,2: split; [intros Hin|intros (? & ? & ? & _); done];
       repeat (apply elem_of_cons in Hin as [Hin|Hin]; [done|]);
       by apply elem_of_nil in Hin.
  destruct (String.eqb_spec command "compress") as [->|Hcmd].
  - destruct rest as [|src [|tgt extra]].
    1,2: split; [intros Hin|intros (? & ? & ? & _); done];
         repeat (apply elem_of_cons in Hin as [Hin|Hin]; [done|]);
         by apply elem_of_nil in Hin.
    pose proof (askPassword_calm env "是否需要密码保护? (y/n): ") as Hcalm.
    pose proof (askPassword_result env "是否需要密码保护? (y/n): ") as Hres.
    destruct (askPassword env "是否需要密码保护? (y/n): ") as [evs [pw|]];
      simpl in *.
    + split.
      * intros Hin. apply elem_of_app in Hin as [Hin|Hin].
        { by apply calm_not_in in Hin. }
        apply elem_of_cons in Hin as [Heq|Hin].
        { injection Heq as -> -> ->. exists prog, extra. split; [done|].
          by apply Hres. }
        destruct (compressToZip env src tgt pw);
          apply elem_of_cons in Hin as [Hin|Hin]; try done;
          by apply elem_of_nil in Hin.
      * intros (prog' & extra' & Heq & Hpw). injection Heq as _ <- <- _.
        apply Hres in Hpw. injection Hpw as <-.
        apply elem_of_app. right. apply elem_of_cons. by left.
    + split.
      * intros Hin. by apply calm_not_in in Hin.
      * intros (prog' & extra' & Heq & Hpw). apply Hres in Hpw. done.
  - split; [|intros (? & ? & Heq & _); injection Heq as _ -> _; done].
    intros Hin. exfalso.
    destruct (String.eqb command "extract").
    + destruct rest as [|src [|tgt extra]].
      1,2: repeat (apply elem_of_cons in Hin as [Hin|Hin]; [done|]);
           by apply elem_of_nil in Hin.
      pose proof (askPassword_calm env "该压缩包是否有密码? (y/n): ") as Hcalm.
      destruct (askPassword env "该压缩包是否有密码? (y/n): ") as [evs [pw|]];
        simpl in *; [|by apply calm_not_in in Hin].
      pose proof (extractWith_calm env (openEntry pw) src tgt) as Hops.
      unfold extractFromZip in Hin.
      destruct (extractWith env (openEntry pw) src tgt) as [ops err]. simpl in *.
      apply elem_of_app in Hin as [Hin|Hin]; [by apply calm_not_in in Hin|].
      apply elem_of_app in Hin as [Hin|Hin]; [by apply calm_not_in in Hin|].
      destruct err; apply elem_of_cons in Hin as [Hin|Hin]; try done;
        by apply elem_of_nil in Hin.
    + repeat (apply elem_of_cons in Hin as [Hin|Hin]; [done|]).
      by apply elem_of_nil in Hin.
Qed.

(** X19. When the password-capable client compresses.  [compressToZip] is
    called with a source, a target and a password exactly when the key
    file was in place, the authorization succeeded, the command line is
    [compress <source> <target>] (further arguments are ignored), and the
    password is the one read after the answer [y] or [Y], or empty after
    any other answer; a password that cannot be read ends the run
    without the call. *)
Theorem compress_is_called_when env source target password :
  EvCompress source target password ∈ main env <->
  (initKeyFile env).2 = None /\ (validateAuth env).2 = None /\
  exists prog extra,
    Args env = prog :: "compress" :: source :: target :: extra /\
    if answersYes (StdinLine env) then ReadPassword env = Ok password
    else password = "".
Proof.
  destruct main_banner_plain as (Hq1 & _).
  pose proof (mainWith_cases
    [Println "XZip 商业压缩软件 v1.0"; Println "================================="]
    runCommand env) as Hm.
  fold main in Hm.
  destruct (initKeyFile_events env) as [Hqi _].
  destruct (validateAuth_events env) as [Hqa _].
  assert (Hquiet : forall evs : list Event,
            Forall (fun ev => archiveWork ev = false) evs ->
            EvCompress source target password ∉ evs).
  { intros evs Hq Hin. rewrite Forall_forall in Hq. by apply Hq in Hin. }
  destruct ((initKeyFile env).2) as [e1|] eqn:Hinit.
  { split; [|by intros [? _]]. intros Hin. exfalso.
    apply (Hquiet (main env)); [|done].
    apply mainWith_stopped; [done|]. left. congruence. }
  destruct ((validateAuth env).2) as [e2|] eqn:Hauth.
  { split; [|by intros (_ & ? & _)]. intros Hin. exfalso.
    apply (Hquiet (main env)); [|done].
    apply mainWith_stopped; [done|]. right. congruence. }
  rewrite Hm, !elem_of_app, runCommand_compress. split.
  - intros [Hin|[Hin|[Hin|Hrun]]]; [by apply Hquiet in Hin..|done].
  - intros (_ & _ & Hrun). by right; right; right.
Qed.

End Dispatch.

(** * Cleaned paths *)

Section PathFacts.
Import Filepath PathSpec.
Local Open Scope nat_scope.

Lemma isSep_true c : isSep c = true <-> c = "/"%char.
Proof. unfold isSep. apply Ascii.eqb_eq. Qed.

Lemma element_spec p :
  p = (element p).1 ++ (element p).2 /\ sepfree (element p).1 /\
  boundary (element p).2.
Proof.
  induction p as [|c p IH]; simpl.
  - split; [done|]. split; [constructor|by left].
  - destruct (isSep c) eqn:Hc; simpl.
    + split; [done|]. split; [constructor|]. right. exists p.
      apply isSep_true in Hc. by subst.
    + destruct (element p) as [e q]. simpl in *. destruct IH as (-> & He & Hq).
      split; [done|]. split; [by constructor|done].
Qed.

(** An element followed by a boundary is what [element] splits off. *)
Lemma element_elem e q :
  sepfree e -> boundary q -> element (e ++ q) = (e, q).
Proof.
  intros He Hq. induction He as [|c e Hc _ IH]; simpl.
  - destruct Hq as [->|[q' ->]]; [done|]. simpl. done.
  - rewrite Hc, IH. done.
Qed.

Lemma compsOf_fuel f1 : forall f2 p,
  length p <= f1 -> length p <= f2 -> compsOf f1 p = compsOf f2 p.
Proof.
  induction f1 as [|f1 IH]; intros f2 p H1 H2.
  - destruct p; [|simpl in H1; lia]. by destruct f2.
  - destruct f2 as [|f2].
    { destruct p; [done|simpl in H2; lia]. }
    destruct p as [|c rest]; [done|]. simpl in H1, H2.
    cbn [compsOf]. destruct (isSep c) eqn:Hc.
    + apply IH; lia.
    + pose proof (element_spec (c :: rest)) as (Heq & _ & _).
      simpl in Heq |- *. rewrite Hc in *.
      destruct (element rest) as [e q]. simpl in *.
      injection Heq as Heq. f_equal. apply IH; subst rest;
        rewrite length_app in *; lia.
Qed.

Lemma comps_nil : comps [] = [].
Proof. done. Qed.

Lemma comps_sep q : comps ("/"%char :: q) = comps q.
Proof. done. Qed.

Lemma comps_elem e q :
  elemOK e -> boundary q -> comps (e ++ q) = e :: comps q.
Proof.
  intros [Hne He] Hq. destruct e as [|c e]; [done|].
  unfold comps. simpl length. cbn [compsOf app].
  apply Forall_cons in He as He'. destruct He' as [Hc He'].
  rewrite Hc.
  change (c :: e ++ q) with ((c :: e) ++ q).
  rewrite (element_elem (c :: e) q He Hq). f_equal.
  apply compsOf_fuel; rewrite ?length_app; lia.
Qed.

Lemma comps_single e : elemOK e -> comps e = [e].
Proof.
  intros He. rewrite <- (app_nil_r e) at 1.
  rewrite comps_elem; [done|done|by left].
Qed.

(** Every path is a run of separators and elements. *)
Lemma path_cases p :
  p = [] \/ (exists q, p = "/"%char :: q) \/
  (exists e q, p = e ++ q /\ elemOK e /\ boundary q).
Proof.
  destruct p as [|c rest]; [by left|]. right.
  destruct (isSep c) eqn:Hc.
  - left. exists rest. apply isSep_true in Hc. by subst.
  - right. pose proof (element_spec (c :: rest)) as (Heq & He & Hq).
    simpl in *. rewrite Hc in *. destruct (element rest) as [e q]. simpl in *.
    exists (c :: e), q. repeat split; done.
Qed.

Lemma comps_ind (P : list ascii -> Prop) :
  P [] ->
  (forall q, P q -> P ("/"%char :: q)) ->
  (forall e q, elemOK e -> boundary q -> P q -> P (e ++ q)) ->
  forall p, P p.
Proof.
  intros Hnil Hsep Helem p.
  remember (length p) as n eqn:Hn. revert p Hn.
  induction n as [n IH] using lt_wf_ind. intros p Hn.
  destruct (path_cases p) as [->|[[q ->]|(e & q & -> & He & Hq)]].
  - done.
  - apply Hsep. apply (IH (length q)); [simpl in Hn; lia|done].
  - apply Helem; [done|done|]. apply (IH (length q)); [|done].
    destruct He as [Hne _]. destruct e; [done|].
    rewrite Hn, length_app. simpl. lia.
Qed.

Lemma comps_elemOK p : Forall elemOK (comps p).
Proof.
  induction p as [|q IH|e q He Hq IH] using comps_ind.
  - constructor.
  - by rewrite comps_sep.
  - rewrite comps_elem by done. by constructor.
Qed.

Lemma comps_app a b : comps (a ++ "/"%char :: b) = comps a ++ comps b.
Proof.
  induction a as [|q IH|e q He Hq IH] using comps_ind.
  - done.
  - rewrite <- app_comm_cons, !comps_sep. done.
  - rewrite <- app_assoc.
    rewrite (comps_elem e (q ++ "/"%char :: b)); [|done|].
    + rewrite (comps_elem e q) by done. by rewrite IH.
    + destruct Hq as [->|[q' ->]]; right; eauto.
Qed.


(** *** What [Clean] has written *)

Lemma joinBytes_app a b :
  a <> [] -> b <> [] -> joinBytes (a ++ b) = joinBytes a ++ "/"%char :: joinBytes b.
Proof.
  intros Ha Hb. induction a as [|e a IH]; [done|].
  destruct a as [|e' a].
  - simpl. destruct b; [done|done].
  - change ((e :: e' :: a) ++ b) with (e :: (e' :: a) ++ b).
    change (joinBytes (e :: (e' :: a) ++ b))
      with (e ++ "/"%char :: joinBytes ((e' :: a) ++ b)).
    rewrite IH by done. simpl. by rewrite <- app_assoc.
Qed.

Lemma joinBytes_nil l : Forall elemOK l -> joinBytes l = [] -> l = [].
Proof.
  intros Hl Hj. destruct Hl as [|e l [Hne _] Hl]; [done|].
  destruct l; simpl in Hj; [done|]. destruct e; done.
Qed.

Lemma written_push r st e :
  written r (e :: st) =
    written r st ++ (match st with [] => [] | _ => ["/"%char] end) ++ e.
Proof.
  unfold written. simpl rev. destruct st as [|e' st].
  - simpl. by rewrite app_nil_r.
  - rewrite joinBytes_app; [|simpl; by destruct (rev st)|done].
    by rewrite <- !app_assoc.
Qed.

Lemma written_empty r st :
  Forall elemOK st ->
  (length (written r st) = if r then 1 else 0) <-> st = [].
Proof.
  intros Hst. split; [|by intros ->; destruct r].
  unfold written. intros Hlen. rewrite length_app in Hlen.
  assert (Hj : joinBytes (rev st) = []).
  { destruct (joinBytes (rev st)); [done|]. destruct r; simpl in Hlen; lia. }
  apply joinBytes_nil in Hj; [|by apply Forall_rev].
  by rewrite <- (rev_involutive st), Hj.
Qed.

(** *** Going back over the last element *)

Lemma backtrack_whole l T dd :
  sepfree l -> l <> [] -> length T = dd -> backtrack (l ++ T) dd = T.
Proof.
  intros Hl Hne HT. induction Hl as [|c l Hc _ IH]; [done|].
  simpl. rewrite Hc. destruct l as [|c' l].
  - simpl. rewrite (proj2 (Nat.ltb_ge _ _)) by lia. done.
  - rewrite (proj2 (Nat.ltb_lt _ _)) by (simpl; rewrite length_app; lia).
    simpl. apply IH. done.
Qed.

Lemma backtrack_sep l T dd :
  sepfree l -> dd <= length T -> backtrack (l ++ "/"%char :: T) dd = T.
Proof.
  intros Hl HT. induction Hl as [|c l Hc _ IH].
  - simpl. by rewrite andb_false_r.
  - simpl. rewrite Hc.
    rewrite (proj2 (Nat.ltb_lt _ _)) by (rewrite length_app; simpl; lia).
    simpl. apply IH.
Qed.

(** *** The cases of the loop *)

Lemma cleanLoop_nil f r rbuf dd : cleanLoop f r [] rbuf dd = rbuf.
Proof. by destruct f. Qed.

Lemma cleanLoop_sep f r q rbuf dd :
  cleanLoop (S f) r ("/"%char :: q) rbuf dd = cleanLoop f r q rbuf dd.
Proof. done. Qed.

Lemma boundary_head q :
  boundary q -> match q with [] => true | c :: _ => isSep c end = true.
Proof. intros [->|[q' ->]]; done. Qed.

Lemma cleanLoop_dot f r q rbuf dd :
  boundary q ->
  cleanLoop (S f) r (dotElem ++ q) rbuf dd = cleanLoop f r q rbuf dd.
Proof.
  intros Hq. simpl. by rewrite (boundary_head q Hq).
Qed.

Lemma cleanLoop_dotdot f r q rbuf dd :
  boundary q ->
  cleanLoop (S f) r (dotdotElem ++ q) rbuf dd =
    if dd <? length rbuf then cleanLoop f r q (backtrack rbuf dd) dd
    else if negb r then
      cleanLoop f r q
        ("."%char :: "."%char ::
           (if 0 <? length rbuf then "/"%char :: rbuf else rbuf))
        (S (S (length (if 0 <? length rbuf then "/"%char :: rbuf else rbuf))))
    else cleanLoop f r q rbuf dd.
Proof.
  intros Hq. simpl. by rewrite (boundary_head q Hq).
Qed.

Lemma cleanLoop_real f r e q rbuf dd :
  real e -> boundary q ->
  cleanLoop (S f) r (e ++ q) rbuf dd =
    cleanLoop f r q
      (rev e ++
       (if (r && negb (length rbuf =? 1)) || (negb r && negb (length rbuf =? 0))
        then "/"%char :: rbuf else rbuf)) dd.
Proof.
  intros ((Hne & He) & Hdot & Hdd) Hq.
  destruct e as [|c e1]; [done|].
  apply Forall_cons in He as [Hc He1].
  cbn [cleanLoop app]. rewrite Hc.
  assert (Hnot2 : isDot c && match e1 ++ q with [] => true | c1 :: _ => isSep c1 end
                  = false).
  { destruct e1 as [|c1 e2].
    - simpl. rewrite (boundary_head q Hq), andb_true_r.
      destruct (isDot c) eqn:Hd; [|done].
      apply Ascii.eqb_eq in Hd. subst. done.
    - simpl. apply Forall_cons in He1 as [Hc1 _]. by rewrite Hc1, andb_false_r. }
  rewrite Hnot2.
  assert (Hnot3 : isDot c &&
                  match e1 ++ q with
                  | c1 :: p2 =>
                      isDot c1 && match p2 with [] => true | c2 :: _ => isSep c2 end
                  | [] => false
                  end = false).
  { destruct e1 as [|c1 e2].
    - simpl. destruct Hq as [->|[q' ->]]; simpl; by rewrite ?andb_false_r.
    - simpl. destruct e2 as [|c2 e3].
      + simpl. rewrite (boundary_head q Hq), andb_true_r.
        destruct (isDot c) eqn:Hd; [|done]. destruct (isDot c1) eqn:Hd1; [|done].
        apply Ascii.eqb_eq in Hd, Hd1. subst. done.
      + simpl. apply Forall_cons in He1 as [_ He2].
        apply Forall_cons in He2 as [Hc2 _]. by rewrite Hc2, !andb_false_r. }
  rewrite Hnot3.
  change (c :: e1 ++ q) with ((c :: e1) ++ q).
  rewrite (element_elem (c :: e1) q); [done| |done].
  by constructor.
Qed.

(** *** The stack [Clean] keeps *)

Lemma dotdot_elemOK : elemOK dotdotElem.
Proof. split; [done|]. by repeat constructor. Qed.

Lemma stack_elemOK reals k :
  Forall real reals -> Forall elemOK (reals ++ replicate k dotdotElem).
Proof.
  intros Hr. apply Forall_app. split.
  - eapply Forall_impl; [exact Hr|]. by intros e [He _].
  - apply Forall_replicate. apply dotdot_elemOK.
Qed.

Lemma good_elemOK r st : good r st -> Forall elemOK st.
Proof. intros (reals & k & -> & Hr & _). by apply stack_elemOK. Qed.

Lemma written_length_push r st e :
  length (written r st) + length e <= length (written r (e :: st)).
Proof. rewrite written_push, !length_app. lia. Qed.

Lemma written_length_app r a b :
  length (written r b) <= length (written r (a ++ b)).
Proof.
  induction a as [|e a IH]; [done|]. simpl.
  pose proof (written_length_push r (a ++ b) e). lia.
Qed.

Lemma rev_written_push r st e :
  rev (written r (e :: st)) =
    rev e ++ (match st with [] => [] | _ => ["/"%char] end) ++ rev (written r st).
Proof.
  rewrite written_push, !rev_app_distr. rewrite <- app_assoc.
  by destruct st.
Qed.

Lemma written_pop r e st dd :
  elemOK e -> Forall elemOK st ->
  (st = [] -> dd = length (written r [])) ->
  dd <= length (written r st) ->
  backtrack (rev (written r (e :: st))) dd = rev (written r st).
Proof.
  intros [Hne He] Hst Hnil Hdd. rewrite rev_written_push.
  assert (Hrev : sepfree (rev e)) by by apply Forall_rev.
  destruct st as [|e' st'].
  - simpl app. apply backtrack_whole; [done| |].
    + destruct e; [done|]. simpl. by destruct (rev e).
    + rewrite length_rev. by rewrite Hnil.
  - apply backtrack_sep; [done|]. by rewrite length_rev.
Qed.

Lemma replicate_dotdot_push k :
  dotdotElem :: replicate k dotdotElem = replicate (S k) dotdotElem.
Proof. done. Qed.

Lemma cleanLoop_spec p : forall f r reals k,
  length p <= f -> Forall real reals -> (r = true -> k = 0) ->
  cleanLoop f r p (rev (written r (reals ++ replicate k dotdotElem)))
    (length (written r (replicate k dotdotElem)))
  = rev (written r (foldl (normStep r) (reals ++ replicate k dotdotElem)
                      (comps p))).
Proof.
  induction p as [|q IH|e q He Hq IH] using comps_ind;
    intros f r reals k Hf Hreals Hk.
  - by rewrite cleanLoop_nil.
  - destruct f as [|f]; [simpl in Hf; lia|]. simpl in Hf.
    rewrite cleanLoop_sep, comps_sep. apply IH; [lia|done|done].
  - assert (Hlen : 0 < length e) by (destruct He as [Hne _]; destruct e; [done|simpl; lia]).
    rewrite length_app in Hf. destruct f as [|f]; [lia|].
    rewrite comps_elem by done. simpl foldl.
    unfold normStep at 2.
    destruct (decide (e = dotElem)) as [->|Hdot].
    { rewrite cleanLoop_dot by done. apply IH; [simpl in *; lia|done|done]. }
    destruct (decide (e = dotdotElem)) as [->|Hdd].
    { rewrite cleanLoop_dotdot by done. rewrite length_rev.
      destruct reals as [|e reals'].
      - simpl app at 1 2 3.
        rewrite (proj2 (Nat.ltb_ge _ _)) by lia.
        destruct r; simpl negb; cbv iota.
        + rewrite (Hk eq_refl). simpl replicate. apply (IH f true [] 0);
            [simpl in *; lia|done|done].
        + assert (Hst : (match replicate k dotdotElem with
                         | top :: below =>
                             if decide (top = dotdotElem)
                             then dotdotElem :: replicate k dotdotElem else below
                         | [] => [dotdotElem]
                         end) = replicate (S k) dotdotElem).
          { by destruct k. }
          simpl app. rewrite Hst.
          assert (Hbuf : "."%char :: "."%char ::
                   (if 0 <? length (written false (replicate k dotdotElem))
                    then "/"%char :: rev (written false (replicate k dotdotElem))
                    else rev (written false (replicate k dotdotElem)))
                  = rev (written false (replicate (S k) dotdotElem))).
          { rewrite <- replicate_dotdot_push, rev_written_push.
            destruct k; [done|]. 
            rewrite (proj2 (Nat.ltb_lt _ _)); [done|].
            pose proof (written_length_push false (replicate k dotdotElem) dotdotElem).
            rewrite replicate_dotdot_push in H. simpl length in H at 2. lia. }
          change (S (S (length ?x))) with (length ("."%char :: "."%char :: x)).
          rewrite Hbuf, length_rev.
          apply (IH f false [] (S k)); [simpl in *; lia|done|done].
      - apply Forall_cons in Hreals as [He' Hreals'].
        assert (Hlt : length (written r (replicate k dotdotElem)) <
                      length (written r ((e :: reals') ++ replicate k dotdotElem))).
        { simpl app.
          pose proof (written_length_push r (reals' ++ replicate k dotdotElem) e).
          pose proof (written_length_app r reals' (replicate k dotdotElem)).
          destruct He' as [[Hne _] _]. destruct e; [done|]. simpl in *. lia. }
        rewrite (proj2 (Nat.ltb_lt _ _)) by done.
        simpl app. destruct He' as (HeOK & _ & Hnd).
        rewrite decide_False by done.
        rewrite written_pop.
        + apply IH; [simpl in *; lia|done|done].
        + done.
        + by apply stack_elemOK.
        + intros Hnil. apply app_eq_nil in Hnil as [_ Hrep]. by rewrite Hrep.
        + apply written_length_app. }
    rewrite cleanLoop_real; [|done|done].
    assert (Hbuf : rev e ++
      (if (r && negb (length (rev (written r (reals ++ replicate k dotdotElem))) =? 1))
          || (negb r &&
              negb (length (rev (written r (reals ++ replicate k dotdotElem))) =? 0))
       then "/"%char :: rev (written r (reals ++ replicate k dotdotElem))
       else rev (written r (reals ++ replicate k dotdotElem)))
      = rev (written r ((e :: reals) ++ replicate k dotdotElem))).
    { simpl app. rewrite rev_written_push, length_rev.
      pose proof (written_empty r (reals ++ replicate k dotdotElem)
                    (stack_elemOK reals k Hreals)) as Hempty.
      destruct (reals ++ replicate k dotdotElem) as [|e0 st0] eqn:Hst.
      - by destruct r.
      - assert (Hn : length (written r (e0 :: st0)) <> if r then 1 else 0).
        { intros Hl. by apply Hempty in Hl. }
        destruct r; cbn [andb orb negb];
          by rewrite (proj2 (Nat.eqb_neq _ _)) by done. }
    rewrite Hbuf.
    change (e :: reals ++ replicate k dotdotElem)
      with ((e :: reals) ++ replicate k dotdotElem).
    apply IH; [simpl in *; lia| |done].
    constructor; [|done]. done.
Qed.

(** *** [Clean] on elements *)

Lemma render_rev r st :
  match rev (written r st) with
  | [] => "."
  | _ => String.string_of_list_ascii (rev (rev (written r st)))
  end = render r st.
Proof.
  unfold render. rewrite rev_involutive.
  destruct (written r st) as [|a w] eqn:Hw; [done|].
  destruct (rev (a :: w)) eqn:Hrev; [|done].
  apply (f_equal (@length ascii)) in Hrev. rewrite length_rev in Hrev. done.
Qed.

Lemma Clean_spec path :
  Clean path =
    render (rootedPath path)
      (norm (rootedPath path) (comps (String.list_ascii_of_string path))).
Proof.
  unfold Clean, rootedPath, norm.
  destruct (String.list_ascii_of_string path) as [|c rest]; [done|].
  destruct (isSep c) eqn:Hc.
  - apply isSep_true in Hc. subst c. rewrite comps_sep. simpl tail.
    pose proof (cleanLoop_spec rest (length ("/"%char :: rest)) true [] 0)
      as Hloop.
    change (rev (written true ([] ++ replicate 0 dotdotElem)))
      with ["/"%char] in Hloop.
    change (length (written true (replicate 0 dotdotElem))) with 1 in Hloop.
    rewrite Hloop; [|simpl; lia|done|done].
    apply render_rev.
  - pose proof (cleanLoop_spec (c :: rest) (length (c :: rest)) false [] 0)
      as Hloop.
    change (rev (written false ([] ++ replicate 0 dotdotElem)))
      with (@nil ascii) in Hloop.
    change (length (written false (replicate 0 dotdotElem))) with 0 in Hloop.
    rewrite Hloop; [|done|done|done].
    apply render_rev.
Qed.

Lemma normStep_good r st e : good r st -> elemOK e -> good r (normStep r st e).
Proof.
  intros (reals & k & -> & Hreals & Hk) He. unfold normStep.
  destruct (decide (e = dotElem)) as [->|Hdot].
  { by exists reals, k. }
  destruct (decide (e = dotdotElem)) as [->|Hdd].
  - destruct reals as [|e' reals'].
    + destruct k as [|k'].
      * destruct r; [by exists [], 0|]. by exists [], 1.
      * simpl. destruct r; [by specialize (Hk eq_refl)|].
        by exists [], (S (S k')).
    + apply Forall_cons in Hreals as [(_ & _ & Hnd) Hreals'].
      simpl. rewrite decide_False by done. by exists reals', k.
  - exists (e :: reals), k. split; [done|]. split; [|done].
    by constructor.
Qed.

Lemma foldl_normStep_good r es : forall st,
  good r st -> Forall elemOK es -> good r (foldl (normStep r) st es).
Proof.
  induction es as [|e es IH]; intros st Hst Hes; [done|].
  apply Forall_cons in Hes as [He Hes]. simpl.
  apply IH; [|done]. by apply normStep_good.
Qed.

Lemma good_nil r : good r [].
Proof. by exists [], 0. Qed.

Lemma norm_good r p : good r (norm r (comps p)).
Proof. apply foldl_normStep_good; [apply good_nil|apply comps_elemOK]. Qed.

(** Elements that are no [..] are pushed, [.] apart. *)
Lemma foldl_normStep_push r es : forall st,
  Forall (fun e => e <> dotdotElem) es ->
  foldl (normStep r) st es = rev (filter (fun e => e <> dotElem) es) ++ st.
Proof.
  induction es as [|e es IH]; intros st Hes; [done|].
  apply Forall_cons in Hes as [He Hes]. simpl. rewrite IH by done.
  unfold normStep. destruct (decide (e = dotElem)) as [->|Hdot].
  - by rewrite filter_cons_False by (intros H; by apply H).
  - rewrite filter_cons_True by done. rewrite decide_False by done.
    simpl. by rewrite <- app_assoc.
Qed.

Lemma foldl_normStep_dotdots k : forall j,
  foldl (normStep false) (replicate j dotdotElem) (replicate k dotdotElem)
  = replicate (k + j) dotdotElem.
Proof.
  induction k as [|k IH]; intros j; [done|].
  simpl foldl.
  assert (Hstep : normStep false (replicate j dotdotElem) dotdotElem
                  = replicate (S j) dotdotElem) by by destruct j.
  rewrite Hstep, IH. f_equal. lia.
Qed.

Lemma rev_replicate {A} k (x : A) : rev (replicate k x) = replicate k x.
Proof.
  induction k as [|k IH]; [done|]. simpl. rewrite IH.
  clear IH. induction k as [|k IH]; [done|]. simpl. by rewrite IH.
Qed.

Lemma filter_real reals :
  Forall real reals -> filter (fun e => e <> dotElem) reals = reals.
Proof.
  induction 1 as [|e reals (_ & Hd & _) _ IH]; [done|].
  rewrite filter_cons_True by done. by rewrite IH.
Qed.

(** A stack [Clean] has produced is a fixed point. *)
Lemma norm_rev_good r st : good r st -> norm r (rev st) = st.
Proof.
  intros (reals & k & -> & Hreals & Hk). unfold norm.
  rewrite rev_app_distr, rev_replicate, foldl_app.
  assert (Hdd : foldl (normStep r) [] (replicate k dotdotElem)
                = replicate k dotdotElem).
  { destruct r; [by rewrite (Hk eq_refl)|].
    change (@nil (list ascii)) with (replicate 0 dotdotElem) at 1.
    rewrite (foldl_normStep_dotdots k 0). f_equal. lia. }
  rewrite Hdd, foldl_normStep_push.
  - rewrite filter_real by by apply Forall_rev.
    by rewrite rev_involutive.
  - apply Forall_rev. eapply Forall_impl; [exact Hreals|].
    by intros e (_ & _ & Hnd).
Qed.

(** *** Reading a cleaned path back *)

Lemma comps_joinBytes l : Forall elemOK l -> comps (joinBytes l) = l.
Proof.
  induction 1 as [|e l He Hl IH]; [done|].
  destruct l as [|e' l'].
  - simpl. by apply comps_single.
  - change (joinBytes (e :: e' :: l'))
      with (e ++ "/"%char :: joinBytes (e' :: l')).
    rewrite comps_elem; [|done|right; eauto].
    by rewrite comps_sep, IH.
Qed.

Lemma comps_written r st : Forall elemOK st -> comps (written r st) = rev st.
Proof.
  intros Hst. unfold written.
  assert (Hj : comps (joinBytes (rev st)) = rev st)
    by by apply comps_joinBytes, Forall_rev.
  destruct r; [|done]. simpl app. by rewrite comps_sep.
Qed.

Lemma joinBytes_head l a w :
  Forall elemOK l -> joinBytes l = a :: w -> isSep a = false.
Proof.
  intros Hl Hj. destruct Hl as [|e l [Hne He] Hl]; [done|].
  destruct e as [|c e]; [done|]. apply Forall_cons in He as [Hc _].
  destruct l; simpl in Hj; injection Hj as <- _; done.
Qed.

Lemma written_head r st a w :
  Forall elemOK st -> written r st = a :: w -> isSep a = r.
Proof.
  intros Hst Hw. unfold written in Hw. destruct r.
  - by injection Hw as <- _.
  - simpl in Hw. eapply joinBytes_head; [|exact Hw]. by apply Forall_rev.
Qed.

Lemma written_nil r st : Forall elemOK st -> written r st = [] -> r = false /\ st = [].
Proof.
  intros Hst Hw. destruct r; [done|]. split; [done|].
  apply (written_empty false st Hst). by rewrite Hw.
Qed.

Lemma bytes_render r st :
  written r st <> [] ->
  String.list_ascii_of_string (render r st) = written r st.
Proof.
  intros Hw. unfold render. destruct (written r st) as [|a w]; [done|].
  apply String.list_ascii_of_string_of_list_ascii.
Qed.

Lemma rootedPath_render r st : Forall elemOK st -> rootedPath (render r st) = r.
Proof.
  intros Hst. destruct (written r st) as [|a w] eqn:Hw.
  - unfold render. rewrite Hw. by apply written_nil in Hw as [-> _].
  - unfold rootedPath. rewrite bytes_render by by rewrite Hw.
    rewrite Hw. by apply (written_head r st a w).
Qed.

Lemma Clean_render r st : good r st -> Clean (render r st) = render r st.
Proof.
  intros Hgood. pose proof (good_elemOK r st Hgood) as Hst.
  rewrite Clean_spec, rootedPath_render by done.
  destruct (written r st) as [|a w] eqn:Hw.
  - apply written_nil in Hw as [-> ->]; done.
  - rewrite bytes_render by by rewrite Hw.
    by rewrite comps_written, norm_rev_good.
Qed.

Lemma Clean_idempotent path : Clean (Clean path) = Clean path.
Proof. rewrite (Clean_spec path). apply Clean_render, norm_good. Qed.

Lemma elementsOf_compsOf f : forall p,
  elementsOf f p = String.string_of_list_ascii <$> compsOf f p.
Proof.
  induction f as [|f IH]; intros p; [done|].
  destruct p as [|c rest]; [done|]. cbn [elementsOf compsOf].
  destruct (isSep c); [apply IH|].
  destruct (element (c :: rest)) as [e q]. simpl. by rewrite IH.
Qed.

Lemma elements_comps path :
  elements path =
    String.string_of_list_ascii <$> comps (String.list_ascii_of_string path).
Proof. apply elementsOf_compsOf. Qed.

Lemma good_no_dot r st : good r st -> dotElem ∉ st.
Proof.
  intros (reals & k & -> & Hreals & _) Hin.
  apply elem_of_app in Hin as [Hin|Hin].
  - rewrite Forall_forall in Hreals. by destruct (Hreals _ Hin) as (_ & Hd & _).
  - by apply elem_of_replicate in Hin as [Hin _].
Qed.

(** The elements [within] compares. *)
Lemma elements_render r st :
  good r st ->
  (if String.eqb (render r st) "." then [] else elements (render r st))
  = String.string_of_list_ascii <$> rev st.
Proof.
  intros Hgood. pose proof (good_elemOK r st Hgood) as Hst.
  destruct (written r st) as [|a w] eqn:Hw.
  - unfold render. rewrite Hw. by apply written_nil in Hw as [_ ->].
  - assert (Hel : elements (render r st) = String.string_of_list_ascii <$> rev st).
    { rewrite elements_comps, bytes_render by by rewrite Hw.
      by rewrite comps_written. }
    destruct (String.eqb_spec (render r st) ".") as [Heq|Hne]; [|done].
    exfalso. apply (good_no_dot r st Hgood).
    assert (Hc : comps (written r st) = [dotElem]).
    { rewrite <- bytes_render by by rewrite Hw. by rewrite Heq. }
    rewrite comps_written in Hc by done.
    rewrite <- (rev_involutive st), Hc. simpl. apply list_elem_of_here.
Qed.

(** *** Joining below a directory *)

Lemma bytes_append a b :
  String.list_ascii_of_string (a +:+ b) =
    String.list_ascii_of_string a ++ String.list_ascii_of_string b.
Proof. induction a as [|c a IH]; [done|]. simpl. by rewrite IH. Qed.

Lemma Join_cons e rest : e <> "" -> Join (e :: rest) = Clean (joinSep (e :: rest)).
Proof.
  intros He. unfold Join. by destruct (String.eqb_spec e "").
Qed.

Lemma Join_two target name :
  target <> "" ->
  Join [target; name] =
    render (rootedPath target)
      (foldl (normStep (rootedPath target))
         (norm (rootedPath target) (comps (String.list_ascii_of_string target)))
         (comps (String.list_ascii_of_string name))).
Proof.
  intros Hne. rewrite Join_cons by done. rewrite Clean_spec.
  change (joinSep [target; name]) with (target +:+ "/" +:+ name).
  assert (Hr : rootedPath (target +:+ "/" +:+ name) = rootedPath target).
  { unfold rootedPath. rewrite bytes_append. by destruct target. }
  rewrite Hr, !bytes_append. simpl app at 2.
  change (String.list_ascii_of_string "/" ++ ?x) with ("/"%char :: x).
  rewrite comps_app. unfold norm. by rewrite foldl_app.
Qed.

Lemma string_of_dotdot e : String.string_of_list_ascii e = ".." -> e = dotdotElem.
Proof.
  intros He. rewrite <- (String.list_ascii_of_string_of_list_ascii e). by rewrite He.
Qed.

Lemma good_app r N st : Forall real N -> good r st -> good r (N ++ st).
Proof.
  intros HN (reals & k & -> & Hreals & Hk). exists (N ++ reals), k.
  split; [by rewrite app_assoc|]. split; [by apply Forall_app|done].
Qed.

(** The elements of [name] that [Join] adds when none of them is [..]. *)
Lemma Join_adds target name :
  target <> "" -> ".." ∉ elements name ->
  exists N,
    Forall real N /\
    Join [target; name] =
      render (rootedPath target)
        (N ++ norm (rootedPath target)
                (comps (String.list_ascii_of_string target))).
Proof.
  intros Hne Hdd.
  set (cn := comps (String.list_ascii_of_string name)).
  assert (Hcn : Forall (fun e => e <> dotdotElem) cn).
  { apply Forall_forall. intros e He ->. apply Hdd.
    rewrite elements_comps.
    by apply (list_elem_of_fmap_2' _ _ dotdotElem). }
  exists (rev (filter (fun e => e <> dotElem) cn)). split.
  - apply Forall_rev, Forall_forall. intros e He.
    apply list_elem_of_filter in He as [Hd He]. split; [|split; [done|]].
    + pose proof (comps_elemOK (String.list_ascii_of_string name)) as Hok.
      rewrite Forall_forall in Hok. by apply Hok.
    + rewrite Forall_forall in Hcn. by apply Hcn.
  - rewrite Join_two by done. by rewrite foldl_normStep_push.
Qed.

Lemma within_stack r N st dir :
  Clean dir = render r st -> good r st -> Forall real N ->
  within dir (render r (N ++ st)) = true.
Proof.
  intros Hd Hgood HN. pose proof (good_app r N st HN Hgood) as Hgood'.
  unfold within. rewrite Hd, Clean_render by done.
  rewrite !rootedPath_render by by eapply good_elemOK.
  rewrite !elements_render by done.
  rewrite rev_app_distr, fmap_app.
  rewrite Bool.eqb_reflx. simpl andb.
  apply andb_true_intro. split.
  - unfold isPrefixOf. apply bool_decide_eq_true_2. by rewrite take_app_length.
  - apply negb_true_iff, bool_decide_eq_false_2.
    rewrite app_nth2 by lia. rewrite Nat.sub_diag.
    destruct (rev N) as [|e l] eqn:Hrev; [done|]. simpl.
    intros He. apply string_of_dotdot in He.
    assert (Hin : e ∈ N).
    { apply list_elem_of_In, in_rev. rewrite Hrev. by left. }
    rewrite Forall_forall in HN. by destruct (HN e Hin) as (_ & _ & Hnd).
Qed.

(** An entry without [..] elements is joined to a path inside the
    target. *)
Lemma Join_within target name :
  target <> "" -> ".." ∉ elements name ->
  within target (Join [target; name]) = true.
Proof.
  intros Hne Hdd. destruct (Join_adds target name Hne Hdd) as (N & HN & ->).
  apply within_stack; [apply Clean_spec|apply norm_good|done].
Qed.

(** *** The directory of a cleaned path *)

Lemma dropElement_app l X : sepfree l -> dropElement (l ++ X) = dropElement X.
Proof. induction 1 as [|c l Hc _ IH]; [done|]. simpl. by rewrite Hc. Qed.

Lemma written_cons_ne r e st : elemOK e -> written r (e :: st) <> [].
Proof.
  intros [Hne _] Hw. apply (f_equal (@length ascii)) in Hw.
  pose proof (written_length_push r st e). rewrite Hw in H.
  destruct e; [done|]. simpl in H. lia.
Qed.

Lemma Dir_render r e st :
  elemOK e -> good r st -> Dir (render r (e :: st)) = render r st.
Proof.
  intros He Hgood. pose proof (good_elemOK r st Hgood) as Hst.
  unfold Dir. rewrite bytes_render by by apply written_cons_ne.
  rewrite rev_written_push, dropElement_app by by apply Forall_rev, He.
  destruct st as [|e' st'].
  - by destruct r.
  - change (dropElement (["/"%char] ++ ?x)) with ("/"%char :: x).
    change (rev ("/"%char :: ?x)) with (rev x ++ ["/"%char]).
    rewrite rev_involutive, Clean_spec.
    unfold rootedPath. rewrite String.list_ascii_of_string_of_list_ascii.
    destruct (written r (e' :: st')) as [|a w] eqn:Hw.
    { exfalso. revert Hw. apply written_cons_ne.
      by apply Forall_cons in Hst as [? _]. }
    rewrite <- app_comm_cons, (written_head r (e' :: st') a w Hst Hw).
    rewrite app_comm_cons, <- Hw, comps_app, comps_nil, app_nil_r.
    by rewrite comps_written, norm_rev_good.
Qed.

Lemma within_Clean dir path : within dir (Clean path) = within dir path.
Proof. unfold within. by rewrite Clean_idempotent. Qed.

Lemma within_self target : within target target = true.
Proof.
  rewrite <- within_Clean, Clean_spec.
  apply (within_stack _ []); [apply Clean_spec|apply norm_good|done].
Qed.

Lemma Join_Dir_within target name :
  target <> "" -> ".." ∉ elements name ->
  within target (Dir (Join [target; name])) = true \/
  Dir (Join [target; name]) = Dir (Clean target).
Proof.
  intros Hne Hdd. destruct (Join_adds target name Hne Hdd) as (N & HN & ->).
  destruct N as [|e N'].
  - right. by rewrite (Clean_spec target).
  - left. apply Forall_cons in HN as [(He & _) HN'].
    simpl app. rewrite Dir_render; [|done|by apply good_app, norm_good].
    apply within_stack; [apply Clean_spec|apply norm_good|done].
Qed.

End PathFacts.



(** * Extraction stays inside the target *)

Section StaysInside.
Import Filepath PathSpec Client ClientSamples Containment.

Lemma extractLoop_inside env opener target files :
  target <> "" ->
  Forall (fun file => ".." ∉ elements (Name file)) files ->
  Forall (inside target) (extractLoop env opener target files).1.
Proof.
  intros Hne Hfiles. induction Hfiles as [|file files Hfile _ IH]; [constructor|].
  pose proof (Join_within target (Name file) Hne Hfile) as Hin.
  pose proof (Join_Dir_within target (Name file) Hne Hfile) as Hdir.
  simpl. destruct (extractLoop env opener target files) as [evs err].
  simpl in IH. destruct (IsDir file).
  { simpl. constructor; [by left|done]. }
  destruct (opener file) as [data|e]; [|constructor].
  destruct (OpenFile env (Join [target; Name file])).
  { simpl. constructor; [exact Hdir|]. constructor; [exact Hin|constructor]. }
  destruct (Copy env (Join [target; Name file])); simpl;
    (constructor; [exact Hdir|]); (constructor; [exact Hin|]);
    (constructor; [exact Hin|]); [constructor|exact IH].
Qed.

(** X14. Extraction of an archive none of whose entry names has a [..]
    element stays inside the target directory: every file it opens or
    writes is, lexically, the target or below it, and so is every
    directory it creates, but for the parent of the target when an entry
    names the target itself. *)
Theorem extraction_stays_inside_target env opener source target :
  target <> "" ->
  (forall files, OpenReader env source = Ok files ->
                 Forall (fun file => ".." ∉ elements (Name file)) files) ->
  Forall (inside target) (extractWith env opener source target).1.
Proof.
  intros Hne Hfiles. unfold extractWith.
  destruct (OpenReader env source) as [files|e]; [|by repeat constructor].
  pose proof (extractLoop_inside env opener target files Hne (Hfiles files eq_refl))
    as Hloop.
  destruct (extractLoop env opener target files) as [evs err]. simpl in *.
  repeat (constructor; [done|]). constructor; [|done].
  left. apply within_self.
Qed.

Lemma extraction_stays_inside_target_witness :
  Forall (inside "out") (extractFromZip tameEnv "a.zip" "out" "").1.
Proof.
  apply (extraction_stays_inside_target tameEnv (openEntry "") "a.zip" "out").
  - done.
  - intros files Hfiles. injection Hfiles as <-.
    repeat (apply Forall_cons; split;
            [apply (bool_decide_unpack _); vm_compute; exact I|]).
    constructor.
Defined.

(** X18. The key file is always the file [key] of a directory [.xzip],
    whatever the home directory is called, and the directory that
    [initKeyFile] creates first is that directory: the home directory
    joined with [.xzip]. *)
Theorem key_file_location env :
  Dir (getKeyFilePath env) = Join [UserHomeDir env; ".xzip"] /\
  (exists pre, elements (getKeyFilePath env) = pre ++ [".xzip"; "key"]) /\
  head (initKeyFile env).1 = Some (EvMkdirAll (Join [UserHomeDir env; ".xzip"]) 448).
Proof.
  assert (Hdir : Dir (getKeyFilePath env) = Join [UserHomeDir env; ".xzip"] /\
          exists pre, elements (getKeyFilePath env) = pre ++ [".xzip"; "key"]).
  { unfold getKeyFilePath. destruct (decide (UserHomeDir env = "")) as [->|Hne].
    { split; [done|]. by exists []. }
    set (r := rootedPath (UserHomeDir env)).
    set (st := norm r (comps (String.list_ascii_of_string (UserHomeDir env)))).
    assert (Hst : good r st) by apply norm_good.
    assert (Hx : real (String.list_ascii_of_string ".xzip")).
    { split; [split; [done|by repeat constructor]|done]. }
    assert (Hk : real (String.list_ascii_of_string "key")).
    { split; [split; [done|by repeat constructor]|done]. }
    assert (Hkey : Join [UserHomeDir env; KeyFile] =
              render r (String.list_ascii_of_string "key" ::
                        String.list_ascii_of_string ".xzip" :: st)).
    { rewrite Join_two by done. fold r. fold st.
      by rewrite foldl_normStep_push by by repeat constructor. }
    assert (Hxzip : Join [UserHomeDir env; ".xzip"] =
              render r (String.list_ascii_of_string ".xzip" :: st)).
    { rewrite Join_two by done. fold r. fold st.
      by rewrite foldl_normStep_push by by repeat constructor. }
    rewrite Hkey, Hxzip. split.
    - apply Dir_render; [apply Hk|]. by apply (good_app r [_]); [constructor|].
    - exists (String.string_of_list_ascii <$> rev st).
      assert (Hgood : good r (String.list_ascii_of_string "key" ::
                              String.list_ascii_of_string ".xzip" :: st)).
      { by apply (good_app r [_; _]); [repeat constructor|]. }
      rewrite elements_comps, bytes_render
        by (apply written_cons_ne, Hk).
      rewrite comps_written by by eapply good_elemOK.
      simpl. rewrite <- app_assoc, fmap_app. done. }
  destruct Hdir as [Hdir Hel]. split; [done|]. split; [done|].
  unfold initKeyFile. rewrite Hdir.
  destruct (MkdirAllKeyDir env); [done|].
  destruct (StatNotExist env); [|done]. by destruct (CreateKeyFile env).
Qed.

End StaysInside.
